(** * memorybench RAG provider: chunker, entity graph, hybrid search,
      extraction parser, reranker driver and provider orchestration.

    A shallow embedding of the TypeScript sources under [src/providers/rag]
    and [src/prompts/extraction.ts], with the properties the specification
    states about them. *)

From Stdlib Require Import ZArith NArith List Bool Lia String Ascii DecimalString.
From Stdlib Require Import DecimalNat.
From Stdlib Require Import QArith Qminmax Lqa Permutation Sorted.
Import ListNotations.

Set Implicit Arguments.
Local Open Scope Z_scope.

(* ================================================================== *)
(** ** JavaScript strings *)

(** A JavaScript string is a sequence of UTF-16 code units.  Indices and
    lengths are JavaScript numbers; the ones used here are integers, so
    they are modelled as [Z] ([lastIndexOf] returns [-1], [slice] accepts
    negative arguments). *)
Module JS.

Definition str := list N.

(** Literal with code units below 256. *)
Definition lit (s : string) : str := map N_of_ascii (list_ascii_of_string s).

Definition str_eqb (a b : str) : bool :=
  if list_eq_dec N.eq_dec a b then true else false.

(** [s.length] *)
Definition length {A : Type} (s : list A) : Z := Z.of_nat (List.length s).

(** ECMAScript WhiteSpace and LineTerminator code points, the ones
    [String.prototype.trim] strips. *)
Definition is_ws (c : N) : bool :=
  ((9 <=? c) && (c <=? 13) || (c =? 32) || (c =? 160) || (c =? 5760)
   || (8192 <=? c) && (c <=? 8202) || (c =? 8232) || (c =? 8233)
   || (c =? 8239) || (c =? 8287) || (c =? 12288) || (c =? 65279))%N.

Fixpoint trimStart (s : str) : str :=
  match s with
  | c :: s' => if is_ws c then trimStart s' else s
  | [] => []
  end.

Definition trimEnd (s : str) : str := rev (trimStart (rev s)).

(** [s.trim()] *)
Definition trim (s : str) : str := trimEnd (trimStart s).

(** [s.slice(a, b)]: negative arguments count from the end, both are
    clamped to the string. *)
Definition rel_index (len i : Z) : Z :=
  if i <? 0 then Z.max (len + i) 0 else Z.min i len.

Definition slice (s : str) (a b : Z) : str :=
  let from := rel_index (length s) a in
  let to := rel_index (length s) b in
  firstn (Z.to_nat (to - from)) (skipn (Z.to_nat from) s).

(** [array.slice(a, b)], the same rule on an array. *)
Definition arr_slice {A : Type} (l : list A) (a b : Z) : list A :=
  let len := Z.of_nat (List.length l) in
  let from := rel_index len a in
  let to := rel_index len b in
  firstn (Z.to_nat (to - from)) (skipn (Z.to_nat from) l).

(** [s.slice(a)] *)
Definition slice_from (s : str) (a : Z) : str :=
  skipn (Z.to_nat (rel_index (length s) a)) s.

(** [s.substring(0, n)] for a non-negative [n]. *)
Definition substring0 (s : str) (n : nat) : str := firstn n s.

Fixpoint starts_with (p s : str) : bool :=
  match p, s with
  | [], _ => true
  | c :: p', d :: s' => (c =? d)%N && starts_with p' s'
  | _ :: _, [] => false
  end.

(** One left-to-right pass keeping the last position [k <= bound] at
    which [p] occurs. *)
Fixpoint lastIndexOf_from (p s : str) (k bound acc : Z) : Z :=
  match s with
  | [] => if (k <=? bound) && starts_with p [] then k else acc
  | _ :: s' =>
      lastIndexOf_from p s' (k + 1) bound
        (if (k <=? bound) && starts_with p s then k else acc)
  end.

(** [s.lastIndexOf(p, fromIndex)]: the search starts at [fromIndex]
    clamped between [0] and [s.length - p.length] and goes backwards;
    [-1] when [p] does not occur. *)
Definition lastIndexOf (s p : str) (fromIndex : Z) : Z :=
  let start := Z.min (Z.max fromIndex 0) (length s - length p) in
  lastIndexOf_from p s 0 start (-1).

(** First position [>= k] at which [p] occurs, as an offset from the
    head of [s]. *)
Fixpoint indexOf_from (p s : str) (k : nat) : option nat :=
  if starts_with p s then Some k
  else match s with
       | [] => None
       | _ :: s' => indexOf_from p s' (S k)
       end.

(** [s.indexOf(p)], [None] for [-1]. *)
Definition indexOf (s p : str) : option nat := indexOf_from p s 0.

(** [s.includes(p)] *)
Definition includes (s p : str) : bool :=
  match indexOf s p with Some _ => true | None => false end.

(** [s.split(sep)] for a one-code-unit separator. *)
Fixpoint split (sep : N) (s : str) : list str :=
  match s with
  | [] => [[]]
  | c :: s' =>
      if (c =? sep)%N then [] :: split sep s'
      else match split sep s' with
           | f :: fs => (c :: f) :: fs
           | [] => [[c]]
           end
  end.

(** [parts.join(sep)] *)
Fixpoint join (sep : str) (parts : list str) : str :=
  match parts with
  | [] => []
  | [p] => p
  | p :: ps => p ++ sep ++ join sep ps
  end.

(** [String.prototype.toLowerCase] on the ASCII letters; every other
    code unit is treated as caseless. *)
Definition lower_unit (c : N) : N :=
  if ((65 <=? c) && (c <=? 90))%N then (c + 32)%N else c.

Definition toLowerCase (s : str) : str := map lower_unit s.

(** A JavaScript string is truthy when it is not empty. *)
Definition truthy (s : str) : bool :=
  match s with [] => false | _ => true end.

(** [s.split(/\s+/)]: the separators are the maximal runs of white
    space ([\s] is the set [trim] strips). *)
Fixpoint split_ws_go (prev_ws : bool) (s : str) : list str :=
  match s with
  | [] => [[]]
  | c :: s' =>
      if is_ws c then
        if prev_ws then split_ws_go true s' else [] :: split_ws_go true s'
      else match split_ws_go false s' with
           | f :: fs => (c :: f) :: fs
           | [] => [[c]]
           end
  end.

Definition split_ws (s : str) : list str := split_ws_go false s.

(** [Map<string, V>]: an association list in insertion order, one
    entry per key; [set] on a present key keeps its position. *)
Definition omap (V : Type) : Type := list (str * V).

Fixpoint map_get {V : Type} (k : str) (m : omap V) : option V :=
  match m with
  | [] => None
  | (k', v) :: m' => if str_eqb k' k then Some v else map_get k m'
  end.

Definition map_has {V : Type} (k : str) (m : omap V) : bool :=
  match map_get k m with Some _ => true | None => false end.

Fixpoint map_set {V : Type} (k : str) (v : V) (m : omap V) : omap V :=
  match m with
  | [] => [(k, v)]
  | (k', v') :: m' =>
      if str_eqb k' k then (k', v) :: m' else (k', v') :: map_set k v m'
  end.

Fixpoint map_delete {V : Type} (k : str) (m : omap V) : omap V :=
  match m with
  | [] => []
  | (k', v') :: m' =>
      if str_eqb k' k then map_delete k m' else (k', v') :: map_delete k m'
  end.

(** [Set<string>]: a list without duplicates, in insertion order. *)
Definition set_has (k : str) (s : list str) : bool := existsb (str_eqb k) s.

Definition set_add (k : str) (s : list str) : list str :=
  if set_has k s then s else s ++ [k].

Definition PIPE : N := 124.
Definition NL : N := 10.
Definition SPACE : N := 32.

End JS.

(* ================================================================== *)
(** ** The chunker ([chunkText]) *)

Module Chunker.
Import JS.

Definition CHUNK_SIZE : Z := 1600.
Definition CHUNK_OVERLAP : Z := 320.

(** The break-point search of one loop iteration.  The source compares
    [breakPoint < start + chunkSize * 0.5]; both sides are doubled here
    so that the comparison stays in [Z]. *)
Definition too_early (bp start chunkSize : Z) : bool :=
  (bp <=? start) || (2 * bp <? 2 * start + chunkSize).

Definition breakPoint (text : str) (chunkSize start : Z) : Z :=
  let end_ := start + chunkSize in
  let bp := lastIndexOf text (lit ". ") end_ in
  let bp := if too_early bp start chunkSize
            then lastIndexOf text [NL] end_ else bp in
  let bp := if too_early bp start chunkSize
            then lastIndexOf text [SPACE] end_ else bp in
  if bp <=? start then end_ else bp.

Record loop_state := { start : Z; chunks : list str }.

Inductive iter_result :=
| Break (out : list str)
| Next (st : loop_state).

(** The body of [while (start < text.length)]. *)
Definition iteration (text : str) (chunkSize overlap : Z)
    (st : loop_state) : iter_result :=
  let end_ := start st + chunkSize in
  if end_ >=? length text then
    Break (chunks st ++ [trim (slice_from text (start st))])
  else
    let bp := breakPoint text chunkSize (start st) in
    let cs := chunks st ++ [trim (slice text (start st) (bp + 1))] in
    let s' := bp + 1 - overlap in
    Next {| start := if s' <? 0 then 0 else s'; chunks := cs |}.

(** The loop, with a bound on the number of iterations: [None] when the
    bound is reached before the loop exits. *)
Fixpoint loop (fuel : nat) (text : str) (chunkSize overlap : Z)
    (st : loop_state) : option (list str) :=
  match fuel with
  | O => None
  | S fuel' =>
      if start st <? length text then
        match iteration text chunkSize overlap st with
        | Break out => Some out
        | Next st' => loop fuel' text chunkSize overlap st'
        end
      else Some (chunks st)
  end.

Definition nonempty (c : str) : bool := 0 <? length c.

Definition chunkText (fuel : nat) (text : str) (chunkSize overlap : Z)
    : option (list str) :=
  if length text <=? chunkSize then Some [trim text]
  else option_map (filter nonempty)
         (loop fuel text chunkSize overlap {| start := 0; chunks := [] |}).

End Chunker.

(* ================================================================== *)
(** ** Regular expressions used by the sources *)

(** The patterns of the sources use literals, [.], [\w], [\b], grouping,
    alternation and [+].  [RegExp.prototype.test] answers whether some
    match exists; backtracking order does not matter for that, so a
    pattern is given the set of end positions it can reach from a start
    position. *)
Module Regex.
Import JS.

Inductive re :=
| Never
| Eps
| Lit (c : N)
| Dot
| WordCh
| Bnd
| Seq (r1 r2 : re)
| Alt (r1 r2 : re)
| Plus (r : re).

(** [\w]: ASCII letters, digits and underscore. *)
Definition is_word (c : N) : bool :=
  ((48 <=? c) && (c <=? 57) || (65 <=? c) && (c <=? 90)
   || (97 <=? c) && (c <=? 122) || (c =? 95))%N.

(** [.] matches anything but a line terminator. *)
Definition is_line_terminator (c : N) : bool :=
  ((c =? 10) || (c =? 13) || (c =? 8232) || (c =? 8233))%N.

Section Matcher.
(** How a literal of the pattern compares with a code unit of the
    input: exactly, or up to case. *)
Variable ceq : N -> N -> bool.
Variable s : str.

Definition word_at (i : nat) : bool :=
  match nth_error s i with Some c => is_word c | None => false end.

(** [\b] holds at [i] when exactly one of the code units before and
    at [i] is a word character. *)
Definition boundary (i : nat) : bool :=
  xorb (match i with O => false | S j => word_at j end) (word_at i).

(** One or more repetitions of a step [f]; [n] bounds their number. *)
Fixpoint plus_iter (n : nat) (f : nat -> list nat) (i : nat) : list nat :=
  match n with
  | O => []
  | S n' => f i ++ flat_map (plus_iter n' f) (f i)
  end.

(** The positions at which a match of [r] starting at [i] can end. *)
Fixpoint ends (r : re) (i : nat) : list nat :=
  match r with
  | Never => []
  | Eps => [i]
  | Lit c =>
      match nth_error s i with
      | Some d => if ceq c d then [S i] else []
      | None => []
      end
  | Dot =>
      match nth_error s i with
      | Some d => if is_line_terminator d then [] else [S i]
      | None => []
      end
  | WordCh =>
      match nth_error s i with
      | Some d => if is_word d then [S i] else []
      | None => []
      end
  | Bnd => if boundary i then [i] else []
  | Seq r1 r2 => flat_map (ends r2) (ends r1 i)
  | Alt r1 r2 => ends r1 i ++ ends r2 i
  | Plus r1 => plus_iter (S (List.length s)) (ends r1) i
  end.

Definition matches_at (r : re) (i : nat) : bool :=
  match ends r i with [] => false | _ :: _ => true end.

(** [r.test(s)]: a match starts at some position. *)
Definition test (r : re) : bool :=
  existsb (matches_at r) (seq 0 (S (List.length s))).
End Matcher.

(** Exact comparison, and comparison up to ASCII case. *)
Definition exact (c d : N) : bool := (c =? d)%N.

(** A literal string. *)
Definition lits (w : str) : re := fold_right (fun c r => Seq (Lit c) r) Eps w.

(** [\b...\b] *)
Definition bounded (r : re) : re := Seq Bnd (Seq r Bnd).

(** Reading a pattern from its source text, for the syntax the sources
    use: alternation [|], groups [( )], [+], [.], [\b], [\w] and
    literal code units.  [fuel] bounds the recursion depth. *)
Fixpoint p_alt (fuel : nat) (s : str) : option (re * str) :=
  match fuel with
  | O => None
  | S f =>
      match p_seq f s with
      | Some (r, 124%N :: s') =>
          match p_alt f s' with
          | Some (r2, s'') => Some (Alt r r2, s'')
          | None => None
          end
      | other => other
      end
  end
with p_seq (fuel : nat) (s : str) : option (re * str) :=
  match fuel with
  | O => None
  | S f =>
      match s with
      | [] => Some (Eps, s)
      | 124%N :: _ => Some (Eps, s)
      | 41%N :: _ => Some (Eps, s)
      | _ =>
          match p_atom f s with
          | Some (a, s') =>
              match p_seq f s' with
              | Some (r, s'') => Some (Seq a r, s'')
              | None => None
              end
          | None => None
          end
      end
  end
with p_atom (fuel : nat) (s : str) : option (re * str) :=
  match fuel with
  | O => None
  | S f =>
      match p_base f s with
      | Some (b, 43%N :: s') => Some (Plus b, s')
      | other => other
      end
  end
with p_base (fuel : nat) (s : str) : option (re * str) :=
  match fuel with
  | O => None
  | S f =>
      match s with
      | 40%N :: s' =>
          match p_alt f s' with
          | Some (r, 41%N :: s'') => Some (r, s'')
          | _ => None
          end
      | 92%N :: 98%N :: s' => Some (Bnd, s')
      | 92%N :: 119%N :: s' => Some (WordCh, s')
      | 46%N :: s' => Some (Dot, s')
      | c :: s' => Some (Lit c, s')
      | [] => None
      end
  end.

Definition parse (src : string) : option re :=
  match p_alt (4 * String.length src + 4) (lit src) with
  | Some (r, []) => Some r
  | _ => None
  end.

(** The pattern of a regular expression literal [/src/]. *)
Definition compile (src : string) : re :=
  match parse src with Some r => r | None => Never end.

End Regex.

(* ================================================================== *)
(** ** The entity graph ([graph.ts]) *)

Module Graph.
Import JS.

Record EntityNode := {
  name : str;
  type : str;
  summary : str;
  sessionIds : list str   (* Set<string>, in insertion order *)
}.

Record RelationshipEdge := {
  source : str;
  target : str;
  relation : str;
  date : option str;
  sessionId : str
}.

Record EntityOut := { e_name : str; e_type : str; e_summary : str }.

Record RelOut := {
  r_source : str; r_target : str; r_relation : str; r_date : option str
}.

Record GraphSearchResult := {
  entities : list EntityOut;
  relationships : list RelOut
}.

Definition MAX_GRAPH_ENTITIES : nat := 10.
Definition MAX_GRAPH_RELATIONSHIPS : nat := 20.

Record EntityGraph := {
  nodes : omap EntityNode;
  edgeSet : list str;
  adjacency : omap (list RelationshipEdge);
  nameIndex : omap (list str)
}.

Definition empty : EntityGraph :=
  {| nodes := []; edgeSet := []; adjacency := []; nameIndex := [] |}.

(** [if (!idx.has(key)) idx.set(key, new Set()); idx.get(key)!.add(c)] *)
Definition index_add (key canonical : str) (idx : omap (list str))
    : omap (list str) :=
  let idx := if map_has key idx then idx else map_set key [] idx in
  match map_get key idx with
  | Some names => map_set key (set_add canonical names) idx
  | None => idx
  end.

(** The full lowercased name and each part longer than two code units. *)
Definition index_name (canonical : str) (idx : omap (list str))
    : omap (list str) :=
  fold_left
    (fun idx part =>
       if 2 <? length part then index_add (toLowerCase part) canonical idx
       else idx)
    (split_ws canonical)
    (index_add (toLowerCase canonical) canonical idx).

Definition merge_summary (old new : str) : str :=
  if truthy new && negb (includes old (substring0 new 40))
  then substring0 (old ++ [SPACE] ++ new) 500
  else old.

Definition addEntity (g : EntityGraph) (name_ type_ summary_ sessionId_ : str)
    : EntityGraph :=
  let canonical := trim name_ in
  if negb (truthy canonical) then g
  else
    let node :=
      match map_get canonical (nodes g) with
      | Some existing =>
          {| name := name existing;
             type := type existing;
             summary := merge_summary (summary existing) summary_;
             sessionIds := set_add sessionId_ (sessionIds existing) |}
      | None =>
          {| name := canonical;
             type := toLowerCase type_;
             summary := summary_;
             sessionIds := [sessionId_] |}
      end in
    {| nodes := map_set canonical node (nodes g);
       edgeSet := edgeSet g;
       adjacency := adjacency g;
       nameIndex := index_name canonical (nameIndex g) |}.

Definition key_of (src rel tgt : str) : str :=
  src ++ [PIPE] ++ rel ++ [PIPE] ++ tgt.

Definition edge_key (e : RelationshipEdge) : str :=
  key_of (source e) (relation e) (target e).

(** [if (!adj.has(k)) adj.set(k, []); adj.get(k)!.push(e)] *)
Definition adj_push (k : str) (e : RelationshipEdge)
    (adj : omap (list RelationshipEdge)) : omap (list RelationshipEdge) :=
  let adj := if map_has k adj then adj else map_set k [] adj in
  match map_get k adj with
  | Some l => map_set k (l ++ [e]) adj
  | None => adj
  end.

Definition addRelationship (g : EntityGraph) (e : RelationshipEdge)
    : EntityGraph :=
  if set_has (edge_key e) (edgeSet g) then g
  else
    {| nodes := nodes g;
       edgeSet := set_add (edge_key e) (edgeSet g);
       adjacency := adj_push (target e) e (adj_push (source e) e (adjacency g));
       nameIndex := nameIndex g |}.

(** [escapeRegex] makes the key a literal; the pattern is [\bkey\b]. *)
Definition findEntitiesInQuery (g : EntityGraph) (query : str) : list str :=
  let queryLower := toLowerCase query in
  fold_left
    (fun matched (entry : str * list str) =>
       let (key, canonicals) := entry in
       if length key <=? 2 then matched
       else if Regex.test Regex.exact queryLower (Regex.bounded (Regex.lits key))
       then fold_left (fun m c => set_add c m) canonicals matched
       else matched)
    (nameIndex g) [].

(** The mutable locals of [getContext]. *)
Record walk := {
  visitedNodes : list str;
  resultEntities : list EntityOut;
  resultRels : list RelOut;
  seenEdges : list str;
  nextFrontier : list str
}.

Definition out_of_node (n : EntityNode) : EntityOut :=
  {| e_name := name n; e_type := type n; e_summary := summary n |}.

Definition out_of_edge (e : RelationshipEdge) : RelOut :=
  {| r_source := source e; r_target := target e;
     r_relation := relation e; r_date := date e |}.

(** [if (node && resultEntities.length < MAX_GRAPH_ENTITIES) push] *)
Definition push_entity (g : EntityGraph) (n : str) (out : list EntityOut)
    : list EntityOut :=
  match map_get n (nodes g) with
  | Some node =>
      if (List.length out <? MAX_GRAPH_ENTITIES)%nat
      then out ++ [out_of_node node] else out
  | None => out
  end.

Definition push_rel (e : RelationshipEdge) (out : list RelOut) : list RelOut :=
  if (List.length out <? MAX_GRAPH_RELATIONSHIPS)%nat
  then out ++ [out_of_edge e] else out.

(** One seed of the first loop. *)
Definition visit_seed (g : EntityGraph) (w : walk) (n : str) : walk :=
  if set_has n (visitedNodes w) then w
  else
    {| visitedNodes := set_add n (visitedNodes w);
       resultEntities := push_entity g n (resultEntities w);
       resultRels := resultRels w;
       seenEdges := seenEdges w;
       nextFrontier := nextFrontier w |}.

(** One edge of the adjacency list of the frontier node [n]. *)
Definition visit_edge (g : EntityGraph) (n : str) (w : walk)
    (e : RelationshipEdge) : walk :=
  if set_has (edge_key e) (seenEdges w) then w
  else
    let rels := push_rel e (resultRels w) in
    let other := if str_eqb (source e) n then target e else source e in
    if set_has other (visitedNodes w) then
      {| visitedNodes := visitedNodes w;
         resultEntities := resultEntities w;
         resultRels := rels;
         seenEdges := set_add (edge_key e) (seenEdges w);
         nextFrontier := nextFrontier w |}
    else
      {| visitedNodes := set_add other (visitedNodes w);
         resultEntities := push_entity g other (resultEntities w);
         resultRels := rels;
         seenEdges := set_add (edge_key e) (seenEdges w);
         nextFrontier := nextFrontier w ++ [other] |}.

(** [const edges = this.adjacency.get(name) || []] and the loop on it. *)
Definition visit_node (g : EntityGraph) (w : walk) (n : str) : walk :=
  fold_left (visit_edge g n)
    (match map_get n (adjacency g) with Some l => l | None => [] end) w.

(** One hop: [nextFrontier] starts empty and the frontier is walked. *)
Definition hop (g : EntityGraph) (frontier : list str) (w : walk) : walk :=
  fold_left (visit_node g) frontier
    {| visitedNodes := visitedNodes w;
       resultEntities := resultEntities w;
       resultRels := resultRels w;
       seenEdges := seenEdges w;
       nextFrontier := [] |}.

(** [for (hop = 0; hop < maxHops && frontier.length > 0; hop++)] *)
Fixpoint hops (maxHops : nat) (g : EntityGraph) (frontier : list str)
    (w : walk) : walk :=
  match maxHops with
  | O => w
  | S h =>
      match frontier with
      | [] => w
      | _ :: _ => let w' := hop g frontier w in hops h g (nextFrontier w') w'
      end
  end.

Definition seed_layer (g : EntityGraph) (entityNames : list str) : walk :=
  fold_left (visit_seed g) entityNames
    {| visitedNodes := []; resultEntities := []; resultRels := [];
       seenEdges := []; nextFrontier := [] |}.

Definition getContext (g : EntityGraph) (entityNames : list str)
    (maxHops : nat) : GraphSearchResult :=
  let w := hops maxHops g entityNames (seed_layer g entityNames) in
  {| entities := resultEntities w; relationships := resultRels w |}.

Definition nodeCount (g : EntityGraph) : nat := List.length (nodes g).
Definition edgeCount (g : EntityGraph) : nat := List.length (edgeSet g).

Record SerializedEntityNode := {
  sn_name : str;
  sn_type : str;
  sn_summary : str;
  sn_sessionIds : list str   (* string[] *)
}.

Record SerializedGraph := {
  sg_nodes : list SerializedEntityNode;
  sg_edges : list RelationshipEdge
}.

Definition save_node (n : EntityNode) : SerializedEntityNode :=
  {| sn_name := name n; sn_type := type n; sn_summary := summary n;
     sn_sessionIds := sessionIds n |}.

(** The edge loop of [save]: the adjacency lists in map order, each edge
    kept the first time its key is seen. *)
Definition save_edge (acc : list str * list RelationshipEdge)
    (e : RelationshipEdge) : list str * list RelationshipEdge :=
  let (seen, edges) := acc in
  if set_has (edge_key e) seen then acc
  else (set_add (edge_key e) seen, edges ++ [e]).

Definition save (g : EntityGraph) : SerializedGraph :=
  {| sg_nodes := map (fun kv => save_node (snd kv)) (nodes g);
     sg_edges :=
       snd (fold_left (fun acc kv => fold_left save_edge (snd kv) acc)
              (adjacency g) ([], [])) |}.

(** [new Set(array)] *)
Definition set_of_list (l : list str) : list str :=
  fold_left (fun s x => set_add x s) l [].

Definition load_node (g : EntityGraph) (n : SerializedEntityNode)
    : EntityGraph :=
  {| nodes :=
       map_set (sn_name n)
         {| name := sn_name n; type := sn_type n; summary := sn_summary n;
            sessionIds := set_of_list (sn_sessionIds n) |}
         (nodes g);
     edgeSet := edgeSet g;
     adjacency := adjacency g;
     nameIndex := index_name (sn_name n) (nameIndex g) |}.

(** [load] clears the graph first, so it does not depend on the state
    it is called on. *)
Definition load (data : SerializedGraph) : EntityGraph :=
  fold_left addRelationship (sg_edges data)
    (fold_left load_node (sg_nodes data) empty).

Definition clear (g : EntityGraph) : EntityGraph := empty.

End Graph.

(* ================================================================== *)
(** ** Chunks and search results ([search.ts]) *)

Module SearchTypes.
Import JS.

(** JavaScript numbers that carry scores are modelled as rationals:
    the arithmetic of the sources is followed exactly, without the
    rounding of floating point. *)
Definition num := Q.

(** Modelled from the spec: the [Chunk] and [SearchResult] interfaces of
    [search.ts], which is not among the sources; the fields are the
    ones of the data model (section 3) and the ones [pg.ts] and the
    provider read and write. *)
Record Chunk := {
  id : str;
  content : str;
  sessionId : str;
  chunkIndex : Z;
  embedding : list num;
  date : option str;
  eventDate : option str;
  metadata : option str   (* opaque key/value map, kept as its JSON text *)
}.

(** Modelled from the spec: the [SearchResult] interface of [search.ts]
    (not among the sources), with the fields of the result shape in
    section 6 that [pg.ts] and [reranker.ts] fill. *)
Record SearchResult := {
  r_content : str;
  score : num;
  vectorScore : num;
  bm25Score : num;
  rerankScore : option num;
  r_sessionId : str;
  r_chunkIndex : Z;
  r_date : option str;
  r_eventDate : option str;
  r_metadata : option str
}.

(** [x || null], [x || undefined] on an optional string: the empty
    string is falsy. *)
Definition or_null (x : option str) : option str :=
  match x with
  | Some s => if truthy s then Some s else None
  | None => None
  end.

(** [results.sort((a, b) => b.score - a.score)]: [Array.prototype.sort]
    is stable; an element passes only the strictly greater ones. *)
Section SortDesc.
Variables (A : Type) (key : A -> num).

Fixpoint insert_desc (x : A) (l : list A) : list A :=
  match l with
  | [] => [x]
  | y :: l' =>
      if Qlt_le_dec (key x) (key y) then y :: insert_desc x l' else x :: l
  end.

Definition sort_desc (l : list A) : list A := fold_right insert_desc [] l.

(** The same with the smallest key first (SQL [ORDER BY key]). *)
Fixpoint insert_asc (x : A) (l : list A) : list A :=
  match l with
  | [] => [x]
  | y :: l' =>
      if Qlt_le_dec (key y) (key x) then y :: insert_asc x l' else x :: l
  end.

Definition sort_asc (l : list A) : list A := fold_right insert_asc [] l.
End SortDesc.

End SearchTypes.

(* ================================================================== *)
(** ** The relational store ([pg.ts]) *)

Module Pg.
Import JS SearchTypes.
Local Open Scope Q_scope.

Definition VECTOR_WEIGHT : num := 7 # 10.
Definition BM25_WEIGHT : num := 3 # 10.

Record ChunkRow := {
  c_id : str;                 (* PRIMARY KEY *)
  c_container_tag : str;
  c_content : str;
  c_session_id : str;
  c_chunk_index : Z;
  c_embedding : list num;
  c_date : option str;
  c_event_date : option str;
  c_metadata : option str
}.

Record EntityRow := {
  n_container_tag : str;      (* PRIMARY KEY (container_tag, name) *)
  n_name : str;
  n_type : str;
  n_summary : str;
  n_session_ids : list str
}.

Record RelationshipRow := {
  l_container_tag : str;      (* PRIMARY KEY (container_tag, source, relation, target) *)
  l_source : str;
  l_target : str;
  l_relation : str;
  l_date : option str;
  l_session_id : str
}.

Record Db := {
  rag_chunks : list ChunkRow;
  rag_entities : list EntityRow;
  rag_relationships : list RelationshipRow
}.

Definition empty : Db :=
  {| rag_chunks := []; rag_entities := []; rag_relationships := [] |}.

(** [INSERT ... ON CONFLICT (id) DO UPDATE SET ...] *)
Fixpoint upsert_chunk (row : ChunkRow) (tbl : list ChunkRow) : list ChunkRow :=
  match tbl with
  | [] => [row]
  | r :: tbl' =>
      if str_eqb (c_id r) (c_id row)
      then {| c_id := c_id r;
              c_container_tag := c_container_tag r;
              c_content := c_content row;
              c_session_id := c_session_id row;
              c_chunk_index := c_chunk_index row;
              c_embedding := c_embedding row;
              c_date := c_date row;
              c_event_date := c_event_date row;
              c_metadata := c_metadata row |} :: tbl'
      else r :: upsert_chunk row tbl'
  end.

Definition row_of_chunk (containerTag : str) (c : Chunk) : ChunkRow :=
  {| c_id := id c;
     c_container_tag := containerTag;
     c_content := content c;
     c_session_id := sessionId c;
     c_chunk_index := chunkIndex c;
     c_embedding := embedding c;
     c_date := or_null (date c);
     c_event_date := or_null (eventDate c);
     c_metadata := metadata c |}.

Definition addChunks (db : Db) (containerTag : str) (chunks : list Chunk) : Db :=
  {| rag_chunks :=
       fold_left (fun tbl c => upsert_chunk (row_of_chunk containerTag c) tbl)
         chunks (rag_chunks db);
     rag_entities := rag_entities db;
     rag_relationships := rag_relationships db |}.

(** A row of the query of [search]: the selected columns, the vector
    score and the joined lexical score. *)
Record ScoredRow := {
  s_row : ChunkRow;
  vector_score : num;
  bm25_score : num
}.

Section Search.
(** The operators of the database, which the store only calls:
    pgvector's cosine distance [<=>], and the full-text match [@@] and
    rank [ts_rank] of a content against [plainto_tsquery] of the
    query text. *)
Variable cosine_distance : list num -> list num -> num.
Variable ts_match : str -> str -> bool.
Variable ts_rank : str -> str -> num.

Definition in_container (containerTag : str) (r : ChunkRow) : bool :=
  str_eqb (c_container_tag r) containerTag.

(** [vector_results]: the [limit] rows of the container nearest to the
    query embedding. *)
Definition vector_results (db : Db) (containerTag : str)
    (queryEmbedding : list num) (limit : nat) : list ChunkRow :=
  firstn limit
    (sort_asc (fun r => cosine_distance (c_embedding r) queryEmbedding)
       (filter (in_container containerTag) (rag_chunks db))).

(** [bm25_results]: the rows of the container that match the query. *)
Definition bm25_results (db : Db) (containerTag query : str) : list ChunkRow :=
  filter (fun r => in_container containerTag r && ts_match (c_content r) query)
    (rag_chunks db).

(** [COALESCE(b.bm25_score, 0)] of the left join on [id]. *)
Definition joined_bm25 (bm : list ChunkRow) (query : str) (v : ChunkRow) : num :=
  match find (fun b => str_eqb (c_id b) (c_id v)) bm with
  | Some b => ts_rank (c_content b) query
  | None => 0
  end.

Definition query_rows (db : Db) (containerTag : str)
    (queryEmbedding : list num) (query : str) (limit : nat) : list ScoredRow :=
  map (fun v =>
         {| s_row := v;
            vector_score := 1 - cosine_distance (c_embedding v) queryEmbedding;
            bm25_score := joined_bm25 (bm25_results db containerTag query) query v |})
    (vector_results db containerTag queryEmbedding limit).

(** [let maxBm25 = 0; for (row of rows) if (s > maxBm25) maxBm25 = s] *)
Definition max_bm25 (rows : list ScoredRow) : num :=
  fold_left (fun m row => if Qlt_le_dec m (bm25_score row) then bm25_score row else m)
    rows 0.

Definition normalized (maxBm25 rawBm25 : num) : num :=
  if Qlt_le_dec 0 maxBm25 then rawBm25 / maxBm25 else 0.

Definition fuse (maxBm25 : num) (row : ScoredRow) : SearchResult :=
  let vs := vector_score row in
  let nb := normalized maxBm25 (bm25_score row) in
  {| r_content := c_content (s_row row);
     score := VECTOR_WEIGHT * vs + BM25_WEIGHT * nb;
     vectorScore := vs;
     bm25Score := nb;
     rerankScore := None;
     r_sessionId := c_session_id (s_row row);
     r_chunkIndex := c_chunk_index (s_row row);
     r_date := or_null (c_date (s_row row));
     r_eventDate := or_null (c_event_date (s_row row));
     r_metadata := c_metadata (s_row row) |}.

(** The JavaScript part of [search], on the rows of the query. *)
Definition rank_rows (rows : list ScoredRow) : list SearchResult :=
  match rows with
  | [] => []
  | _ :: _ => sort_desc score (map (fuse (max_bm25 rows)) rows)
  end.

Definition search (db : Db) (containerTag : str) (queryEmbedding : list num)
    (query : str) (limit : nat) : list SearchResult :=
  rank_rows (query_rows db containerTag queryEmbedding query limit).
End Search.

Definition hasData (db : Db) (containerTag : str) : bool :=
  existsb (fun r => str_eqb (c_container_tag r) containerTag) (rag_chunks db).

Definition getChunkCount (db : Db) (containerTag : str) : nat :=
  List.length (filter (fun r => str_eqb (c_container_tag r) containerTag)
                 (rag_chunks db)).

(** [INSERT ... ON CONFLICT (container_tag, name) DO UPDATE SET
    summary = SUBSTRING(old || ' ' || new FROM 1 FOR 500),
    session_ids = array_cat(old, new)] *)
Fixpoint upsert_entity (row : EntityRow) (tbl : list EntityRow) : list EntityRow :=
  match tbl with
  | [] => [row]
  | r :: tbl' =>
      if str_eqb (n_container_tag r) (n_container_tag row)
         && str_eqb (n_name r) (n_name row)
      then {| n_container_tag := n_container_tag r;
              n_name := n_name r;
              n_type := n_type r;
              n_summary := firstn 500 (n_summary r ++ [SPACE] ++ n_summary row);
              n_session_ids := n_session_ids r ++ n_session_ids row |} :: tbl'
      else r :: upsert_entity row tbl'
  end.

Definition addEntity (db : Db) (containerTag name_ type_ summary_ sessionId_ : str)
    : Db :=
  let canonical := trim name_ in
  if negb (truthy canonical) then db
  else
    {| rag_chunks := rag_chunks db;
       rag_entities :=
         upsert_entity
           {| n_container_tag := containerTag;
              n_name := canonical;
              n_type := toLowerCase type_;
              n_summary := summary_;
              n_session_ids := [sessionId_] |}
           (rag_entities db);
       rag_relationships := rag_relationships db |}.

(** [INSERT ... ON CONFLICT DO NOTHING] *)
Definition same_relationship (a b : RelationshipRow) : bool :=
  str_eqb (l_container_tag a) (l_container_tag b)
  && str_eqb (l_source a) (l_source b)
  && str_eqb (l_relation a) (l_relation b)
  && str_eqb (l_target a) (l_target b).

Definition addRelationship (db : Db) (containerTag : str)
    (e : Graph.RelationshipEdge) : Db :=
  let row := {| l_container_tag := containerTag;
                l_source := Graph.source e;
                l_target := Graph.target e;
                l_relation := Graph.relation e;
                l_date := or_null (Graph.date e);
                l_session_id := Graph.sessionId e |} in
  if existsb (same_relationship row) (rag_relationships db) then db
  else {| rag_chunks := rag_chunks db;
          rag_entities := rag_entities db;
          rag_relationships := rag_relationships db ++ [row] |}.

Definition getNodeCount (db : Db) (containerTag : str) : nat :=
  List.length (filter (fun r => str_eqb (n_container_tag r) containerTag)
                 (rag_entities db)).

Definition getEdgeCount (db : Db) (containerTag : str) : nat :=
  List.length (filter (fun r => str_eqb (l_container_tag r) containerTag)
                 (rag_relationships db)).

(** The three [DELETE ... WHERE container_tag = $1]. *)
Definition clear (db : Db) (containerTag : str) : Db :=
  {| rag_chunks :=
       filter (fun r => negb (str_eqb (c_container_tag r) containerTag))
         (rag_chunks db);
     rag_entities :=
       filter (fun r => negb (str_eqb (n_container_tag r) containerTag))
         (rag_entities db);
     rag_relationships :=
       filter (fun r => negb (str_eqb (l_container_tag r) containerTag))
         (rag_relationships db) |}.

(** [[^a-z0-9\s]]: what [findEntitiesInQuery] turns into a space. *)
Definition is_lower_alnum (c : N) : bool :=
  ((97 <=? c) && (c <=? 122) || (48 <=? c) && (c <=? 57))%N.

(** [query.toLowerCase().replace(/[^a-z0-9\s]/g, " ").split(/\s+/)
    .filter((w) => w.length > 2)] *)
Definition query_words (query : str) : list str :=
  filter (fun w => (2 <? length w)%Z)
    (split_ws
       (map (fun c => if is_lower_alnum c || is_ws c then c else SPACE)
          (toLowerCase query))).

(** [lower(name) LIKE '%w%'] for one of the words: a word holds letters
    and digits only, so the pattern has no wildcard but the two [%]. *)
Definition name_like (words : list str) (r : EntityRow) : bool :=
  existsb (fun w => includes (toLowerCase (n_name r)) w) words.

(** [SELECT DISTINCT name FROM rag_entities WHERE container_tag = $1 AND
    (...)]; SQL leaves the order of the rows open, the order of the
    table is taken. *)
Definition findEntitiesInQuery (db : Db) (containerTag query : str) : list str :=
  match query_words query with
  | [] => []
  | words =>
      Graph.set_of_list
        (map n_name
           (filter (fun r => str_eqb (n_container_tag r) containerTag
                             && name_like words r)
              (rag_entities db)))
  end.

Definition MAX_GRAPH_ENTITIES : nat := 10.
Definition MAX_GRAPH_RELATIONSHIPS : nat := 20.

(** [SELECT name, type, summary FROM rag_entities WHERE container_tag =
    $1 AND name = ANY($2)], in the order of the table. *)
Definition entities_named (db : Db) (containerTag : str) (names : list str)
    : list EntityRow :=
  filter (fun r => str_eqb (n_container_tag r) containerTag
                   && set_has (n_name r) names)
    (rag_entities db).

(** [SELECT source, target, relation, date FROM rag_relationships WHERE
    container_tag = $1 AND (source = ANY($2) OR target = ANY($2))], in
    the order of the table. *)
Definition edges_touching (db : Db) (containerTag : str) (frontier : list str)
    : list RelationshipRow :=
  filter (fun r => str_eqb (l_container_tag r) containerTag
                   && (set_has (l_source r) frontier
                       || set_has (l_target r) frontier))
    (rag_relationships db).

Definition out_of_row (r : EntityRow) : Graph.EntityOut :=
  {| Graph.e_name := n_name r; Graph.e_type := n_type r;
     Graph.e_summary := n_summary r |}.

(** [if (resultEntities.length < MAX_GRAPH_ENTITIES) push] *)
Definition push_row (out : list Graph.EntityOut) (r : EntityRow)
    : list Graph.EntityOut :=
  if (List.length out <? MAX_GRAPH_ENTITIES)%nat
  then out ++ [out_of_row r] else out.

Definition rel_of_row (r : RelationshipRow) : Graph.RelOut :=
  {| Graph.r_source := l_source r; Graph.r_target := l_target r;
     Graph.r_relation := l_relation r; Graph.r_date := or_null (l_date r) |}.

(** One row of the seed query. *)
Definition seed_row (w : Graph.walk) (r : EntityRow) : Graph.walk :=
  {| Graph.visitedNodes := set_add (n_name r) (Graph.visitedNodes w);
     Graph.resultEntities := push_row (Graph.resultEntities w) r;
     Graph.resultRels := Graph.resultRels w;
     Graph.seenEdges := Graph.seenEdges w;
     Graph.nextFrontier := Graph.nextFrontier w |}.

(** [if (!visitedNodes.has(other)) { add; nextFrontier.push(other) }] *)
Definition visit_other (w : Graph.walk) (other : str) : Graph.walk :=
  if set_has other (Graph.visitedNodes w) then w
  else
    {| Graph.visitedNodes := set_add other (Graph.visitedNodes w);
       Graph.resultEntities := Graph.resultEntities w;
       Graph.resultRels := Graph.resultRels w;
       Graph.seenEdges := Graph.seenEdges w;
       Graph.nextFrontier := Graph.nextFrontier w ++ [other] |}.

(** One row of the edge query of a hop. *)
Definition visit_edge (w : Graph.walk) (e : RelationshipRow) : Graph.walk :=
  let edgeKey := Graph.key_of (l_source e) (l_relation e) (l_target e) in
  if set_has edgeKey (Graph.seenEdges w) then w
  else
    fold_left visit_other [l_source e; l_target e]
      {| Graph.visitedNodes := Graph.visitedNodes w;
         Graph.resultEntities := Graph.resultEntities w;
         Graph.resultRels :=
           if (List.length (Graph.resultRels w) <? MAX_GRAPH_RELATIONSHIPS)%nat
           then Graph.resultRels w ++ [rel_of_row e] else Graph.resultRels w;
         Graph.seenEdges := set_add edgeKey (Graph.seenEdges w);
         Graph.nextFrontier := Graph.nextFrontier w |}.

(** One hop: the edges of the frontier, then the rows of the nodes they
    discovered. *)
Definition hop (db : Db) (containerTag : str) (frontier : list str)
    (w : Graph.walk) : Graph.walk :=
  let w1 :=
    fold_left visit_edge (edges_touching db containerTag frontier)
      {| Graph.visitedNodes := Graph.visitedNodes w;
         Graph.resultEntities := Graph.resultEntities w;
         Graph.resultRels := Graph.resultRels w;
         Graph.seenEdges := Graph.seenEdges w;
         Graph.nextFrontier := [] |} in
  let newNodes :=
    match Graph.nextFrontier w1 with
    | [] => []
    | _ :: _ => entities_named db containerTag (Graph.nextFrontier w1)
    end in
  {| Graph.visitedNodes := Graph.visitedNodes w1;
     Graph.resultEntities := fold_left push_row newNodes (Graph.resultEntities w1);
     Graph.resultRels := Graph.resultRels w1;
     Graph.seenEdges := Graph.seenEdges w1;
     Graph.nextFrontier := Graph.nextFrontier w1 |}.

(** [for (hop = 0; hop < maxHops && frontier.length > 0; hop++)] *)
Fixpoint hops (maxHops : nat) (db : Db) (containerTag : str)
    (frontier : list str) (w : Graph.walk) : Graph.walk :=
  match maxHops with
  | O => w
  | S h =>
      match frontier with
      | [] => w
      | _ :: _ =>
          let w' := hop db containerTag frontier w in
          hops h db containerTag (Graph.nextFrontier w') w'
      end
  end.

Definition getContext (db : Db) (containerTag : str) (entityNames : list str)
    (maxHops : nat) : Graph.GraphSearchResult :=
  let seeds :=
    match entityNames with
    | [] => []
    | _ :: _ => entities_named db containerTag entityNames
    end in
  let w0 :=
    fold_left seed_row seeds
      {| Graph.visitedNodes := []; Graph.resultEntities := [];
         Graph.resultRels := []; Graph.seenEdges := [];
         Graph.nextFrontier := [] |} in
  let frontier := filter (fun n => set_has n (Graph.visitedNodes w0)) entityNames in
  let w := hops maxHops db containerTag frontier w0 in
  {| Graph.entities := Graph.resultEntities w;
     Graph.relationships := Graph.resultRels w |}.

End Pg.

(* ================================================================== *)
(** ** The extraction parser ([prompts/extraction.ts]) *)

Module Extraction.
Import JS.

Record Entity := { name : str; type : str; summary : str }.

Record Relationship := {
  source : str; relation : str; target : str; date : option str
}.

Record ParsedExtraction := {
  memoriesText : str;
  entities : list Entity;
  relationships : list Relationship;
  eventDates : list (nat * str)   (* Map<number, string> *)
}.

(** The first match of [/open([\s\S]*?)close/]: the first [open], then
    the text up to the first [close] after it.  The result is the offset
    of the match, the captured group and the text after the match. *)
Definition tagged (open close s : str) : option (nat * str * str) :=
  match indexOf s open with
  | None => None
  | Some i =>
      let rest := skipn (i + List.length open) s in
      match indexOf rest close with
      | None => None
      | Some j => Some (i, firstn j rest, skipn (j + List.length close) rest)
      end
  end.

(** [s.match(/open([\s\S]*?)close/)[1]] *)
Definition capture (open close s : str) : option str :=
  match tagged open close s with
  | Some (_, body, _) => Some body
  | None => None
  end.

(** [s.replace(/open[\s\S]*?close/g, "")]; every match removes at least
    the two tags, so [fuel] = the length of [s] is enough. *)
Fixpoint remove_tagged (fuel : nat) (open close s : str) : str :=
  match fuel with
  | O => s
  | S fuel' =>
      match tagged open close s with
      | Some (i, _, after) => firstn i s ++ remove_tagged fuel' open close after
      | None => s
      end
  end.

Definition remove_all (open close s : str) : str :=
  remove_tagged (List.length s) open close s.

(** [line.split("|").map((p) => p.trim())] *)
Definition fields (line : str) : list str := map trim (split PIPE line).

(** The guard of both line loops:
    [if (!line.trim() || !line.includes("|")) continue]. *)
Definition skipped (line : str) : bool :=
  negb (truthy (trim line)) || negb (includes line [PIPE]).

Definition entity_of_line (line : str) : option Entity :=
  if skipped line then None
  else match fields line with
       | p0 :: p1 :: p2 :: rest =>
           if truthy p0 && truthy p1 && truthy p2
           then Some {| name := p0; type := p1;
                        summary := join [PIPE] (p2 :: rest) |}
           else None
       | _ => None
       end.

Definition relationship_of_line (line : str) : option Relationship :=
  if skipped line then None
  else match fields line with
       | p0 :: p1 :: p2 :: rest =>
           if truthy p0 && truthy p1 && truthy p2
           then Some {| source := p0; relation := p1; target := p2;
                        date := match rest with
                                | p3 :: _ => if truthy p3 then Some p3 else None
                                | [] => None
                                end |}
           else None
       | _ => None
       end.

(** The lines of a tagged section: [match[1].trim().split("\n")]. *)
Definition section_lines (open close rawText : str) : list str :=
  match capture open close rawText with
  | Some body => split NL (trim body)
  | None => []
  end.

Fixpoint keep_some {A B : Type} (f : A -> option B) (l : list A) : list B :=
  match l with
  | [] => []
  | a :: l' =>
      match f a with
      | Some b => b :: keep_some f l'
      | None => keep_some f l'
      end
  end.

Definition is_digit (c : N) : bool := ((48 <=? c) && (c <=? 57))%N.

(** [/^\[(\d{4}-\d{2}-\d{2})\]/] *)
Definition date_prefix (line : str) : option str :=
  match line with
  | 91%N :: y1 :: y2 :: y3 :: y4 :: 45%N :: m1 :: m2 :: 45%N :: d1 :: d2
      :: 93%N :: _ =>
      if forallb is_digit [y1; y2; y3; y4; m1; m2; d1; d2]
      then Some [y1; y2; y3; y4; 45%N; m1; m2; 45%N; d1; d2]
      else None
  | _ => None
  end.

Fixpoint event_dates (i : nat) (lines : list str) : list (nat * str) :=
  match lines with
  | [] => []
  | l :: lines' =>
      match date_prefix l with
      | Some d => (i, d) :: event_dates (S i) lines'
      | None => event_dates (S i) lines'
      end
  end.

Definition MEMORIES : str := lit "<memories>".
Definition MEMORIES_END : str := lit "</memories>".
Definition ENTITIES : str := lit "<entities>".
Definition ENTITIES_END : str := lit "</entities>".
Definition RELATIONSHIPS : str := lit "<relationships>".
Definition RELATIONSHIPS_END : str := lit "</relationships>".

Definition parseExtractionOutput (rawText : str) : ParsedExtraction :=
  let memoriesText :=
    match capture MEMORIES MEMORIES_END rawText with
    | Some body => trim body
    | None =>
        trim (remove_all RELATIONSHIPS RELATIONSHIPS_END
                (remove_all ENTITIES ENTITIES_END rawText))
    end in
  {| memoriesText := memoriesText;
     entities :=
       keep_some entity_of_line (section_lines ENTITIES ENTITIES_END rawText);
     relationships :=
       keep_some relationship_of_line
         (section_lines RELATIONSHIPS RELATIONSHIPS_END rawText);
     eventDates :=
       event_dates 0
         (filter (fun l => truthy (trim l)) (split NL memoriesText)) |}.

End Extraction.

(* ================================================================== *)
(** ** The reranker driver ([reranker.ts]) *)

Module Reranker.
Import JS SearchTypes.
Local Open Scope Q_scope.

Inductive QueryType :=
| Temporal | KnowledgeUpdate | MultiHop | Preference
| AssistantRecall | Factual | General.

(** The string [detectQueryType] returns for each class. *)
Definition queryTypeName (t : QueryType) : str :=
  match t with
  | Temporal => lit "temporal"
  | KnowledgeUpdate => lit "knowledge-update"
  | MultiHop => lit "multi-hop"
  | Preference => lit "preference"
  | AssistantRecall => lit "assistant-recall"
  | Factual => lit "factual"
  | General => lit "general"
  end.

Definition TEMPORAL : Regex.re :=
  Regex.compile "\b(when|what (date|time|day|month|year)|how long ago|how recently|last time|first time|before|after)\b".

Definition KNOWLEDGE_UPDATE : Regex.re :=
  Regex.compile "\b(change|update|move|switch|new|current|now|still|anymore|used to|latest)\b".

Definition MULTI_HOP_OF : Regex.re :=
  Regex.compile "\bwhat .+ (of|for) .+ (the|my|a) .+\b".

Definition MULTI_HOP_POSSESSIVE : Regex.re :=
  Regex.compile "\b\w+'s \w+'s\b".

Definition PREFERENCE : Regex.re :=
  Regex.compile "\b(favorite|prefer|like|enjoy|love|hate|dislike|opinion)\b".

Definition ASSISTANT_RECALL : Regex.re :=
  Regex.compile "\b(you (said|told|recommended|suggested|mentioned)|did you|your (advice|recommendation|suggestion))\b".

Definition FACTUAL : Regex.re :=
  Regex.compile "\b(who|what|where|which|name|tell me about)\b".

Definition detectQueryType (query : str) : QueryType :=
  let q := toLowerCase query in
  let test := Regex.test Regex.exact q in
  if test TEMPORAL then Temporal
  else if test KNOWLEDGE_UPDATE then KnowledgeUpdate
  else if test MULTI_HOP_OF || test MULTI_HOP_POSSESSIVE then MultiHop
  else if test PREFERENCE then Preference
  else if test ASSISTANT_RECALL then AssistantRecall
  else if test FACTUAL then Factual
  else General.

Definition TYPE_INSTRUCTIONS (t : QueryType) : str :=
  match t with
  | Temporal => lit "TEMPORAL question about when something happened. Prioritize passages with specific dates, times, or temporal references. Date metadata in brackets is the event date."
  | KnowledgeUpdate => lit "KNOWLEDGE-UPDATE question about information that may have changed over time. Prioritize passages with the most recent dates, as they reflect the current state."
  | MultiHop => lit "MULTI-HOP question requiring info from multiple sources or relationship chains. Prioritize passages containing entity names and relationships from the query."
  | Preference => lit "PREFERENCE question about likes, dislikes, or opinions. Prioritize passages with explicit preference statements."
  | AssistantRecall => lit "Question about what the ASSISTANT said or recommended. Prioritize passages containing assistant/AI responses rather than user statements."
  | Factual => lit "FACTUAL question about a specific person, place, thing, or event. Prioritize passages directly mentioning the queried entities."
  | General => lit "Score based on how directly the passage answers or provides evidence for the query."
  end.

(** [`${i}`] for an array index. *)
Definition decimal (i : nat) : str :=
  lit (DecimalString.NilZero.string_of_uint (Nat.to_uint i)).

(** [`[${i}]${dateInfo} ${r.content.substring(0, 1000)}`] *)
Definition candidate (i : nat) (r : SearchResult) : str :=
  let dateInfo :=
    match or_null (r_date r) with
    | Some d => lit " [Date: " ++ d ++ lit "]"
    | None => []
    end in
  lit "[" ++ decimal i ++ lit "]" ++ dateInfo ++ lit " "
    ++ substring0 (r_content r) 1000.

Fixpoint mapi_from {A B : Type} (f : nat -> A -> B) (i : nat) (l : list A)
    : list B :=
  match l with
  | [] => []
  | a :: l' => f i a :: mapi_from f (S i) l'
  end.

(** [array.map((x, i) => f(i, x))] *)
Definition mapi {A B : Type} (f : nat -> A -> B) (l : list A) : list B :=
  mapi_from f 0 l.

Definition QUOTE : N := 34.

Definition buildPrompt (query : str) (queryType : QueryType)
    (results : list SearchResult) : str :=
  lit "You are a search result reranker. Score each passage's relevance to the query from 0 to 10."
    ++ [NL; NL]
    ++ lit "Query: " ++ query ++ [NL]
    ++ lit "Query Type: " ++ queryTypeName queryType ++ [NL]
    ++ TYPE_INSTRUCTIONS queryType ++ [NL; NL]
    ++ lit "Candidates:" ++ [NL]
    ++ join [NL; NL] (mapi candidate results) ++ [NL; NL]
    ++ lit "10 = directly contains the answer, 0 = irrelevant." ++ [NL]
    ++ lit "Return ALL candidates as a JSON array sorted by score descending:"
    ++ [NL]
    ++ lit "[{" ++ [QUOTE] ++ lit "index" ++ [QUOTE] ++ lit ": 0, "
    ++ [QUOTE] ++ lit "score" ++ [QUOTE] ++ lit ": 8}, {"
    ++ [QUOTE] ++ lit "index" ++ [QUOTE] ++ lit ": 3, "
    ++ [QUOTE] ++ lit "score" ++ [QUOTE] ++ lit ": 7}, ...]".

(** What one call of the reranker model does: it throws (transport
    error), or it returns a text. *)
Inductive reply :=
| Throws
| Text (text : str).

(** [text.match(/\[[\s\S]*\]/)]: from the first [[] to the last []]
    after it. *)
Definition json_block (text : str) : option str :=
  match indexOf text [91%N] with
  | None => None
  | Some i =>
      let rest := skipn i text in
      let j := lastIndexOf rest [93%N] (JS.length rest) in
      if (j <? 0)%Z then None else Some (firstn (S (Z.to_nat j)) rest)
  end.

(** One [{index, score}] pair of the parsed array. *)
Record RerankScore := { index : Z; rscore : num }.

(** [scoreMap.get(i) ?? 0] after [for (s of scores) scoreMap.set(s.index,
    s.score)]: the last pair with the index wins. *)
Definition score_of (scores : list RerankScore) (i : nat) : num :=
  match find (fun s => (index s =? Z.of_nat i)%Z) (rev scores) with
  | Some s => rscore s
  | None => 0
  end.

Definition with_rerank (p : SearchResult * num) : SearchResult :=
  let (r, rerank) := p in
  {| r_content := r_content r;
     score := rerank / 10;
     vectorScore := vectorScore r;
     bm25Score := bm25Score r;
     rerankScore := Some rerank;
     r_sessionId := r_sessionId r;
     r_chunkIndex := r_chunkIndex r;
     r_date := r_date r;
     r_eventDate := r_eventDate r;
     r_metadata := r_metadata r |}.

(** The success path: attach the scores, sort by them, keep [topK]. *)
Definition reranked (scores : list RerankScore) (results : list SearchResult)
    (topK : Z) : list SearchResult :=
  map with_rerank
    (arr_slice (sort_desc snd (mapi (fun i r => (r, score_of scores i)) results))
       0 topK).

Inductive step :=
| Retry (delay_ms : Z)
| Return (out : list SearchResult).

Section Driver.
(** The reranker model, called with the prompt; the reply may differ
    from one attempt to the next. *)
Variable generateText : str -> nat -> reply.
(** [JSON.parse] of the matched block, read as [RerankScore[]]; [None]
    when parsing or reading the pairs throws. *)
Variable parseScores : str -> option (list RerankScore).

(** [if (attempt < 2) { await sleep(1000 * (attempt + 1)); continue }
    return results.slice(0, topK)] *)
Definition retry_or_fallback (results : list SearchResult) (topK : Z)
    (attempt : nat) : step :=
  if (attempt <? 2)%nat then Retry (1000 * (Z.of_nat attempt + 1))
  else Return (arr_slice results 0 topK).

(** The body of the retry loop: the [catch] handles both a throwing
    call and a throwing [JSON.parse]. *)
Definition attempt_body (prompt : str) (results : list SearchResult)
    (topK : Z) (attempt : nat) : step :=
  match generateText prompt attempt with
  | Throws => retry_or_fallback results topK attempt
  | Text text =>
      match json_block text with
      | None => retry_or_fallback results topK attempt
      | Some block =>
          match parseScores block with
          | None => retry_or_fallback results topK attempt
          | Some scores => Return (reranked scores results topK)
          end
      end
  end.

(** [for (let attempt = 0; attempt < 3; attempt++)], then the final
    [return results.slice(0, topK)]; the waits are collected. *)
Fixpoint attempts (left : nat) (attempt : nat) (prompt : str)
    (results : list SearchResult) (topK : Z) : list Z * list SearchResult :=
  match left with
  | O => ([], arr_slice results 0 topK)
  | S left' =>
      match attempt_body prompt results topK attempt with
      | Return out => ([], out)
      | Retry d =>
          let (ds, out) := attempts left' (S attempt) prompt results topK in
          (d :: ds, out)
      end
  end.

(** [rerankResults], with the waits it made. *)
Definition rerankResults_trace (query : str) (results : list SearchResult)
    (topK : Z) : list Z * list SearchResult :=
  if (JS.length results <=? topK)%Z then ([], results)
  else
    let queryType := detectQueryType query in
    attempts 3 0 (buildPrompt query queryType results) results topK.

Definition rerankResults (query : str) (results : list SearchResult) (topK : Z)
    : list SearchResult :=
  snd (rerankResults_trace query results topK).
End Driver.

End Reranker.

(* ================================================================== *)
(** ** The in-memory search engine ([search.ts]) *)

Module HybridSearch.
Import JS SearchTypes.
Local Open Scope Q_scope.

(** Modelled from the spec: the class [HybridSearchEngine] of
    [search.ts], which is not among the sources.  Section 4.6 gives its
    surface: [addChunks] upserts by [id]; [search] takes the [limit]
    chunks nearest by cosine similarity, gives each its lexical score
    (0 when the lexical query does not match it), divides the lexical
    scores by their maximum, fuses with weights 0.7 and 0.3 and sorts by
    descending score; [getChunkCount], [hasData], [clear], and a
    snapshot [save] and [load] that round-trip the chunks. *)
Record Engine := { containers : omap (list Chunk) }.

(** Modelled from the spec: a new engine holds no container
    ([search.ts] is not among the sources). *)
Definition empty : Engine := {| containers := [] |}.

(** Modelled from the spec: the chunks of a container, none for a tag
    never ingested (section 7, NotFound). *)
Definition chunks_of (e : Engine) (containerTag : str) : list Chunk :=
  match map_get containerTag (containers e) with
  | Some cs => cs
  | None => []
  end.

(** Modelled from the spec: [addChunks] of [search.ts] (not among the
    sources), "upsert by [id]": a chunk with a known id replaces the old
    content and embedding. *)
Fixpoint upsert (c : Chunk) (cs : list Chunk) : list Chunk :=
  match cs with
  | [] => [c]
  | c' :: cs' => if str_eqb (id c') (id c) then c :: cs' else c' :: upsert c cs'
  end.

Definition addChunks (e : Engine) (containerTag : str) (chunks : list Chunk)
    : Engine :=
  {| containers :=
       map_set containerTag
         (fold_left (fun cs c => upsert c cs) chunks (chunks_of e containerTag))
         (containers e) |}.

Section Search.
(** The two rankings the engine fuses: the cosine similarity of two
    embeddings, and the lexical (BM25-style) score of a content for a
    query text, 0 when the query does not match. *)
Variable cosine : list num -> list num -> num.
Variable lexical : str -> str -> num.

(** Modelled from the spec: [search] of [search.ts] (not among the
    sources), steps 1 to 5 of section 4.6; the normalisation, the fusion
    and the sort are the ones [pg.ts] has. *)
Definition scored (containerTag : str) (queryEmbedding : list num)
    (queryText : str) (c : Chunk) : Pg.ScoredRow :=
  {| Pg.s_row := Pg.row_of_chunk containerTag c;
     Pg.vector_score := cosine (embedding c) queryEmbedding;
     Pg.bm25_score := lexical (content c) queryText |}.

Definition search (e : Engine) (containerTag : str)
    (queryEmbedding : list num) (queryText : str) (limit : nat)
    : list SearchResult :=
  Pg.rank_rows
    (firstn limit
       (sort_desc Pg.vector_score
          (map (scored containerTag queryEmbedding queryText)
             (chunks_of e containerTag)))).
End Search.

(** Modelled from the spec: [getChunkCount], [hasData] and [clear] of
    [search.ts] (not among the sources), which "complete the surface":
    the number of chunks of the container, whether it has any, and their
    removal. *)
Definition getChunkCount (e : Engine) (containerTag : str) : nat :=
  List.length (chunks_of e containerTag).

Definition hasData (e : Engine) (containerTag : str) : bool :=
  match chunks_of e containerTag with [] => false | _ :: _ => true end.

Definition clear (e : Engine) (containerTag : str) : Engine :=
  {| containers := map_delete containerTag (containers e) |}.

(** Modelled from the spec: [save] and [load] of [search.ts] (not among
    the sources), which round-trip all chunk fields: the snapshot of a
    container ([None] when it holds nothing, as the provider tests the
    result before writing), and its restoration. *)
Definition save (e : Engine) (containerTag : str) : option (list Chunk) :=
  match chunks_of e containerTag with
  | [] => None
  | cs => Some cs
  end.

Definition load (e : Engine) (containerTag : str) (chunks : list Chunk)
    : Engine :=
  {| containers := map_set containerTag chunks (containers e) |}.

End HybridSearch.

(* ================================================================== *)
(** ** The provider ([index.ts]) *)

Module Provider.
Import JS SearchTypes.
Local Open Scope Q_scope.

Definition EMBEDDING_BATCH_SIZE : nat := 100.
Definition RERANK_OVERFETCH : Z := 40.

(** A session as the provider reads it: its id, [metadata.date] and the
    rest of the metadata (opaque, kept as text).  The messages are read
    by the extraction call only. *)
Record UnifiedSession := {
  sessionId : str;
  meta_date : option str;
  meta_rest : str
}.

(** The files of one container under [CACHE_DIR]: [search.json] and
    [graph.json], each present or not.  [JSON.stringify] followed by
    [JSON.parse] gives back the arrays, strings and numbers written, so
    the files hold the values themselves. *)
Record CacheDir := {
  search_json : option (list Chunk);
  graph_json : option Graph.SerializedGraph
}.

Record State := {
  openai : bool;                          (* set by [initialize] *)
  searchEngine : HybridSearch.Engine;
  graphs : omap Graph.EntityGraph;
  extractionCache : omap str;
  disk : omap CacheDir
}.

Definition new : State :=
  {| openai := false; searchEngine := HybridSearch.empty; graphs := [];
     extractionCache := []; disk := [] |}.

(** What a method call ends with: a value, or a thrown error. *)
Inductive outcome (A : Type) :=
| Ok (a : A)
| Error.
Arguments Ok {A} a.
Arguments Error {A}.

(** An item of the list [search] returns: a chunk result, or a
    pseudo-result for an entity or a relationship of the graph (its
    [score], [vectorScore] and [bm25Score] are 0, its [sessionId] is
    empty and its [chunkIndex] is -1). *)
Inductive result :=
| ChunkResult (r : SearchResult)
| EntityResult (e : Graph.EntityOut)
| RelationshipResult (r : Graph.RelOut).

(** The [content] field of an item. *)
Definition content_of (r : result) : str :=
  match r with
  | ChunkResult c => r_content c
  | EntityResult e => Graph.e_summary e
  | RelationshipResult l =>
      Graph.r_source l ++ lit " " ++ Graph.r_relation l ++ lit " "
        ++ Graph.r_target l
  end.

Definition initialize (st : State) (apiKey : str) : outcome State :=
  if truthy apiKey
  then Ok {| openai := true; searchEngine := searchEngine st;
             graphs := graphs st; extractionCache := extractionCache st;
             disk := disk st |}
  else Error.

(** [getGraph]: the graph of the container, created when absent. *)
Definition ensure_graph (gs : omap Graph.EntityGraph) (containerTag : str)
    : omap Graph.EntityGraph :=
  if map_has containerTag gs then gs else map_set containerTag Graph.empty gs.

Definition graph_of (gs : omap Graph.EntityGraph) (containerTag : str)
    : Graph.EntityGraph :=
  match map_get containerTag gs with
  | Some g => g
  | None => Graph.empty
  end.

Definition cache_of (d : omap CacheDir) (containerTag : str) : CacheDir :=
  match map_get containerTag d with
  | Some c => c
  | None => {| search_json := None; graph_json := None |}
  end.

(** [saveToCache] *)
Definition saveToCache (st : State) (containerTag : str) : State :=
  let dir := cache_of (disk st) containerTag in
  let dir :=
    match HybridSearch.save (searchEngine st) containerTag with
    | Some cs => {| search_json := Some cs; graph_json := graph_json dir |}
    | None => dir
    end in
  let dir :=
    match map_get containerTag (graphs st) with
    | Some g =>
        if (0 <? Graph.nodeCount g)%nat
        then {| search_json := search_json dir;
                graph_json := Some (Graph.save g) |}
        else dir
    | None => dir
    end in
  {| openai := openai st; searchEngine := searchEngine st;
     graphs := graphs st; extractionCache := extractionCache st;
     disk := map_set containerTag dir (disk st) |}.

(** [loadFromCache]: nothing happens without [search.json]. *)
Definition loadFromCache (st : State) (containerTag : str) : State :=
  match search_json (cache_of (disk st) containerTag) with
  | None => st
  | Some cs =>
      let engine := HybridSearch.load (searchEngine st) containerTag cs in
      let gs :=
        match graph_json (cache_of (disk st) containerTag) with
        | Some data => map_set containerTag (Graph.load data)
                         (ensure_graph (graphs st) containerTag)
        | None => graphs st
        end in
      {| openai := openai st; searchEngine := engine; graphs := gs;
         extractionCache := extractionCache st; disk := disk st |}
  end.

(** [for (attempt = 0; ; attempt++) try { return call() } catch
    { if (attempt >= 2) throw }]: three attempts. *)
Fixpoint with_retries {A : Type} (left attempt : nat) (call : nat -> option A)
    : option A :=
  match left with
  | O => None
  | S left' =>
      match call attempt with
      | Some a => Some a
      | None => with_retries left' (S attempt) call
      end
  end.

(** [isoDate !== "unknown" ? isoDate.split("T")[0] : "unknown"] *)
Definition date_of (s : UnifiedSession) : str :=
  match or_null (meta_date s) with
  | Some iso =>
      if str_eqb iso (lit "unknown") then lit "unknown"
      else match split 84%N iso with d :: _ => d | [] => [] end
  | None => lit "unknown"
  end.

(** A chunk before its embedding. *)
Record Pending := {
  p_text : str; p_sessionId : str; p_chunkIndex : nat;
  p_date : str; p_metadata : str
}.

(** [{ ...session.metadata, memoryDate: dateStr }], as text. *)
Definition with_memoryDate (meta dateStr : str) : str :=
  meta ++ lit " memoryDate=" ++ dateStr.

Definition chunk_of (containerTag : str) (p : Pending) (e : list num) : Chunk :=
  {| id := containerTag ++ lit "_" ++ p_sessionId p ++ lit "_"
           ++ Reranker.decimal (p_chunkIndex p);
     content := p_text p;
     SearchTypes.sessionId := p_sessionId p;
     chunkIndex := Z.of_nat (p_chunkIndex p);
     embedding := e;
     date := Some (p_date p);
     eventDate := None;
     metadata := Some (p_metadata p) |}.

(** [array.slice(i, i + n)] for [i = 0, n, 2n, ...]. *)
Fixpoint batches {A : Type} (fuel n : nat) (l : list A) : list (list A) :=
  match fuel, l with
  | _, [] => []
  | O, _ => [l]
  | S fuel', _ => firstn n l :: batches fuel' n (skipn n l)
  end.

Section Calls.
(** The collaborators: the extraction call for a session (its trimmed
    text, or [None] when it throws after its own retries), the two
    embedding calls and the reranker model (a reply per attempt), the
    reading of the reranker's JSON, and the two rankings of the search
    engine. *)
Variable extractMemories : UnifiedSession -> option str.
Variable embedMany : list str -> nat -> option (list (list num)).
Variable embed : str -> nat -> option (list num).
Variable generateText : str -> nat -> Reranker.reply.
Variable parseScores : str -> option (list Reranker.RerankScore).
Variable cosine : list num -> list num -> num.
Variable lexical : str -> str -> num.

(** [extractSession] for the sessions in order: the cache is read and
    filled; a failed extraction fails the whole batch. *)
Fixpoint extract_all (cache : omap str) (sessions : list UnifiedSession)
    : omap str * option (list str) :=
  match sessions with
  | [] => (cache, Some [])
  | s :: rest =>
      let one :=
        match map_get (sessionId s) cache with
        | Some text => (cache, Some text)
        | None =>
            match extractMemories s with
            | Some text => (map_set (sessionId s) text cache, Some text)
            | None => (cache, None)
            end
        end in
      match one with
      | (cache', Some text) =>
          match extract_all cache' rest with
          | (cache'', Some texts) => (cache'', Some (text :: texts))
          | (cache'', None) => (cache'', None)
          end
      | (cache', None) => (cache', None)
      end
  end.

(** The parse loop on one session: the graph grows, the memory text is
    chunked.  [None] when [chunkText] does not return within [fuel]
    iterations. *)
Definition digest (fuel : nat) (g : Graph.EntityGraph) (s : UnifiedSession)
    (rawExtraction : str) : option (Graph.EntityGraph * list Pending) :=
  let dateStr := date_of s in
  let parsed := Extraction.parseExtractionOutput rawExtraction in
  let g :=
    fold_left
      (fun g (e : Extraction.Entity) =>
         Graph.addEntity g (Extraction.name e) (Extraction.type e)
           (Extraction.summary e) (sessionId s))
      (Extraction.entities parsed) g in
  let g :=
    fold_left
      (fun g (r : Extraction.Relationship) =>
         Graph.addRelationship g
           {| Graph.source := Extraction.source r;
              Graph.target := Extraction.target r;
              Graph.relation := Extraction.relation r;
              Graph.date := Extraction.date r;
              Graph.sessionId := sessionId s |})
      (Extraction.relationships parsed) g in
  let content := lit "# Memories from " ++ dateStr ++ [NL; NL]
                 ++ Extraction.memoriesText parsed in
  match Chunker.chunkText fuel content Chunker.CHUNK_SIZE Chunker.CHUNK_OVERLAP with
  | None => None
  | Some textChunks =>
      Some (g,
            Reranker.mapi
              (fun i text =>
                 {| p_text := text; p_sessionId := sessionId s;
                    p_chunkIndex := i; p_date := dateStr;
                    p_metadata := with_memoryDate (meta_rest s) dateStr |})
              textChunks)
  end.

Fixpoint digest_all (fuel : nat) (g : Graph.EntityGraph)
    (work : list (UnifiedSession * str))
    : option (Graph.EntityGraph * list Pending) :=
  match work with
  | [] => Some (g, [])
  | (s, raw) :: rest =>
      match digest fuel g s raw with
      | None => None
      | Some (g', ps) =>
          match digest_all fuel g' rest with
          | None => None
          | Some (g'', ps') => Some (g'', ps ++ ps')
          end
      end
  end.

(** The embedding loop: a batch that fails three times fails the
    ingest. *)
Fixpoint embed_batches (containerTag : str) (bs : list (list Pending))
    : option (list Chunk) :=
  match bs with
  | [] => Some []
  | batch :: rest =>
      match with_retries 3 0 (embedMany (map p_text batch)) with
      | None => None
      | Some embeddings =>
          match embed_batches containerTag rest with
          | None => None
          | Some cs =>
              Some (Reranker.mapi
                      (fun j p => chunk_of containerTag p (nth j embeddings []))
                      batch ++ cs)
          end
      end
  end.

Definition set_graph (st : State) (containerTag : str) (g : Graph.EntityGraph)
    (cache : omap str) : State :=
  {| openai := openai st; searchEngine := searchEngine st;
     graphs := map_set containerTag g (ensure_graph (graphs st) containerTag);
     extractionCache := cache; disk := disk st |}.

(** [ingest]: the new state and the document ids, or an error; [None]
    when the chunker does not return within [fuel] iterations. *)
Definition ingest (fuel : nat) (st : State) (sessions : list UnifiedSession)
    (containerTag : str) : option (State * outcome (list str)) :=
  if negb (openai st) then Some (st, Error)
  else
    let g0 := graph_of (graphs st) containerTag in
    match extract_all (extractionCache st) sessions with
    | (cache, None) => Some (set_graph st containerTag g0 cache, Error)
    | (cache, Some extractions) =>
        match digest_all fuel g0 (combine sessions extractions) with
        | None => None
        | Some (g, allChunks) =>
            let st1 := set_graph st containerTag g cache in
            match allChunks with
            | [] => Some (st1, Ok [])
            | _ :: _ =>
                match embed_batches containerTag
                        (batches (List.length allChunks) EMBEDDING_BATCH_SIZE
                           allChunks) with
                | None => Some (st1, Error)
                | Some embeddedChunks =>
                    let st2 :=
                      {| openai := openai st1;
                         searchEngine :=
                           HybridSearch.addChunks (searchEngine st1)
                             containerTag embeddedChunks;
                         graphs := graphs st1;
                         extractionCache := extractionCache st1;
                         disk := disk st1 |} in
                    Some (saveToCache st2 containerTag,
                          Ok (map id embeddedChunks))
                end
            end
        end
    end.

(** The graph part of [search]. *)
Definition graph_results (st : State) (containerTag query : str) : list result :=
  match map_get containerTag (graphs st) with
  | Some g =>
      if (0 <? Graph.nodeCount g)%nat then
        match Graph.findEntitiesInQuery g query with
        | [] => []
        | queryEntities =>
            let ctx := Graph.getContext g queryEntities 2 in
            map EntityResult (Graph.entities ctx)
            ++ map RelationshipResult (Graph.relationships ctx)
        end
      else []
  | None => []
  end.

(** [search]: [limit] is [options.limit], absent or 0 meaning 10. *)
Definition search (st : State) (query containerTag : str) (limit : option Z)
    : State * outcome (list result) :=
  if negb (openai st) then (st, Error)
  else
    let st :=
      if HybridSearch.hasData (searchEngine st) containerTag then st
      else loadFromCache st containerTag in
    match with_retries 3 0 (embed query) with
    | None => (st, Error)
    | Some queryEmbedding =>
        let limit := match limit with
                     | Some l => if (l =? 0)%Z then 10%Z else l
                     | None => 10%Z
                     end in
        let overfetchLimit := Z.max limit RERANK_OVERFETCH in
        let hybridResults :=
          HybridSearch.search cosine lexical (searchEngine st) containerTag
            queryEmbedding query (Z.to_nat overfetchLimit) in
        let finalChunks :=
          if (limit <? JS.length hybridResults)%Z
          then Reranker.rerankResults generateText parseScores query
                 hybridResults limit
          else hybridResults in
        (st, Ok (map ChunkResult finalChunks
                 ++ graph_results st containerTag query))
    end.
End Calls.

(** [clear] *)
Definition clear (st : State) (containerTag : str) : State :=
  {| openai := openai st;
     searchEngine := HybridSearch.clear (searchEngine st) containerTag;
     graphs := map_delete containerTag (graphs st);
     extractionCache := extractionCache st;
     disk := disk st |}.

End Provider.

(* ================================================================== *)
(** ** The extraction slots ([index.ts]) *)

Module Pool.

Definition MAX_GLOBAL_EXTRACTIONS : Z := 300.

(** The counter and the queue of the provider.  A queued closure
    increments the counter and resolves the promise of the caller that
    waits for a slot; it is kept as the number of that caller. *)
Record Slots := {
  activeGlobalExtractions : Z;
  extractionQueue : list nat
}.

Definition new : Slots :=
  {| activeGlobalExtractions := 0; extractionQueue := [] |}.

(** [acquireExtractionSlot]: [true] when the slot is granted at once,
    [false] when the caller is left waiting in the queue. *)
Definition acquireExtractionSlot (s : Slots) (caller : nat) : Slots * bool :=
  if (activeGlobalExtractions s <? MAX_GLOBAL_EXTRACTIONS)%Z
  then ({| activeGlobalExtractions := activeGlobalExtractions s + 1;
           extractionQueue := extractionQueue s |}, true)
  else ({| activeGlobalExtractions := activeGlobalExtractions s;
           extractionQueue := extractionQueue s ++ [caller] |}, false).

(** [releaseExtractionSlot]: the counter goes down, and the first
    waiting caller, if any, takes the slot in the same step. *)
Definition releaseExtractionSlot (s : Slots) : Slots * option nat :=
  let active := (activeGlobalExtractions s - 1)%Z in
  match extractionQueue s with
  | [] => ({| activeGlobalExtractions := active; extractionQueue := [] |}, None)
  | next :: rest =>
      ({| activeGlobalExtractions := (active + 1)%Z; extractionQueue := rest |},
       Some next)
  end.

End Pool.

(* ================================================================== *)
(** ** The extraction call ([prompts/extraction.ts]) *)

Module Extractor.
Import JS SearchTypes.

(** A session as the prompt builder reads it: the messages, and the
    four metadata fields it looks up. *)
Record Message := {
  speaker : option str;
  role : str;
  timestamp : option str;
  content : str
}.

Record Session := {
  sessionId : str;
  speakerA : option str;
  speakerB : option str;
  formattedDate : option str;
  date : option str;
  messages : list Message
}.

(** [x || fallback] *)
Definition or_else (x : option str) (fallback : str) : str :=
  match or_null x with
  | Some s => s
  | None => fallback
  end.

(** [`${speaker}${ts}: ${m.content}`] *)
Definition message_line (m : Message) : str :=
  let speaker_ := or_else (speaker m) (role m) in
  let ts :=
    match or_null (timestamp m) with
    | Some t => lit " [" ++ t ++ lit "]"
    | None => []
    end in
  speaker_ ++ ts ++ lit ": " ++ content m.

Definition QUOTE : N := 34.

Definition buildExtractionPrompt (session : Session) : str :=
  let speakerA := or_else (speakerA session) (lit "Speaker A") in
  let speakerB := or_else (speakerB session) (lit "Speaker B") in
  let date_ :=
    or_else (formattedDate session) (or_else (date session) (lit "Unknown date")) in
  let conversation := join [NL] (map message_line (messages session)) in
  join [NL]
    [ lit "You are a memory extraction system. Extract all important information from this conversation into a structured format for later retrieval.";
      [];
      lit "<context>";
      lit "Conversation Date: " ++ date_;
      lit "Participants: " ++ speakerA ++ lit ", " ++ speakerB;
      lit "</context>";
      [];
      lit "<conversation>";
      conversation;
      lit "</conversation>";
      [];
      lit "Extract information in this exact format:";
      [];
      lit "<memories>";
      lit "Write each memory as a standalone, self-contained fact. Anyone reading a single line should understand it without needing other lines for context.";
      [];
      lit "Rules:";
      lit "- Prefix every memory with the date in [YYYY-MM-DD] format";
      lit "- Resolve ALL relative dates to absolute dates using conversation date " ++ date_;
      lit "  " ++ [QUOTE] ++ lit "yesterday" ++ [QUOTE] ++ lit " = day before " ++ date_
        ++ lit ", " ++ [QUOTE] ++ lit "last week" ++ [QUOTE] ++ lit " = 7 days before, "
        ++ [QUOTE] ++ lit "next Friday" ++ [QUOTE] ++ lit " = calculate from " ++ date_
        ++ lit ", " ++ [QUOTE] ++ lit "two months ago" ++ [QUOTE]
        ++ lit " = calculate from " ++ date_;
      lit "- If a message has an explicit timestamp, use that exact date";
      lit "- Use actual names from the conversation, never " ++ [QUOTE] ++ lit "the user"
        ++ [QUOTE] ++ lit " or " ++ [QUOTE] ++ lit "the assistant" ++ [QUOTE];
      lit "- Include specific numbers, dates, locations, proper nouns";
      lit "- One fact per line, no bullet points or dashes";
      lit "- Cover: biographical facts, preferences, opinions, events, plans, decisions, activities, emotions, routines, skills, health, work, relationships";
      lit "- For recurring events or habits, note the pattern (e.g., " ++ [QUOTE]
        ++ lit "every Tuesday" ++ [QUOTE] ++ lit ", " ++ [QUOTE] ++ lit "weekly"
        ++ [QUOTE] ++ lit ")";
      lit "</memories>";
      [];
      lit "<entities>";
      lit "List each unique person, organization, location, or notable object mentioned.";
      lit "One per line, pipe-delimited: name|type|one-sentence summary of all known facts";
      [];
      lit "Types: person, organization, location, object";
      [];
      lit "Use the entity's actual name. Summary should combine ALL known facts about this entity from the conversation.";
      lit "Do not use the pipe character (|) within any field value. Use a comma or semicolon instead.";
      lit "</entities>";
      [];
      lit "<relationships>";
      lit "List relationships between entities.";
      lit "One per line, pipe-delimited: source|relation|target|date-or-timeframe";
      [];
      lit "Relations: married_to, partner_of, parent_of, child_of, sibling_of, friend_of, colleague_of, works_at, lives_in, studies_at, member_of, owns, manages, reports_to, visited, likes, dislikes, etc.";
      [];
      lit "Only include relationships explicitly stated or strongly implied. Include temporal info when known. Use entity names exactly as in the entities section.";
      lit "</relationships>" ].

(** How [extractMemories] ends: with the trimmed text of the model, by
    rethrowing the error of its last attempt, or at the [throw] after
    the loop. *)
Inductive extracted :=
| Returned (text : str)
| Rethrown (attempt : nat)
| Unreachable.

Section Call.
(** The extraction model, called with the prompt; the reply may differ
    from one attempt to the next. *)
Variable generateText : str -> nat -> Reranker.reply.

(** [for (attempt = ...; attempt < maxRetries; attempt++)] with [left]
    attempts to go, the last of them being attempt [maxRetries - 1]; the
    waits, in milliseconds, are collected. *)
Fixpoint attempts (left attempt : nat) (prompt : str) : list Z * extracted :=
  match left with
  | O => ([], Unreachable)
  | S left' =>
      match generateText prompt attempt with
      | Reranker.Text text => ([], Returned (trim text))
      | Reranker.Throws =>
          match left' with
          | O => ([], Rethrown attempt)
          | S _ =>
              let (ds, out) := attempts left' (S attempt) prompt in
              ((2000 * 2 ^ Z.of_nat attempt)%Z :: ds, out)
          end
      end
  end.

(** [extractMemories], with the waits it made. *)
Definition extractMemories_trace (session : Session) (maxRetries : nat)
    : list Z * extracted :=
  attempts maxRetries 0 (buildExtractionPrompt session).

Definition extractMemories (session : Session) (maxRetries : nat) : extracted :=
  snd (extractMemories_trace session maxRetries).
End Call.

End Extractor.

(* ================================================================== *)
(** ** Counting queries ([decompose.ts]) *)

Module Decompose.
Import JS.

Definition COUNTING : Regex.re :=
  Regex.compile "\b(how many|how much|list all|what are all|count|total|every|each of)\b".

Definition COUNTING_ALL : Regex.re :=
  Regex.compile "\b(all the|all my|everything)\b".

Definition isCountingQuery (query : str) : bool :=
  let q := toLowerCase query in
  Regex.test Regex.exact q COUNTING || Regex.test Regex.exact q COUNTING_ALL.

Definition QUOTE : N := 34.

Definition prompt_of (query : str) : str :=
  join [NL]
    [ lit "You are a search query decomposer. The user wants to count or list items from their conversation history.";
      [];
      lit "Original question: " ++ query;
      [];
      lit "Generate 3-5 alternative search queries that would find different instances of what's being counted. Each query should use different wording, synonyms, or focus on different aspects.";
      [];
      lit "Example: " ++ [QUOTE] ++ lit "How many books did I mention reading?"
        ++ [QUOTE] ++ lit " ->";
      lit "- books I was reading";
      lit "- novels I mentioned";
      lit "- reading list recommendations";
      lit "- book titles discussed";
      [];
      lit "Return ONLY the queries, one per line. No numbering, no explanations." ].

(** The class [[-*\d.)\s]]. *)
Definition is_bullet (c : N) : bool :=
  ((c =? 45) || (c =? 42) || (48 <=? c) && (c <=? 57) || (c =? 46)
   || (c =? 41))%N || is_ws c.

(** [l.replace(/^[-*\d.)\s]+/, '')] *)
Fixpoint strip_bullets (l : str) : str :=
  match l with
  | c :: l' => if is_bullet c then strip_bullets l' else l
  | [] => []
  end.

(** [text.trim().split('\n').map(...).filter(...).slice(0, 5)] *)
Definition subQueries (text : str) : list str :=
  arr_slice
    (filter (fun l => ((3 <? length l) && (length l <? 200))%Z)
       (map (fun l => trim (strip_bullets l)) (split NL (trim text))))
    0 5.

Section Call.
(** The decomposer model, called once with the prompt. *)
Variable generateText : str -> Reranker.reply.

Definition decomposeQuery (query : str) : list str :=
  match generateText (prompt_of query) with
  | Reranker.Text text => query :: subQueries text
  | Reranker.Throws => [query]
  end.
End Call.

End Decompose.

(* ================================================================== *)
(** ** The container lock ([lock.ts]) *)

Module Lock.

(** [ContainerLock] is used by [async] callers on one thread: a method
    runs without interruption up to its next [await], and a suspended
    caller is resumed some time after its promise has been resolved.
    The model keeps the callers of one tag, each with the place it
    stands at, and lets them take turns in any order; the order the
    runtime would choose is one of them.  A caller asks for the lock
    once and releases it once it holds it; a caller that asks again
    counts as a further caller.

    The entries of the four maps of [ContainerLock] for one tag: the
    methods read and write the entries of their own tag only.  A promise
    is kept as a number; [writerResolve] and the [resolve] of
    [readerDrain] resolve the promise of the same number. *)
Record Entries := {
  writerPromise : option nat;
  writerResolve : option nat;
  readerCount : option Z;
  readerDrain : option nat
}.

(** Where a caller stands.  An [async] method runs without interruption
    up to its next [await]; a caller is at the head of a loop, suspended
    on a promise with the code that follows the [await], holding the
    lock after its call has returned, or done. *)
Inductive pc :=
| ReadLoop        (* at [while (...)] of [readLock] *)
| WriteLoop       (* at [while (...)] of [writeLock] *)
| WriteDrained    (* after [await drainPromise] *)
| Awaiting (promise : nat) (next : pc)
| HoldsRead       (* [readLock] has returned, [readUnlock] not yet called *)
| HoldsWrite      (* [writeLock] has returned, [writeUnlock] not yet called *)
| Released.

Record State := {
  entries : Entries;
  resolved : list nat;      (* the promises resolved so far *)
  fresh : nat;              (* the number of the next [new Promise] *)
  callers : list pc
}.

(** [x || d] on a count. *)
Definition count_or (x : option Z) (d : Z) : Z :=
  match x with
  | Some n => if (n =? 0)%Z then d else n
  | None => d
  end.

(** The code that runs when the caller is resumed at [at_]: the new
    entries, the promises it resolves or creates, and where the caller
    stands afterwards. *)
Definition segment (e : Entries) (fresh_ : nat) (at_ : pc)
    : Entries * list nat * nat * pc :=
  match at_ with
  | ReadLoop =>
      match writerPromise e with
      | Some p => (e, [], fresh_, Awaiting p ReadLoop)
      | None =>
          ({| writerPromise := writerPromise e;
              writerResolve := writerResolve e;
              readerCount := Some (count_or (readerCount e) 0 + 1)%Z;
              readerDrain := readerDrain e |}, [], fresh_, HoldsRead)
      end
  | HoldsRead =>
      (* readUnlock *)
      let count := (count_or (readerCount e) 1 - 1)%Z in
      if (count <=? 0)%Z then
        ({| writerPromise := writerPromise e;
            writerResolve := writerResolve e;
            readerCount := None;
            readerDrain := None |},
         match readerDrain e with Some d => [d] | None => [] end,
         fresh_, Released)
      else
        ({| writerPromise := writerPromise e;
            writerResolve := writerResolve e;
            readerCount := Some count;
            readerDrain := readerDrain e |}, [], fresh_, Released)
  | WriteLoop =>
      match writerPromise e with
      | Some p => (e, [], fresh_, Awaiting p WriteLoop)
      | None =>
          let promise := fresh_ in
          let readers := count_or (readerCount e) 0 in
          if (0 <? readers)%Z then
            let drainPromise := S fresh_ in
            ({| writerPromise := Some promise;
                writerResolve := Some promise;
                readerCount := readerCount e;
                readerDrain := Some drainPromise |},
             [], S (S fresh_), Awaiting drainPromise WriteDrained)
          else
            ({| writerPromise := Some promise;
                writerResolve := Some promise;
                readerCount := readerCount e;
                readerDrain := readerDrain e |},
             [], S fresh_, HoldsWrite)
      end
  | WriteDrained => (e, [], fresh_, HoldsWrite)
  | HoldsWrite =>
      (* writeUnlock *)
      ({| writerPromise := None;
          writerResolve := None;
          readerCount := readerCount e;
          readerDrain := readerDrain e |},
       match writerResolve e with Some p => [p] | None => [] end,
       fresh_, Released)
  | Awaiting _ _ => (e, [], fresh_, at_)
  | Released => (e, [], fresh_, Released)
  end.

(** What the caller runs when it gets its turn: nothing while its
    promise is pending. *)
Definition resume (resolved_ : list nat) (at_ : pc) : option pc :=
  match at_ with
  | Awaiting p next => if existsb (Nat.eqb p) resolved_ then Some next else None
  | Released => None
  | _ => Some at_
  end.

Fixpoint set_nth {A : Type} (i : nat) (x : A) (l : list A) : list A :=
  match l, i with
  | [], _ => []
  | _ :: l', O => x :: l'
  | a :: l', S i' => a :: set_nth i' x l'
  end.

(** One turn of caller [i]. *)
Definition step (s : State) (i : nat) : State :=
  match nth_error (callers s) i with
  | None => s
  | Some at_ =>
      match resume (resolved s) at_ with
      | None => s
      | Some code =>
          match segment (entries s) (fresh s) code with
          | (e, done, fresh_, next) =>
              {| entries := e; resolved := resolved s ++ done; fresh := fresh_;
                 callers := set_nth i next (callers s) |}
          end
      end
  end.

(** The callers of a new lock: each is about to call [readLock] or
    [writeLock]. *)
Inductive role := Reader | Writer.

Definition start (roles : list role) : State :=
  {| entries := {| writerPromise := None; writerResolve := None;
                   readerCount := None; readerDrain := None |};
     resolved := []; fresh := 0;
     callers := map (fun r => match r with Reader => ReadLoop | Writer => WriteLoop end)
                  roles |}.

(** The turns are taken in any order. *)
Definition run (roles : list role) (schedule : list nat) : State :=
  fold_left step schedule (start roles).

End Lock.

(* ================================================================== *)
(** * Properties *)

(* ================================================================== *)
(** ** JavaScript strings: basic facts *)

Module JSFacts.
Import JS.

Lemma str_eqb_eq (a b : str) : str_eqb a b = true <-> a = b.
Proof.
  unfold str_eqb. destruct (list_eq_dec N.eq_dec a b); split; congruence.
Qed.

Lemma str_eqb_refl (a : str) : str_eqb a a = true.
Proof. now apply str_eqb_eq. Qed.

Lemma str_eqb_neq (a b : str) : str_eqb a b = false <-> a <> b.
Proof.
  unfold str_eqb. destruct (list_eq_dec N.eq_dec a b); split; congruence.
Qed.

Lemma set_has_In (k : str) (s : list str) : set_has k s = true <-> In k s.
Proof.
  unfold set_has. rewrite existsb_exists. split.
  - intros [x [Hx He]]. apply str_eqb_eq in He. now subst.
  - intros H. exists k. split; [exact H | apply str_eqb_refl].
Qed.

Lemma set_has_not_In (k : str) (s : list str) : set_has k s = false <-> ~ In k s.
Proof.
  rewrite <- set_has_In. destruct (set_has k s); split; congruence.
Qed.

Lemma set_add_In (k x : str) (s : list str) :
  In x (set_add k s) <-> x = k \/ In x s.
Proof.
  unfold set_add. destruct (set_has k s) eqn:E.
  - apply set_has_In in E. split; [now right | intros [->|H]; assumption].
  - rewrite in_app_iff; cbn. intuition congruence.
Qed.

Lemma set_add_NoDup (k : str) (s : list str) : NoDup s -> NoDup (set_add k s).
Proof.
  intros H. unfold set_add. destruct (set_has k s) eqn:E; [exact H|].
  apply set_has_not_In in E.
  apply NoDup_app; [exact H | repeat constructor; intros [] | ].
  intros x Hx [<-|[]]. contradiction.
Qed.

Lemma str_eqb_spec (a b : str) : reflect (a = b) (str_eqb a b).
Proof.
  unfold str_eqb. destruct (list_eq_dec N.eq_dec a b); now constructor.
Qed.

Section OrderedMap.
Variable V : Type.
Implicit Types (m : omap V) (k : str) (v : V).

Lemma map_get_In k v m : map_get k m = Some v -> In (k, v) m.
Proof.
  induction m as [|[k' v'] m IH]; cbn; [discriminate|].
  destruct (str_eqb k' k) eqn:E.
  - apply str_eqb_eq in E. intros [= ->]. subst. now left.
  - intros H. right. now apply IH.
Qed.

Lemma map_get_None k m : map_get k m = None <-> ~ In k (map fst m).
Proof.
  induction m as [|[k' v'] m IH]; cbn; [tauto|].
  destruct (str_eqb k' k) eqn:E.
  - apply str_eqb_eq in E. split; [discriminate | intros H; exfalso; auto].
  - apply str_eqb_neq in E. rewrite IH. tauto.
Qed.

Lemma In_map_get k v m : NoDup (map fst m) -> In (k, v) m -> map_get k m = Some v.
Proof.
  induction m as [|[k' v'] m IH]; cbn; [tauto|].
  intros Hnd [H|H]; inversion Hnd as [|? ? Hnotin Hnd']; subst.
  - inversion H; subst. now rewrite str_eqb_refl.
  - destruct (str_eqb k' k) eqn:E; [|now apply IH].
    apply str_eqb_eq in E; subst. exfalso. apply Hnotin.
    apply in_map_iff. now exists (k, v).
Qed.

Lemma map_get_set_same k v m : map_get k (map_set k v m) = Some v.
Proof.
  induction m as [|[k' v'] m IH]; cbn.
  - now rewrite str_eqb_refl.
  - destruct (str_eqb k' k) eqn:E; cbn; rewrite E; auto.
Qed.

Lemma map_get_set_other k k' v m :
  k <> k' -> map_get k' (map_set k v m) = map_get k' m.
Proof.
  intros Hne. induction m as [|[k0 v0] m IH]; cbn.
  - apply str_eqb_neq in Hne. now rewrite Hne.
  - destruct (str_eqb k0 k) eqn:E; cbn.
    + apply str_eqb_eq in E; subst.
      apply str_eqb_neq in Hne. now rewrite Hne.
    + now rewrite IH.
Qed.

Lemma map_set_fresh k v m : map_get k m = None -> map_set k v m = m ++ [(k, v)].
Proof.
  induction m as [|[k' v'] m IH]; cbn; [reflexivity|].
  destruct (str_eqb k' k); [discriminate|]. intros H. now rewrite IH.
Qed.

Lemma map_set_keys_present k v m :
  map_get k m <> None -> map fst (map_set k v m) = map fst m.
Proof.
  induction m as [|[k' v'] m IH]; cbn; [congruence|].
  destruct (str_eqb k' k); cbn; [reflexivity|]. intros H. now rewrite IH.
Qed.

Lemma map_set_NoDup k v m : NoDup (map fst m) -> NoDup (map fst (map_set k v m)).
Proof.
  intros H. destruct (map_get k m) eqn:E.
  - rewrite map_set_keys_present by congruence. exact H.
  - rewrite map_set_fresh by exact E. rewrite map_app; cbn.
    apply NoDup_app; [exact H | repeat constructor; intros [] |].
    intros x Hx [<-|[]]. now apply map_get_None in E.
Qed.

Lemma map_set_length k v m :
  List.length (map_set k v m)
  = if map_has k m then List.length m else S (List.length m).
Proof.
  unfold map_has. induction m as [|[k' v'] m IH]; cbn; [reflexivity|].
  destruct (str_eqb k' k); cbn; [reflexivity|].
  rewrite IH. now destruct (map_get k m).
Qed.

Lemma map_set_In k v m x :
  In x (map_set k v m) -> x = (k, v) \/ In x m.
Proof.
  induction m as [|[k' v'] m IH]; cbn.
  - intros [<-|[]]. now left.
  - destruct (str_eqb k' k) eqn:E; cbn.
    + apply str_eqb_eq in E; subst. intros [<-|H]; auto.
    + intros [<-|H]; auto. destruct (IH H); auto.
Qed.
End OrderedMap.

End JSFacts.

(* ================================================================== *)
(** ** Properties of the chunker *)

Module ChunkerFacts.
Import JS Chunker.

(** What [ingest] passes to [chunkText] for a session dated 2024-05-10
    whose memory text has a sentence ending exactly at the end of the
    first window: the date header (28 code units), 1572 letters, a
    period at index 1600, a space, and 1000 more letters. *)
Definition period_at_end : str :=
  lit "# Memories from 2024-05-10" ++ [NL; NL] ++ repeat 97%N 1572
    ++ lit ". " ++ repeat 98%N 1000.

(** What [ingest] passes to [chunkText] for a session dated 2024-05-10
    whose memory text is one run of 2000 code units with no space, no
    newline and no period-space (text in a script written without
    spaces, say): the date header, two newlines, then the run. *)
Definition early_space : str :=
  lit "# Memories from 2024-05-10" ++ [NL; NL] ++ repeat 19990%N 2000.

Lemma early_space_iteration (cs : list str) :
  iteration early_space CHUNK_SIZE CHUNK_OVERLAP {| start := 0; chunks := cs |}
  = Next {| start := 0; chunks := cs ++ [lit "# Memories from"] |}.
Proof.
  unfold iteration. cbn [start chunks].
  replace (0 + CHUNK_SIZE >=? length early_space) with false
    by (vm_compute; reflexivity).
  replace (breakPoint early_space CHUNK_SIZE 0) with 15
    by (vm_compute; reflexivity).
  replace (trim (slice early_space 0 (15 + 1))) with (lit "# Memories from")
    by (vm_compute; reflexivity).
  reflexivity.
Qed.

Lemma early_space_loop (fuel : nat) : forall cs,
  loop fuel early_space CHUNK_SIZE CHUNK_OVERLAP {| start := 0; chunks := cs |}
  = None.
Proof.
  induction fuel as [|fuel IH]; intros cs; [reflexivity|].
  cbn [loop start].
  replace (0 <? length early_space) with true by (vm_compute; reflexivity).
  rewrite early_space_iteration. apply IH.
Qed.

(** C3: [chunkText] returns an empty chunk for the empty text and for a
    text of white space only (the early return skips the filter), and
    returns a chunk of 1601 code units when the break point is the very
    end of the window (the slice keeps the code unit at the break
    point). *)
Theorem chunkText_empty_and_oversized_chunk :
  (forall fuel, chunkText fuel [] CHUNK_SIZE CHUNK_OVERLAP = Some [[]])
  /\ (forall fuel, chunkText fuel (lit "   ") CHUNK_SIZE CHUNK_OVERLAP = Some [[]])
  /\ exists c rest,
       chunkText 5 period_at_end CHUNK_SIZE CHUNK_OVERLAP = Some (c :: rest)
       /\ length c = 1601 /\ trim c = c.
Proof.
  split; [reflexivity|]. split; [reflexivity|].
  exists (firstn 1601 period_at_end), [skipn 1281 period_at_end].
  split; [vm_compute; reflexivity|].
  split; vm_compute; reflexivity.
Qed.

(** C10: on a text whose last space before the window end lies within
    the first [CHUNK_OVERLAP] code units of the window, the loop's start
    position does not move: the iteration at [start = 0] leads back to
    [start = 0], and [chunkText] never returns, whatever the bound on
    the iterations. *)
Theorem chunkText_early_space_diverges :
  (forall cs, iteration early_space CHUNK_SIZE CHUNK_OVERLAP
                {| start := 0; chunks := cs |}
              = Next {| start := 0; chunks := cs ++ [lit "# Memories from"] |})
  /\ forall fuel, chunkText fuel early_space CHUNK_SIZE CHUNK_OVERLAP = None.
Proof.
  split; [exact early_space_iteration|].
  intros fuel. unfold chunkText.
  replace (length early_space <=? CHUNK_SIZE) with false
    by (vm_compute; reflexivity).
  rewrite early_space_loop. reflexivity.
Qed.

(** *** What does hold: no chunk is longer than the window plus one *)

Lemma trimStart_length s : (List.length (trimStart s) <= List.length s)%nat.
Proof.
  induction s as [|c s IH]; cbn; [lia|].
  destruct (is_ws c); cbn; lia.
Qed.

Lemma trim_length s : (List.length (trim s) <= List.length s)%nat.
Proof.
  unfold trim, trimEnd. rewrite length_rev.
  etransitivity; [apply trimStart_length|]. rewrite length_rev.
  apply trimStart_length.
Qed.

Lemma lastIndexOf_from_range p s : forall k bound acc,
  let r := lastIndexOf_from p s k bound acc in
  r = acc \/ (k <= r <= bound).
Proof.
  induction s as [|c s IH]; intros k bound acc; cbn zeta; cbn [lastIndexOf_from].
  - destruct (Z.leb_spec k bound); cbn [andb]; [|now left].
    destruct (starts_with p []); [right; lia | now left].
  - destruct (IH (k + 1) bound
                (if (k <=? bound) && starts_with p (c :: s) then k else acc))
      as [H|H]; [|right; lia].
    rewrite H. destruct (Z.leb_spec k bound); cbn [andb]; [|now left].
    destruct (starts_with p (c :: s)); [right; lia | now left].
Qed.

Lemma lastIndexOf_range s p fromIndex :
  lastIndexOf s p fromIndex = -1
  \/ (0 <= lastIndexOf s p fromIndex <= Z.max fromIndex 0).
Proof.
  unfold lastIndexOf.
  destruct (lastIndexOf_from_range p s 0
              (Z.min (Z.max fromIndex 0) (JS.length s - JS.length p)) (-1))
    as [H|H]; [now left | right; lia].
Qed.

(** The break point lies in the window, past its start. *)
Lemma breakPoint_range text chunkSize st :
  0 <= st -> 0 < chunkSize ->
  st < breakPoint text chunkSize st <= st + chunkSize.
Proof.
  intros Hst Hcs. unfold breakPoint.
  set (e := st + chunkSize).
  set (b1 := lastIndexOf text (lit ". ") e).
  set (b2 := if too_early b1 st chunkSize then lastIndexOf text [NL] e else b1).
  set (b3 := if too_early b2 st chunkSize then lastIndexOf text [SPACE] e else b2).
  destruct (Z.leb_spec b3 st) as [Hle|Hgt]; [subst e; lia|].
  split; [exact Hgt|].
  assert (H1 : b1 = -1 \/ 0 <= b1 <= e)
    by (destruct (lastIndexOf_range text (lit ". ") e); [now left|right; lia]).
  assert (H2 : b2 = -1 \/ 0 <= b2 <= e).
  { subst b2. destruct (too_early b1 st chunkSize); [|exact H1].
    destruct (lastIndexOf_range text [NL] e); [now left|right; lia]. }
  assert (H3 : b3 = -1 \/ 0 <= b3 <= e).
  { subst b3. destruct (too_early b2 st chunkSize); [|exact H2].
    destruct (lastIndexOf_range text [SPACE] e); [now left|right; lia]. }
  lia.
Qed.

Lemma slice_length s a b :
  0 <= a <= b -> JS.length (slice s a b) <= b - a.
Proof.
  intros H. unfold slice, rel_index, JS.length.
  replace (a <? 0) with false by (symmetry; apply Z.ltb_ge; lia).
  replace (b <? 0) with false by (symmetry; apply Z.ltb_ge; lia).
  rewrite length_firstn. lia.
Qed.

Lemma slice_from_length s a :
  0 <= a -> JS.length (slice_from s a) <= Z.max (JS.length s - a) 0.
Proof.
  intros H. unfold slice_from, rel_index, JS.length.
  replace (a <? 0) with false by (symmetry; apply Z.ltb_ge; lia).
  rewrite length_skipn. lia.
Qed.

Definition fits (chunkSize : Z) (c : str) : Prop := JS.length c <= chunkSize + 1.

Lemma trim_fits chunkSize s : JS.length s <= chunkSize + 1 -> fits chunkSize (trim s).
Proof.
  unfold fits, JS.length. pose proof (trim_length s). lia.
Qed.

Lemma loop_fits fuel text chunkSize overlap : forall st out,
  0 < chunkSize -> 0 <= start st -> Forall (fits chunkSize) (chunks st) ->
  loop fuel text chunkSize overlap st = Some out ->
  Forall (fits chunkSize) out.
Proof.
  induction fuel as [|fuel IH]; intros st out Hcs Hst Hall; cbn [loop];
    [discriminate|].
  destruct (start st <? JS.length text); [|now intros [= <-]].
  unfold iteration.
  destruct (Z.geb_spec (start st + chunkSize) (JS.length text)) as [Hend|Hend].
  - intros [= <-]. apply Forall_app. split; [exact Hall|].
    constructor; [|constructor]. apply trim_fits.
    pose proof (slice_from_length text Hst). lia.
  - pose proof (breakPoint_range text Hst Hcs) as Hbp.
    apply IH; cbn [start chunks]; [exact Hcs | | ].
    + destruct (Z.ltb_spec (breakPoint text chunkSize (start st) + 1 - overlap) 0);
        lia.
    + apply Forall_app. split; [exact Hall|].
      constructor; [|constructor]. apply trim_fits.
      pose proof (@slice_length text (start st)
                    (breakPoint text chunkSize (start st) + 1)).
      lia.
Qed.

(** Whenever [chunkText] returns, every chunk has at most
    [chunkSize + 1] code units. *)
Lemma chunkText_fits fuel text chunkSize overlap out :
  0 < chunkSize ->
  chunkText fuel text chunkSize overlap = Some out ->
  Forall (fits chunkSize) out.
Proof.
  intros Hcs. unfold chunkText.
  destruct (Z.leb_spec (JS.length text) chunkSize) as [Hshort|Hlong].
  - intros [= <-]. constructor; [|constructor]. apply trim_fits. lia.
  - destruct (loop fuel text chunkSize overlap _) as [cs|] eqn:E; [|discriminate].
    intros [= <-]. apply incl_Forall with cs; [intros c Hc|].
    + now apply filter_In in Hc.
    + eapply loop_fits; eauto; cbn; [lia | constructor].
Qed.

(** *** What does hold: termination when the space fallback is not taken *)

Lemma lastIndexOf_from_absent c s : ~ In c s ->
  forall k bound acc, lastIndexOf_from [c] s k bound acc = acc.
Proof.
  induction s as [|d s IH]; intros Hc k bound acc; cbn [lastIndexOf_from].
  - cbn. now rewrite andb_false_r.
  - rewrite IH by (intros H; apply Hc; now right).
    cbn [starts_with]. destruct (N.eqb_spec c d) as [->|_].
    + exfalso. apply Hc. now left.
    + now rewrite andb_false_r.
Qed.

(** Without a space in the text the break point is in the second half
    of the window: only the space fallback accepts an earlier one. *)
Lemma breakPoint_late text chunkSize st :
  ~ In SPACE text -> 0 <= st -> 0 < chunkSize ->
  2 * st + chunkSize <= 2 * breakPoint text chunkSize st.
Proof.
  intros Hsp Hst Hcs. unfold breakPoint.
  set (e := st + chunkSize).
  set (b1 := lastIndexOf text (lit ". ") e).
  set (b2 := if too_early b1 st chunkSize then lastIndexOf text [NL] e else b1).
  destruct (too_early b2 st chunkSize) eqn:E.
  - unfold lastIndexOf. rewrite lastIndexOf_from_absent by exact Hsp.
    replace (-1 <=? st) with true by (symmetry; apply Z.leb_le; lia).
    subst e. lia.
  - unfold too_early in E. apply orb_false_iff in E as [E1 E2].
    rewrite E1. apply Z.ltb_ge in E2. exact E2.
Qed.

Lemma loop_returns text : ~ In SPACE text ->
  forall fuel st,
    0 <= start st ->
    (Z.to_nat (JS.length text - start st) < fuel)%nat ->
    exists out, loop fuel text CHUNK_SIZE CHUNK_OVERLAP st = Some out.
Proof.
  intros Hsp fuel. induction fuel as [|fuel IH]; intros st Hst Hfuel; [lia|].
  cbn [loop].
  destruct (Z.ltb_spec (start st) (JS.length text)) as [Hlt|_]; [|eauto].
  unfold iteration.
  destruct (start st + CHUNK_SIZE >=? JS.length text); [eauto|].
  apply IH; cbn [start].
  - destruct (Z.ltb_spec
                (breakPoint text CHUNK_SIZE (start st) + 1 - CHUNK_OVERLAP) 0);
      lia.
  - pose proof (@breakPoint_late text CHUNK_SIZE (start st) Hsp Hst eq_refl) as Hbp.
    unfold CHUNK_SIZE, CHUNK_OVERLAP in *.
    destruct (Z.ltb_spec (breakPoint text 1600 (start st) + 1 - 320) 0); lia.
Qed.

(** With the default parameters [chunkText] returns on every text that
    holds no space: the start position grows by at least 481 at each
    iteration. *)
Lemma chunkText_returns_without_space text :
  ~ In SPACE text ->
  exists out,
    chunkText (S (Z.to_nat (JS.length text))) text CHUNK_SIZE CHUNK_OVERLAP
    = Some out.
Proof.
  intros Hsp. unfold chunkText.
  destruct (JS.length text <=? CHUNK_SIZE); [eauto|].
  destruct (@loop_returns text Hsp (S (Z.to_nat (JS.length text)))
              {| start := 0; chunks := [] |}) as [out Hout]; cbn [start].
  - lia.
  - rewrite Z.sub_0_r. lia.
  - rewrite Hout. cbn. eauto.
Qed.

End ChunkerFacts.

(* ================================================================== *)
(** ** Bounded traversal of the entity graph *)

Module TraversalFacts.
Import JS Graph.

(** What every step of [getContext] maintains. *)
Definition capped (w : walk) : Prop :=
  (List.length (resultEntities w) <= MAX_GRAPH_ENTITIES)%nat
  /\ (List.length (resultRels w) <= MAX_GRAPH_RELATIONSHIPS)%nat.

(** Every step of [getContext] only appends to its outputs. *)
Definition extends (w w' : walk) : Prop :=
  (exists more, resultEntities w' = resultEntities w ++ more)
  /\ (exists more, resultRels w' = resultRels w ++ more).

Lemma extends_refl w : extends w w.
Proof. split; exists []; now rewrite app_nil_r. Qed.

Lemma extends_trans w1 w2 w3 : extends w1 w2 -> extends w2 w3 -> extends w1 w3.
Proof.
  intros [[a Ha] [b Hb]] [[c Hc] [d Hd]]; split.
  - exists (a ++ c). now rewrite Hc, Ha, app_assoc.
  - exists (b ++ d). now rewrite Hd, Hb, app_assoc.
Qed.

Section Fold.
Variables (A : Type) (step : walk -> A -> walk).

Lemma fold_capped :
  (forall w a, capped w -> capped (step w a)) ->
  forall l w, capped w -> capped (fold_left step l w).
Proof.
  intros Hstep l; induction l as [|a l IH]; intros w Hw; cbn; auto.
Qed.

Lemma fold_extends :
  (forall w a, extends w (step w a)) ->
  forall l w, extends w (fold_left step l w).
Proof.
  intros Hstep l; induction l as [|a l IH]; intros w; cbn.
  - apply extends_refl.
  - eapply extends_trans; [apply Hstep | apply IH].
Qed.
End Fold.

Lemma push_entity_length g n out :
  (List.length out <= MAX_GRAPH_ENTITIES)%nat ->
  (List.length (push_entity g n out) <= MAX_GRAPH_ENTITIES)%nat.
Proof.
  intros H. unfold push_entity.
  destruct (map_get n (nodes g)); [|exact H].
  destruct (Nat.ltb_spec (List.length out) MAX_GRAPH_ENTITIES); [|exact H].
  rewrite length_app; cbn; lia.
Qed.

Lemma push_rel_length e out :
  (List.length out <= MAX_GRAPH_RELATIONSHIPS)%nat ->
  (List.length (push_rel e out) <= MAX_GRAPH_RELATIONSHIPS)%nat.
Proof.
  intros H. unfold push_rel.
  destruct (Nat.ltb_spec (List.length out) MAX_GRAPH_RELATIONSHIPS); [|exact H].
  rewrite length_app; cbn; lia.
Qed.

Lemma push_entity_extends g n out : exists more, push_entity g n out = out ++ more.
Proof.
  unfold push_entity. destruct (map_get n (nodes g)) as [node|].
  - destruct (_ <? _)%nat; [now exists [out_of_node node]|].
    exists []; now rewrite app_nil_r.
  - exists []; now rewrite app_nil_r.
Qed.




Lemma visit_seed_capped g w n : capped w -> capped (visit_seed g w n).
Proof.
  intros [He Hr]. unfold visit_seed.
  destruct (set_has n (visitedNodes w)); [now split|].
  split; cbn; [now apply push_entity_length|exact Hr].
Qed.

Lemma visit_edge_capped g n w e : capped w -> capped (visit_edge g n w e).
Proof.
  intros [He Hr]. unfold visit_edge.
  destruct (set_has (edge_key e) (seenEdges w)); [now split|].
  destruct (set_has _ (visitedNodes w)); split; cbn;
    auto using push_entity_length, push_rel_length.
Qed.

Lemma visit_seed_extends g w n : extends w (visit_seed g w n).
Proof.
  unfold visit_seed. destruct (set_has n (visitedNodes w)).
  - apply extends_refl.
  - split; cbn; [apply push_entity_extends|].
    exists []; now rewrite app_nil_r.
Qed.


Lemma visit_node_capped g w n : capped w -> capped (visit_node g w n).
Proof. apply fold_capped. intros; now apply visit_edge_capped. Qed.


Lemma hop_capped g frontier w : capped w -> capped (hop g frontier w).
Proof.
  intros H. unfold hop. apply fold_capped; [|exact H].
  intros; now apply visit_node_capped.
Qed.


Lemma hops_capped maxHops g : forall frontier w,
  capped w -> capped (hops maxHops g frontier w).
Proof.
  induction maxHops as [|h IH]; intros frontier w H; cbn; [exact H|].
  destruct frontier; [exact H|]. apply IH. now apply hop_capped.
Qed.


Lemma seed_layer_capped g seeds : capped (seed_layer g seeds).
Proof.
  unfold seed_layer. apply fold_capped.
  - intros; now apply visit_seed_capped.
  - split; cbn; unfold MAX_GRAPH_ENTITIES, MAX_GRAPH_RELATIONSHIPS; lia.
Qed.


(** The first seed that names a node heads the output. *)
Lemma seed_layer_head g n seeds node :
  map_get n (nodes g) = Some node ->
  exists tl, resultEntities (seed_layer g (n :: seeds)) = out_of_node node :: tl.
Proof.
  intros Hn. unfold seed_layer. cbn [fold_left].
  match goal with |- context [fold_left _ seeds ?w1] =>
    destruct (fold_extends (visit_seed g) (visit_seed_extends g) seeds w1)
      as [[more Hm] _] end.
  rewrite Hm. unfold visit_seed; cbn. unfold push_entity. rewrite Hn. cbn.
  now exists more.
Qed.



End TraversalFacts.

(* ================================================================== *)
(** ** Well-formed entity graphs *)

Module GraphFacts.
Import JS JSFacts Graph.

(** [this.adjacency.get(x) || []] *)
Definition adj_of (adj : omap (list RelationshipEdge)) (x : str)
    : list RelationshipEdge :=
  match map_get x adj with Some l => l | None => [] end.

(** Every edge object held by the adjacency lists. *)
Definition stored_edges (g : EntityGraph) : list RelationshipEdge :=
  flat_map snd (adjacency g).

Definition touches (e : RelationshipEdge) (x : str) : Prop :=
  source e = x \/ target e = x.

Record wf_nodes (ns : omap EntityNode) : Prop := {
  wf_node_keys : NoDup (map fst ns);
  wf_node_name : forall k n, In (k, n) ns -> name n = k;
  wf_sessions : forall k n, In (k, n) ns -> NoDup (sessionIds n)
}.

Record wf_edges (es : list str) (adj : omap (list RelationshipEdge)) : Prop := {
  wf_adj_keys : NoDup (map fst adj);
  wf_edgeSet : NoDup es;
  wf_keys : forall k,
      In k es <-> exists e x, In e (adj_of adj x) /\ edge_key e = k;
  wf_key_inj : forall e e' x x',
      In e (adj_of adj x) -> In e' (adj_of adj x') ->
      edge_key e = edge_key e' -> e = e';
  wf_incident : forall e x, In e (adj_of adj x) -> touches e x;
  wf_both : forall e x, In e (adj_of adj x) ->
      In e (adj_of adj (source e)) /\ In e (adj_of adj (target e))
}.

Definition wf (g : EntityGraph) : Prop :=
  wf_nodes (nodes g) /\ wf_edges (edgeSet g) (adjacency g).

(** The graphs the class can be in: built from a new graph by its
    public methods. *)
Inductive reachable : EntityGraph -> Prop :=
| reach_new : reachable empty
| reach_addEntity g n t s sid :
    reachable g -> reachable (addEntity g n t s sid)
| reach_addRelationship g e :
    reachable g -> reachable (addRelationship g e)
| reach_load g data : reachable g -> reachable (load data)
| reach_clear g : reachable g -> reachable (clear g).

Create HintDb graph discriminated.
#[local] Hint Resolve set_add_NoDup map_set_NoDup : graph.

Lemma adj_of_push k e adj x :
  adj_of (adj_push k e adj) x
  = if str_eqb k x then adj_of adj x ++ [e] else adj_of adj x.
Proof.
  unfold adj_push, adj_of, map_has.
  destruct (map_get k adj) as [l|] eqn:E; cbv iota.
  - rewrite E. destruct (str_eqb k x) eqn:Ex.
    + apply str_eqb_eq in Ex; subst. now rewrite map_get_set_same, E.
    + apply str_eqb_neq in Ex. now rewrite map_get_set_other.
  - rewrite map_get_set_same.
    destruct (str_eqb k x) eqn:Ex.
    + apply str_eqb_eq in Ex; subst. now rewrite map_get_set_same, E.
    + apply str_eqb_neq in Ex. now rewrite !map_get_set_other.
Qed.

Lemma adj_push_NoDup k e adj :
  NoDup (map fst adj) -> NoDup (map fst (adj_push k e adj)).
Proof.
  intros H. unfold adj_push.
  destruct (map_has k adj); destruct (map_get k _); auto with graph.
Qed.

Lemma In_adj_of_push2 e e' adj x :
  In e' (adj_of (adj_push (target e) e (adj_push (source e) e adj)) x)
  <-> In e' (adj_of adj x) \/ (e' = e /\ touches e x).
Proof.
  rewrite !adj_of_push. unfold touches.
  destruct (str_eqb_spec (target e) x), (str_eqb_spec (source e) x);
    rewrite ?in_app_iff; cbn; intuition congruence.
Qed.

Lemma stored_In adj e :
  NoDup (map fst adj) ->
  In e (flat_map snd adj) <-> exists x, In e (adj_of adj x).
Proof.
  intros Hnd. rewrite in_flat_map. split.
  - intros [[k l] [Hin He]]. exists k. unfold adj_of.
    now erewrite In_map_get by eassumption.
  - intros [x Hx]. unfold adj_of in Hx.
    destruct (map_get x adj) as [l|] eqn:E; [|contradiction].
    exists (x, l). split; [now apply map_get_In | exact Hx].
Qed.

Lemma wf_nodes_empty : wf_nodes [].
Proof. split; cbn; [constructor | tauto | tauto]. Qed.

Lemma wf_edges_empty : wf_edges [] [].
Proof.
  split; cbn; try constructor; try tauto.
  intros [e [x [H _]]]. exact H.
Qed.

Lemma wf_nodes_set ns k n :
  wf_nodes ns -> name n = k -> NoDup (sessionIds n) -> wf_nodes (map_set k n ns).
Proof.
  intros [Hk Hn Hs] Hname Hsess. split.
  - auto with graph.
  - intros k' n' Hin. apply map_set_In in Hin as [[= -> ->]|Hin]; eauto.
  - intros k' n' Hin. apply map_set_In in Hin as [[= -> ->]|Hin]; eauto.
Qed.

Lemma wf_edges_add es adj e :
  wf_edges es adj -> set_has (edge_key e) es = false ->
  wf_edges (set_add (edge_key e) es)
           (adj_push (target e) e (adj_push (source e) e adj)).
Proof.
  intros [Hak Hes Hkeys Hinj Hinc Hboth] Hnew.
  apply set_has_not_In in Hnew.
  assert (Hfresh : forall e' x, In e' (adj_of adj x) -> edge_key e' <> edge_key e).
  { intros e' x Hin Heq. apply Hnew. apply Hkeys. eauto. }
  split.
  - auto using adj_push_NoDup.
  - auto with graph.
  - intros k. rewrite set_add_In, Hkeys. split.
    + intros [->|[e' [x [Hin Hk]]]].
      * exists e, (source e). split; [|reflexivity].
        apply In_adj_of_push2. right. split; [reflexivity|now left].
      * exists e', x. split; [|exact Hk]. apply In_adj_of_push2. now left.
    + intros [e' [x [Hin Hk]]]. apply In_adj_of_push2 in Hin as [Hin|[-> _]].
      * right. eauto.
      * now left.
  - intros e1 e2 x1 x2 H1 H2 Hk.
    apply In_adj_of_push2 in H1 as [H1|[-> _]];
      apply In_adj_of_push2 in H2 as [H2|[-> _]]; eauto.
    + exfalso. eapply Hfresh; eauto.
    + exfalso. eapply Hfresh; eauto.
  - intros e' x Hin. apply In_adj_of_push2 in Hin as [Hin|[-> Ht]]; auto.
  - intros e' x Hin. apply In_adj_of_push2 in Hin as [Hin|[-> Ht]].
    + destruct (Hboth _ _ Hin). split; apply In_adj_of_push2; now left.
    + split; apply In_adj_of_push2; right; (split; [reflexivity|]);
        [now left | now right].
Qed.

Lemma addEntity_wf g n t s sid : wf g -> wf (addEntity g n t s sid).
Proof.
  intros [Hn He]. unfold addEntity.
  destruct (truthy (trim n)); cbn; [|now split].
  split; cbn; [|exact He].
  destruct (map_get (trim n) (nodes g)) as [old|] eqn:E.
  - apply map_get_In in E. apply wf_nodes_set; cbn; auto.
    + eapply wf_node_name; eauto.
    + apply set_add_NoDup. eapply wf_sessions; eauto.
  - apply wf_nodes_set; cbn; auto. repeat constructor. intros [].
Qed.

Lemma addRelationship_wf g e : wf g -> wf (addRelationship g e).
Proof.
  intros [Hn He]. unfold addRelationship.
  destruct (set_has (edge_key e) (edgeSet g)) eqn:E; [now split|].
  split; cbn; [exact Hn|]. now apply wf_edges_add.
Qed.

Lemma set_of_list_NoDup_from l : forall acc,
  NoDup acc -> NoDup (fold_left (fun s x => set_add x s) l acc).
Proof.
  induction l as [|x l IH]; intros acc H; cbn; auto with graph.
Qed.

Lemma load_node_wf g n : wf g -> wf (load_node g n).
Proof.
  intros [Hn He]. split; cbn; [|exact He].
  apply wf_nodes_set; cbn; auto.
  apply set_of_list_NoDup_from. constructor.
Qed.

Lemma fold_wf (A : Type) (f : EntityGraph -> A -> EntityGraph) :
  (forall g a, wf g -> wf (f g a)) ->
  forall l g, wf g -> wf (fold_left f l g).
Proof.
  intros Hf l; induction l as [|a l IH]; intros g H; cbn; auto.
Qed.

Lemma empty_wf : wf empty.
Proof. split; [apply wf_nodes_empty | apply wf_edges_empty]. Qed.

Lemma load_wf data : wf (load data).
Proof.
  unfold load. apply fold_wf; [intros; now apply addRelationship_wf|].
  apply fold_wf; [intros; now apply load_node_wf | apply empty_wf].
Qed.

Lemma reachable_wf g : reachable g -> wf g.
Proof.
  induction 1; auto using empty_wf, addEntity_wf, addRelationship_wf, load_wf.
Qed.

(** *** Snapshot round trip *)

Lemma fold_nested (A B : Type) (f : A -> B -> A) (m : list (str * list B)) :
  forall acc,
    fold_left (fun acc kv => fold_left f (snd kv) acc) m acc
    = fold_left f (flat_map snd m) acc.
Proof.
  induction m as [|kv m IH]; intros acc; cbn; [reflexivity|].
  rewrite fold_left_app. apply IH.
Qed.

Lemma save_edges_stored g :
  sg_edges (save g) = snd (fold_left save_edge (stored_edges g) ([], [])).
Proof. unfold save, stored_edges; cbn. now rewrite fold_nested. Qed.

(** The edge loop of [save] keeps one edge per key. *)
Lemma save_edge_fold l : forall seen edges,
  seen = map edge_key edges -> NoDup seen ->
  let r := fold_left save_edge l (seen, edges) in
  fst r = map edge_key (snd r)
  /\ NoDup (fst r)
  /\ (forall e, In e (snd r) -> In e edges \/ In e l)
  /\ (forall e, In e edges \/ In e l -> In (edge_key e) (fst r)).
Proof.
  induction l as [|a l IH]; intros seen edges Hseen Hnd; cbn zeta.
  - cbn. repeat split; auto.
    intros e [H|[]]. subst seen. now apply in_map.
  - cbn [fold_left].
    destruct (set_has (edge_key a) seen) eqn:E.
    + replace (save_edge (seen, edges) a) with (seen, edges)
        by (unfold save_edge; now rewrite E).
      destruct (IH seen edges Hseen Hnd) as (H1 & H2 & H3 & H4).
      repeat split; auto.
      * intros e He. destruct (H3 e He); [now left | right; now right].
      * intros e [He|[<-|He]]; auto.
        apply set_has_In in E.
        assert (Hsub : forall k, In k seen ->
                   In k (fst (fold_left save_edge l (seen, edges)))).
        { intros k Hk. subst seen. apply in_map_iff in Hk as [e' [<- He']].
          apply H4. now left. }
        now apply Hsub.
    + assert (Hadd : set_add (edge_key a) seen = seen ++ [edge_key a])
        by (unfold set_add; now rewrite E).
      replace (save_edge (seen, edges) a)
        with (seen ++ [edge_key a], edges ++ [a])
        by (unfold save_edge; now rewrite E, Hadd).
      destruct (IH (seen ++ [edge_key a]) (edges ++ [a])) as (H1 & H2 & H3 & H4).
      * rewrite map_app. cbn. now subst seen.
      * rewrite <- Hadd. now apply set_add_NoDup.
      * repeat split; auto.
        -- intros e He. destruct (H3 e He) as [Hin|Hin]; [|right; now right].
           apply in_app_iff in Hin as [Hin|[<-|[]]]; [now left|right; now left].
        -- intros e [He|[<-|He]]; apply H4; rewrite ?in_app_iff; cbn; auto.
Qed.

(** [load] adds edges with fresh, pairwise distinct keys one by one. *)
Lemma load_edges l : forall g,
  NoDup (map edge_key l) ->
  (forall e, In e l -> ~ In (edge_key e) (edgeSet g)) ->
  let g' := fold_left addRelationship l g in
  nodes g' = nodes g
  /\ edgeSet g' = edgeSet g ++ map edge_key l
  /\ forall x e, In e (adj_of (adjacency g') x)
                 <-> In e (adj_of (adjacency g) x) \/ (In e l /\ touches e x).
Proof.
  induction l as [|a l IH]; intros g Hnd Hfresh; cbn zeta.
  - cbn. rewrite app_nil_r. repeat split; auto. tauto.
  - cbn [fold_left map]. inversion Hnd as [|? ? Ha Hnd']; subst.
    assert (E : set_has (edge_key a) (edgeSet g) = false).
    { apply set_has_not_In. apply Hfresh. now left. }
    assert (Hstep : addRelationship g a
                    = {| nodes := nodes g;
                         edgeSet := edgeSet g ++ [edge_key a];
                         adjacency := adj_push (target a) a
                                        (adj_push (source a) a (adjacency g));
                         nameIndex := nameIndex g |}).
    { unfold addRelationship, set_add. now rewrite E. }
    rewrite Hstep.
    match goal with |- context [fold_left addRelationship l ?g1] =>
      destruct (IH g1 Hnd') as (H1 & H2 & H3) end.
    + cbn. intros e He Hin. apply in_app_iff in Hin as [Hin|[Hin|[]]].
      * eapply Hfresh; [right; exact He | exact Hin].
      * apply Ha. rewrite Hin. now apply in_map.
    + cbn in H1, H2, H3. repeat split.
      * exact H1.
      * rewrite H2, <- app_assoc. reflexivity.
      * rewrite H3, In_adj_of_push2. cbn. intuition (subst; auto).
      * rewrite H3, In_adj_of_push2. cbn. intuition (subst; auto).
Qed.

Lemma set_of_list_from l : forall acc,
  NoDup (acc ++ l) -> fold_left (fun s x => set_add x s) l acc = acc ++ l.
Proof.
  induction l as [|x l IH]; intros acc H; cbn; [now rewrite app_nil_r|].
  assert (Hx : set_add x acc = acc ++ [x]).
  { unfold set_add. replace (set_has x acc) with false; [reflexivity|].
    symmetry. apply set_has_not_In. intros Hin.
    apply NoDup_remove_2 in H. apply H. apply in_app_iff. now left. }
  rewrite Hx, IH; rewrite <- app_assoc; [reflexivity | exact H].
Qed.

Lemma set_of_list_NoDup l : NoDup l -> set_of_list l = l.
Proof. intros H. unfold set_of_list. now rewrite set_of_list_from. Qed.

Lemma load_nodes ns : forall g,
  wf_nodes (nodes g ++ ns) ->
  let g' := fold_left load_node (map (fun kv => save_node (snd kv)) ns) g in
  nodes g' = nodes g ++ ns
  /\ edgeSet g' = edgeSet g /\ adjacency g' = adjacency g.
Proof.
  induction ns as [|[k n] ns IH]; intros g Hwf; cbn zeta.
  - cbn. now rewrite app_nil_r.
  - cbn [map fold_left snd].
    assert (Hname : name n = k).
    { eapply wf_node_name; [exact Hwf|]. apply in_app_iff. right. now left. }
    assert (Hsess : NoDup (sessionIds n)).
    { eapply wf_sessions; [exact Hwf|]. apply in_app_iff. right. now left. }
    assert (Hfresh : map_get k (nodes g) = None).
    { apply map_get_None. pose proof (wf_node_keys Hwf) as Hnd.
      rewrite map_app in Hnd. cbn in Hnd. apply NoDup_remove_2 in Hnd.
      intros Hin. apply Hnd. apply in_app_iff. now left. }
    assert (Hstep : nodes (load_node g (save_node n)) = nodes g ++ [(k, n)]).
    { unfold load_node, save_node;
        cbn [nodes sn_name sn_type sn_summary sn_sessionIds].
      rewrite set_of_list_NoDup by exact Hsess. rewrite Hname.
      rewrite map_set_fresh by exact Hfresh. subst k. now destruct n. }
    destruct (IH (load_node g (save_node n))) as (H1 & H2 & H3).
    + rewrite Hstep, <- app_assoc. exact Hwf.
    + rewrite H1, H2, H3, Hstep, <- app_assoc. now cbn.
Qed.

(** C9: for every graph [g] the class can hold, [load (save g)] has the
    same nodes (name, type, summary and session ids of every entity, in
    the same order, hence the same node count), the same set of edge
    keys and the same edge count, and the same edge objects (source,
    target, relation, date, sessionId), each attached to the same
    nodes. *)
Theorem load_save_roundtrip (g : EntityGraph) :
  reachable g ->
  let g' := load (save g) in
  nodes g' = nodes g
  /\ nodeCount g' = nodeCount g
  /\ (forall k, In k (edgeSet g') <-> In k (edgeSet g))
  /\ edgeCount g' = edgeCount g
  /\ (forall e, In e (stored_edges g') <-> In e (stored_edges g))
  /\ (forall x e, In e (adj_of (adjacency g') x)
                  <-> In e (adj_of (adjacency g) x)).
Proof.
  intros Hreach. pose proof (reachable_wf Hreach) as [Hn He]. cbn zeta.
  unfold load. rewrite save_edges_stored.
  destruct (@save_edge_fold (stored_edges g) [] [] eq_refl (NoDup_nil _))
    as (Hseen & Hnd & Hsub & Hcov).
  set (L := snd (fold_left save_edge (stored_edges g) ([], []))) in *.
  rewrite Hseen in Hnd, Hcov.
  replace (sg_nodes (save g))
    with (map (fun kv : str * EntityNode => save_node (snd kv)) (nodes g))
    by reflexivity.
  destruct (load_nodes (nodes g) empty Hn) as (Hnodes & Hes0 & Hadj0).
  set (g0 := fold_left load_node _ empty) in *.
  destruct (load_edges L g0 Hnd) as (H1 & H2 & H3).
  { intros e _. rewrite Hes0. intros []. }
  set (g' := fold_left addRelationship L g0) in *.
  rewrite Hes0 in H2. cbn in H2, Hnodes.
  assert (Hadj : forall x e, In e (adj_of (adjacency g') x)
                             <-> In e (adj_of (adjacency g) x)).
  { intros x e. rewrite H3, Hadj0. cbn. split.
    - intros [[]|[HL Ht]].
      destruct (Hsub e HL) as [[]|Hst].
      apply (@stored_In _ _ (wf_adj_keys He)) in Hst as [y Hy].
      destruct (@wf_both _ _ He _ _ Hy) as [Hs Htg].
      destruct Ht as [<-|<-]; assumption.
    - intros Hin. right. split; [|eapply wf_incident; eauto].
      assert (Hk : In (edge_key e) (map edge_key L)).
      { apply Hcov. right. apply (@stored_In _ _ (wf_adj_keys He)). eauto. }
      apply in_map_iff in Hk as [e' [Hk He']].
      destruct (Hsub e' He') as [[]|Hst].
      apply (@stored_In _ _ (wf_adj_keys He)) in Hst as [y Hy].
      now rewrite <- (@wf_key_inj _ _ He _ _ _ _ Hy Hin Hk). }
  assert (Hkeys : forall k, In k (edgeSet g') <-> In k (edgeSet g)).
  { intros k. rewrite H2, (wf_keys He). split.
    - intros Hk. apply in_map_iff in Hk as [e [<- HL]].
      destruct (Hsub e HL) as [[]|Hst].
      apply (@stored_In _ _ (wf_adj_keys He)) in Hst as [y Hy]. eauto.
    - intros [e [x [Hin <-]]]. apply Hcov. right.
      apply (@stored_In _ _ (wf_adj_keys He)). eauto. }
  assert (Hwf' : wf g').
  { apply fold_wf; [intros; now apply addRelationship_wf|].
    apply fold_wf; [intros; now apply load_node_wf | apply empty_wf]. }
  repeat split.
  - now rewrite H1.
  - unfold nodeCount. now rewrite H1, Hnodes.
  - apply Hkeys.
  - apply Hkeys.
  - unfold edgeCount. apply Permutation_length. apply NoDup_Permutation.
    + rewrite H2. exact Hnd.
    + apply (wf_edgeSet He).
    + exact Hkeys.
  - unfold stored_edges. intros Hin.
    apply (@stored_In _ _ (wf_adj_keys (proj2 Hwf'))) in Hin as [x Hx].
    apply (@stored_In _ _ (wf_adj_keys He)). exists x. now apply Hadj.
  - unfold stored_edges. intros Hin.
    apply (@stored_In _ _ (wf_adj_keys He)) in Hin as [x Hx].
    apply (@stored_In _ _ (wf_adj_keys (proj2 Hwf'))). exists x. now apply Hadj.
  - apply Hadj.
  - apply Hadj.
Qed.

End GraphFacts.

(* ================================================================== *)
(** ** Entities stored by [addEntity] *)

Module EntityFacts.
Import JS JSFacts Graph GraphFacts.

(** One call [addEntity(name, type, summary, sessionId)]. *)
Record call := { c_name : str; c_type : str; c_summary : str; c_session : str }.

Definition apply_call (g : EntityGraph) (c : call) : EntityGraph :=
  addEntity g (c_name c) (c_type c) (c_summary c) (c_session c).

(** The graph after a sequence of calls on a new graph. *)
Definition run (calls : list call) : EntityGraph := fold_left apply_call calls empty.

Definition lowercase (s : str) : Prop := toLowerCase s = s.

Lemma lower_unit_idem c : lower_unit (lower_unit c) = lower_unit c.
Proof.
  unfold lower_unit.
  destruct ((65 <=? c) && (c <=? 90))%N eqn:E; [|now rewrite E].
  apply andb_true_iff in E as [H1 H2].
  apply N.leb_le in H1, H2.
  replace ((65 <=? c + 32) && (c + 32 <=? 90))%N with false; [reflexivity|].
  symmetry. apply andb_false_iff. right. apply N.leb_gt. lia.
Qed.

Lemma toLowerCase_lowercase s : lowercase (toLowerCase s).
Proof.
  unfold lowercase, toLowerCase. rewrite map_map.
  apply map_ext. intros; apply lower_unit_idem.
Qed.

Lemma substring0_length s n : (List.length (substring0 s n) <= n)%nat.
Proof. unfold substring0. rewrite length_firstn. lia. Qed.

(** The merge keeps the stored summary or cuts the concatenation at 500. *)
Lemma merge_summary_cases old new :
  merge_summary old new = old \/ (List.length (merge_summary old new) <= 500)%nat.
Proof.
  unfold merge_summary.
  destruct (truthy new && negb (includes old (substring0 new 40))); [right|now left].
  apply substring0_length.
Qed.

(** What holds of every node after any sequence of calls. *)
Definition node_ok (calls : list call) (k : str) (n : EntityNode) : Prop :=
  name n = k
  /\ lowercase (type n)
  /\ ((List.length (summary n) <= 500)%nat
      \/ exists c, In c calls /\ summary n = c_summary c).

Lemma node_ok_more calls c k n : node_ok calls k n -> node_ok (calls ++ [c]) k n.
Proof.
  intros (H1 & H2 & [H3|[c' [Hin H3]]]); repeat split; auto.
  right. exists c'. split; [apply in_app_iff; now left | exact H3].
Qed.

Lemma run_snoc calls c : run (calls ++ [c]) = apply_call (run calls) c.
Proof. unfold run. now rewrite fold_left_app. Qed.

Lemma run_nodes_ok calls : forall k n, In (k, n) (nodes (run calls)) -> node_ok calls k n.
Proof.
  induction calls as [|c calls IH] using rev_ind; intros k n Hin.
  - destruct Hin.
  - rewrite run_snoc in Hin. unfold apply_call, addEntity in Hin.
    destruct (truthy (trim (c_name c))); cbn in Hin;
      [|now apply node_ok_more, IH].
    apply map_set_In in Hin as [Hin|Hin]; [|now apply node_ok_more, IH].
    inversion Hin; subst k n; clear Hin.
    destruct (map_get (trim (c_name c)) (nodes (run calls))) as [old|] eqn:E.
    + apply map_get_In in E. apply IH in E. apply (node_ok_more c) in E.
      destruct E as (H1 & H2 & H3). repeat split; cbn; auto.
      destruct (merge_summary_cases (summary old) (c_summary c)) as [->|Hle];
        [exact H3 | now left].
    + repeat split; cbn; [apply toLowerCase_lowercase|].
      right. exists c. split; [apply in_app_iff; right; now left|reflexivity].
Qed.

Lemma run_wf calls : wf (run calls).
Proof.
  unfold run. apply fold_wf; [|apply empty_wf].
  intros g c Hg. now apply addEntity_wf.
Qed.

(** Names are unique, the name of a node is its key, and every type is
    lowercase. *)
Lemma run_names_unique_types_lowercase calls :
  NoDup (map fst (nodes (run calls)))
  /\ forall k n, In (k, n) (nodes (run calls)) -> name n = k /\ lowercase (type n).
Proof.
  split.
  - apply (wf_node_keys (proj1 (run_wf calls))).
  - intros k n Hin. destruct (run_nodes_ok calls k n Hin) as (H1 & H2 & _). auto.
Qed.

(** A repeated name merges into the existing node. *)
Lemma addEntity_repeated_name g n t s sid old :
  truthy (trim n) = true ->
  map_get (trim n) (nodes g) = Some old ->
  nodeCount (addEntity g n t s sid) = nodeCount g
  /\ map_get (trim n) (nodes (addEntity g n t s sid))
     = Some {| name := name old; type := type old;
               summary := merge_summary (summary old) s;
               sessionIds := set_add sid (sessionIds old) |}.
Proof.
  intros Et Hold. unfold addEntity, nodeCount. rewrite Et; cbn.
  rewrite Hold, map_set_length, map_get_set_same.
  unfold map_has. now rewrite Hold.
Qed.

(** A summary of 501 code units. *)
Definition long_summary : str := repeat 120%N 501.

(** C4: a first [addEntity] for a name stores the summary as given; a
    summary of 501 code units is kept whole, in the in-memory graph and
    in the relational store alike (only the merge into an existing node
    cuts at 500). *)
Theorem addEntity_new_node_keeps_long_summary :
  nodes (addEntity empty (lit "Alice") (lit "Person") long_summary (lit "s1"))
  = [(lit "Alice",
      {| name := lit "Alice"; type := lit "person";
         summary := long_summary; sessionIds := [lit "s1"] |})]
  /\ Pg.rag_entities
       (Pg.addEntity Pg.empty (lit "t") (lit "Alice") (lit "Person")
          long_summary (lit "s1"))
     = [{| Pg.n_container_tag := lit "t"; Pg.n_name := lit "Alice";
           Pg.n_type := lit "person"; Pg.n_summary := long_summary;
           Pg.n_session_ids := [lit "s1"] |}]
  /\ JS.length long_summary = 501.
Proof. repeat split; vm_compute; reflexivity. Qed.

End EntityFacts.

(* ================================================================== *)
(** ** Scores of the hybrid search *)

Module SearchFacts.
Import JS SearchTypes Pg.
Local Open Scope Q_scope.

Section Sorting.
Variables (A : Type) (key : A -> num).

Definition descending : list A -> Prop :=
  StronglySorted (fun a b => key b <= key a).

Lemma insert_desc_perm x l : Permutation (insert_desc key x l) (x :: l).
Proof.
  induction l as [|y l IH]; cbn; [reflexivity|].
  destruct (Qlt_le_dec (key x) (key y)); [|reflexivity].
  rewrite IH. apply perm_swap.
Qed.

Lemma sort_desc_perm l : Permutation (sort_desc key l) l.
Proof.
  induction l as [|x l IH]; cbn; [reflexivity|].
  rewrite insert_desc_perm. now constructor.
Qed.

Lemma insert_desc_sorted x l : descending l -> descending (insert_desc key x l).
Proof.
  induction 1 as [|y l Hs IH Hall]; cbn.
  - repeat constructor.
  - destruct (Qlt_le_dec (key x) (key y)) as [Hlt|Hle].
    + constructor; [exact IH|].
      eapply Permutation_Forall; [symmetry; apply insert_desc_perm|].
      constructor; [now apply Qlt_le_weak | exact Hall].
    + constructor; [now constructor|].
      constructor; [exact Hle|].
      eapply Forall_impl; [|exact Hall].
      intros z Hz. cbn in Hz. eapply Qle_trans; eassumption.
Qed.

Lemma sort_desc_sorted l : descending (sort_desc key l).
Proof.
  induction l as [|x l IH]; cbn; [constructor | now apply insert_desc_sorted].
Qed.
End Sorting.

Section Contract.
Variable cosine_distance : list num -> list num -> num.
Variable ts_match : str -> str -> bool.
Variable ts_rank : str -> str -> num.

(** The cosine distance of pgvector is [1 - cos], between 0 and 2. *)
Hypothesis cosine_distance_range : forall a b, 0 <= cosine_distance a b <= 2.
(** [ts_rank] is never negative. *)
Hypothesis ts_rank_nonneg : forall c q, 0 <= ts_rank c q.

Lemma max_bm25_from rows : forall m0,
  let m := fold_left
             (fun m row => if Qlt_le_dec m (bm25_score row) then bm25_score row else m)
             rows m0 in
  m0 <= m
  /\ (forall row, In row rows -> bm25_score row <= m)
  /\ (m = m0 \/ exists row, In row rows /\ m = bm25_score row).
Proof.
  induction rows as [|r rows IH]; intros m0; cbn zeta; cbn [fold_left].
  - split; [apply Qle_refl|]. split; [intros ? []|now left].
  - destruct (Qlt_le_dec m0 (bm25_score r)) as [Hlt|Hle].
    + destruct (IH (bm25_score r)) as (H1 & H2 & H3). repeat split.
      * eapply Qle_trans; [apply Qlt_le_weak; exact Hlt | exact H1].
      * intros row [<-|Hin]; auto.
      * right. destruct H3 as [->|[row [Hin ->]]];
          [exists r; split; [now left|reflexivity]
          |exists row; split; [now right|reflexivity]].
    + destruct (IH m0) as (H1 & H2 & H3). repeat split.
      * exact H1.
      * intros row [<-|Hin]; auto. eapply Qle_trans; eassumption.
      * destruct H3 as [->|[row [Hin ->]]]; [now left|].
        right. exists row; split; [now right|reflexivity].
Qed.

Lemma max_bm25_spec rows :
  0 <= max_bm25 rows
  /\ (forall row, In row rows -> bm25_score row <= max_bm25 rows)
  /\ (max_bm25 rows = 0 \/ exists row, In row rows /\ max_bm25 rows = bm25_score row).
Proof. apply (max_bm25_from rows 0). Qed.

Lemma normalized_range m raw : 0 <= raw -> raw <= m -> 0 <= normalized m raw <= 1.
Proof.
  intros H0 Hm. unfold normalized.
  destruct (Qlt_le_dec 0 m) as [Hpos|_]; [|split; [apply Qle_refl|discriminate]].
  split.
  - apply Qle_shift_div_l; [exact Hpos|]. now rewrite Qmult_0_l.
  - apply Qle_shift_div_r; [exact Hpos|]. now rewrite Qmult_1_l.
Qed.

Lemma query_rows_scores db tag qe q limit row :
  In row (query_rows cosine_distance ts_match ts_rank db tag qe q limit) ->
  -1 <= vector_score row <= 1 /\ 0 <= bm25_score row.
Proof.
  unfold query_rows. intros Hin. apply in_map_iff in Hin as [v [<- _]]. cbn.
  pose proof (cosine_distance_range (c_embedding v) qe) as [Hlo Hhi].
  split; [split|].
  - lra.
  - lra.
  - unfold joined_bm25. destruct (find _ _); [apply ts_rank_nonneg|apply Qle_refl].
Qed.

Lemma rank_rows_In rows r :
  In r (rank_rows rows) -> exists row, In row rows /\ r = fuse (max_bm25 rows) row.
Proof.
  unfold rank_rows. destruct rows as [|r0 rows0]; [intros []|].
  set (rows := r0 :: rows0). intros Hin.
  apply (Permutation_in _ (sort_desc_perm score _)) in Hin.
  apply in_map_iff in Hin as [row [<- Hrow]]. eauto.
Qed.

Lemma rank_rows_perm rows :
  Permutation (rank_rows rows) (map (fuse (max_bm25 rows)) rows).
Proof.
  unfold rank_rows. destruct rows; [reflexivity|]. apply sort_desc_perm.
Qed.

Lemma rank_rows_sorted rows : descending score (rank_rows rows).
Proof.
  unfold rank_rows. destruct rows; [constructor|]. apply sort_desc_sorted.
Qed.

(** C2, as the store computes it: every result of the hybrid search
    has [-1 <= vectorScore <= 1] (one minus the cosine distance, so
    negative when the cosine of query and chunk is negative),
    [0 <= bm25Score <= 1] and [score = 0.7 * vectorScore + 0.3 *
    bm25Score], where [bm25Score] is the lexical score of its row
    divided by the largest lexical score among the rows of the result
    set, or 0 when none is positive; the results are the fused rows
    sorted by descending score. *)
Theorem search_score_contract db containerTag queryEmbedding query limit :
  let rows := query_rows cosine_distance ts_match ts_rank
                db containerTag queryEmbedding query limit in
  let results := search cosine_distance ts_match ts_rank
                   db containerTag queryEmbedding query limit in
  (forall r, In r results ->
     -1 <= vectorScore r <= 1
     /\ 0 <= bm25Score r <= 1
     /\ score r = (7 # 10) * vectorScore r + (3 # 10) * bm25Score r
     /\ exists row, In row rows
          /\ vectorScore r = vector_score row
          /\ bm25Score r
             = if Qlt_le_dec 0 (max_bm25 rows)
               then bm25_score row / max_bm25 rows else 0)
  /\ (forall row, In row rows -> bm25_score row <= max_bm25 rows)
  /\ (max_bm25 rows = 0
      \/ exists row, In row rows /\ max_bm25 rows = bm25_score row)
  /\ descending score results
  /\ Permutation results (map (fuse (max_bm25 rows)) rows).
Proof.
  cbn zeta. unfold search.
  set (rows := query_rows _ _ _ db containerTag queryEmbedding query limit).
  destruct (max_bm25_spec rows) as (Hm0 & Hmax & Hatt).
  split; [|split; [exact Hmax|split; [exact Hatt|split]]].
  - intros r Hin. apply rank_rows_In in Hin as [row [Hrow ->]].
    destruct (query_rows_scores _ _ _ _ _ _ Hrow) as [Hv Hb].
    cbn. split; [exact Hv|]. split; [now apply normalized_range, Hmax|].
    split; [reflexivity|]. exists row. now repeat split.
  - apply rank_rows_sorted.
  - apply rank_rows_perm.
Qed.
End Contract.

(** An instance of the operators, for running the store: the cosine
    distance of two vectors on the first axis (every component but the
    first is zero) is 0 when they point the same way and 2 when they are
    opposite; the lexical match is containment of the query text, with
    the length of the content as rank. *)
Definition all_zero (v : list num) : bool :=
  forallb (fun x => if Qeq_dec x 0 then true else false) v.

Definition axis_distance (a b : list num) : num :=
  match a, b with
  | x :: a', y :: b' =>
      if all_zero a' && all_zero b' then
        if Qlt_le_dec 0 (x * y) then 0
        else if Qlt_le_dec (x * y) 0 then 2 else 1
      else 1
  | _, _ => 1
  end.

Definition contains_match (content query : str) : bool := includes content query.

Definition length_rank (content query : str) : num :=
  inject_Z (JS.length content) / 100.

Lemma axis_distance_range a b : 0 <= axis_distance a b <= 2.
Proof.
  unfold axis_distance. destruct a, b; try (split; discriminate).
  destruct (all_zero a && all_zero b); [|split; discriminate].
  destruct (Qlt_le_dec 0 _); [split; discriminate|].
  destruct (Qlt_le_dec _ 0); split; discriminate.
Qed.

Lemma length_rank_nonneg c q : 0 <= length_rank c q.
Proof.
  unfold length_rank. apply Qle_shift_div_l; [reflexivity|].
  rewrite Qmult_0_l. unfold JS.length.
  change 0 with (inject_Z 0). rewrite <- Zle_Qle. lia.
Qed.

Definition mk_chunk (i : Z) (text : string) (e : list num) : Chunk :=
  {| id := lit "t_s1_" ++ [(48 + Z.to_N i)%N]; content := lit text;
     sessionId := lit "s1"; chunkIndex := i; embedding := e;
     date := Some (lit "2024-05-10"); eventDate := None; metadata := None |}.

(** Two chunks: one along the query embedding, one opposite to it. *)
Definition two_chunks : Db :=
  addChunks Pg.empty (lit "t")
    [mk_chunk 0 "user met Alice in Berlin" [1; 0];
     mk_chunk 1 "user talked about travel" [-1; 0]].

Definition two_chunks_search : list SearchResult :=
  search axis_distance contains_match length_rank two_chunks
    (lit "t") [1; 0] (lit "Alice") 10.

(** The claim as stated ([0 <= vectorScore]) fails on the chunk whose
    embedding is opposite to the query embedding. *)
Lemma search_vectorScore_negative :
  ~ (forall r, In r two_chunks_search ->
       0 <= vectorScore r <= 1 /\ 0 <= bm25Score r <= 1
       /\ score r = (7 # 10) * vectorScore r + (3 # 10) * bm25Score r).
Proof.
  intros H.
  assert (Hin : exists r, In r two_chunks_search /\ vectorScore r = 1 - 2).
  { eexists. split; [right; left; vm_compute; reflexivity | reflexivity]. }
  destruct Hin as [r [Hin Hv]].
  destruct (H r Hin) as [[Hlo _] _]. rewrite Hv in Hlo.
  vm_compute in Hlo. now apply Hlo.
Qed.

Lemma search_score_contract_witness :
  Forall (fun r => -1 <= vectorScore r <= 1
                   /\ 0 <= bm25Score r <= 1
                   /\ score r = (7 # 10) * vectorScore r + (3 # 10) * bm25Score r)
    two_chunks_search.
Proof.
  apply Forall_forall. intros r Hin.
  destruct (@search_score_contract axis_distance contains_match length_rank
              axis_distance_range length_rank_nonneg
              two_chunks (lit "t") [1; 0] (lit "Alice") 10%nat)
    as [H _].
  destruct (H r Hin) as (H1 & H2 & H3 & _). auto.
Defined.

End SearchFacts.

(* ================================================================== *)
(** ** Worked graphs *)

Module GraphExamples.
Import JS JSFacts Graph GraphFacts TraversalFacts.

Definition edge (s r t : string) : RelationshipEdge :=
  {| source := lit s; target := lit t; relation := lit r;
     date := None; sessionId := lit "s1" |}.

Definition person (g : EntityGraph) (n : string) : EntityGraph :=
  addEntity g (lit n) (lit "Person") (lit n ++ lit " is a person") (lit "s1").

(** Alice, Bob and Acme, with Alice married to Bob and working at Acme. *)
Definition scenario_graph : EntityGraph :=
  addRelationship
    (addRelationship
       (addEntity (person (person empty "Alice") "Bob")
          (lit "Acme") (lit "Organization") (lit "Acme is a company") (lit "s1"))
       (edge "Alice" "married_to" "Bob"))
    (edge "Alice" "works_at" "Acme").

Example scenario_context :
  map e_name (entities (getContext scenario_graph [lit "Alice"] 2))
  = [lit "Alice"; lit "Bob"; lit "Acme"]
  /\ map r_relation (relationships (getContext scenario_graph [lit "Alice"] 2))
     = [lit "married_to"; lit "works_at"]
  /\ findEntitiesInQuery scenario_graph (lit "tell me about Alice") = [lit "Alice"].
Proof. repeat split; vm_compute; reflexivity. Qed.

Lemma load_save_roundtrip_witness :
  reachable scenario_graph
  /\ nodes (load (save scenario_graph)) = nodes scenario_graph
  /\ edgeCount (load (save scenario_graph)) = edgeCount scenario_graph.
Proof.
  assert (H : reachable scenario_graph) by (repeat constructor).
  split; [exact H|].
  destruct (load_save_roundtrip H) as (Hn & _ & _ & Hc & _).
  split; [exact Hn | exact Hc].
Defined.

(** The order inside an adjacency list is not part of the round trip:
    after [K-Y], [X-Z], [K-X] the list of [X] is [X-Z; K-X], and after
    [save] and [load] it is [K-X; X-Z]. *)
Definition three_edges : EntityGraph :=
  addRelationship
    (addRelationship (addRelationship empty (edge "K" "r" "Y")) (edge "X" "r" "Z"))
    (edge "K" "r" "X").

Remark load_save_reorders_adjacency :
  adj_of (adjacency three_edges) (lit "X") = [edge "X" "r" "Z"; edge "K" "r" "X"]
  /\ adj_of (adjacency (load (save three_edges))) (lit "X")
     = [edge "K" "r" "X"; edge "X" "r" "Z"].
Proof. split; vm_compute; reflexivity. Qed.

(** A hub with 25 neighbours, every one of them a node. *)
Definition spoke (i : nat) : str := lit "n" ++ [(65 + N.of_nat i)%N].

Definition star : EntityGraph :=
  fold_left
    (fun g i =>
       addRelationship
         (addEntity g (spoke i) (lit "object") (lit "a spoke") (lit "s1"))
         {| source := lit "hub"; target := spoke i; relation := lit "has";
            date := None; sessionId := lit "s1" |})
    (seq 0 25)
    (addEntity empty (lit "hub") (lit "object") (lit "the hub") (lit "s1")).




End GraphExamples.

(* ================================================================== *)
(** ** Lines accepted by the extraction parser *)

Module ExtractionFacts.
Import JS JSFacts Extraction.

Definition count (c : N) (s : str) : nat := count_occ N.eq_dec s c.

Lemma truthy_iff s : truthy s = true <-> s <> [].
Proof. destruct s; cbn; split; congruence. Qed.


Lemma trimStart_nil s : trimStart s = [] <-> Forall (fun c => is_ws c = true) s.
Proof.
  induction s as [|c s IH]; cbn.
  - split; constructor.
  - destruct (is_ws c) eqn:E.
    + rewrite IH. split; [now constructor | now inversion 1].
    + split; [discriminate | inversion 1; congruence].
Qed.

Lemma trimStart_In x s : In x (trimStart s) -> In x s.
Proof.
  induction s as [|c s IH]; cbn; [tauto|].
  destruct (is_ws c); [right; now apply IH | tauto].
Qed.

Lemma trimStart_keeps x s : In x s -> is_ws x = false -> In x (trimStart s).
Proof.
  induction s as [|c s IH]; cbn; [tauto|].
  intros [->|Hin] Hx; [now rewrite Hx; left|].
  destruct (is_ws c); [now apply IH | now right].
Qed.

Lemma trim_In x s : In x (trim s) -> In x s.
Proof.
  unfold trim, trimEnd. intros H. apply in_rev in H.
  apply trimStart_In in H. apply in_rev in H. now apply trimStart_In in H.
Qed.

Lemma trim_keeps x s : In x s -> is_ws x = false -> In x (trim s).
Proof.
  intros Hin Hx. unfold trim, trimEnd. apply in_rev. rewrite rev_involutive.
  apply trimStart_keeps; [|exact Hx]. apply in_rev. rewrite rev_involutive.
  now apply trimStart_keeps.
Qed.

Lemma split_shape c s : exists f fs, split c s = f :: fs.
Proof.
  induction s as [|d s [f [fs IH]]]; cbn; [now eexists; eexists|].
  destruct (d =? c)%N; [now eexists; eexists|]. rewrite IH. now eexists; eexists.
Qed.


Lemma split_no_sep c s : Forall (fun f => ~ In c f) (split c s).
Proof.
  induction s as [|d s IH]; cbn; [repeat constructor; intros []|].
  destruct (N.eqb_spec d c) as [->|Hne].
  - constructor; [intros []|exact IH].
  - destruct (split_shape c s) as [f [fs E]]. rewrite E in *.
    inversion IH; subst. constructor; [|assumption].
    intros [H|H]; [congruence|contradiction].
Qed.

Lemma join_split c s : join [c] (split c s) = s.
Proof.
  induction s as [|d s IH]; cbn; [reflexivity|].
  destruct (N.eqb_spec d c) as [->|Hne].
  - destruct (split_shape c s) as [f [fs E]]. rewrite E in *. cbn.
    now rewrite <- IH.
  - destruct (split_shape c s) as [f [fs E]]. rewrite E in *.
    rewrite <- IH. now destruct fs.
Qed.










Lemma keep_some_In (A B : Type) (f : A -> option B) l b :
  In b (keep_some f l) <-> exists a, In a l /\ f a = Some b.
Proof.
  induction l as [|a l IH]; cbn.
  - split; [intros [] | intros [a [[] _]]].
  - destruct (f a) as [b'|] eqn:E; cbn; rewrite IH; split.
    + intros [<-|[a' [Hin Ha']]]; eauto.
    + intros [a' [[<-|Hin] Ha']]; [left; congruence | right; eauto].
    + intros [a' [Hin Ha']]; eauto.
    + intros [a' [[<-|Hin] Ha']]; [congruence | eauto].
Qed.




End ExtractionFacts.

(* ================================================================== *)
(** ** Matching up to case *)

Module RegexFacts.
Import JS Regex.





Section Lowering.
Variable s : str.




End Lowering.

End RegexFacts.

(* ================================================================== *)
(** ** The query-type classifier *)

Module ClassifierFacts.
Import JS Regex RegexFacts Reranker.

(** The classes in priority order, each with the patterns the glossary
    of the specification gives for it. *)
Definition glossary : list (QueryType * list re) :=
  [ (Temporal,
     [compile "\b(when|what (date|time|day|month|year)|how long ago|how recently|last time|first time|before|after)\b"]);
    (KnowledgeUpdate,
     [compile "\b(change|update|move|switch|new|current|now|still|anymore|used to|latest)\b"]);
    (MultiHop,
     [compile "\bwhat .+ (of|for) .+ (the|my|a) .+\b";
      compile "\b\w+'s \w+'s\b"]);
    (Preference,
     [compile "\b(favorite|prefer|like|enjoy|love|hate|dislike|opinion)\b"]);
    (AssistantRecall,
     [compile "\b(you (said|told|recommended|suggested|mentioned)|did you|your (advice|recommendation|suggestion))\b"]);
    (Factual,
     [compile "\b(who|what|where|which|name|tell me about)\b"]) ].



Lemma glossary_parses :
  forallb (fun entry => forallb (fun r => match r with Never => false | _ => true end)
                          (snd entry)) glossary = true.
Proof. vm_compute. reflexivity. Qed.


Example detectQueryType_examples :
  map (fun q => detectQueryType (lit q))
    ["When did I buy it?"; "What is my NEW address";
     "what is the name of the dog for my a b"; "my sister's friend's car";
     "I like pizza"; "Did you say so"; "tell me about Alice";
     "hello there"; "whenever"]%string
  = [Temporal; KnowledgeUpdate; MultiHop; MultiHop; Preference;
     AssistantRecall; Factual; General; General].
Proof. vm_compute. reflexivity. Qed.

End ClassifierFacts.

(* ================================================================== *)
(** ** The reranker fallback *)

Module RerankFacts.
Import JS SearchTypes Reranker.
Local Open Scope Q_scope.

(** A reply the driver cannot use: the call threw, the text holds no
    [[...]] block, or the block does not parse. *)
Definition unusable (parseScores : str -> option (list RerankScore))
    (r : reply) : Prop :=
  match r with
  | Throws => True
  | Text text =>
      match json_block text with
      | None => True
      | Some block => parseScores block = None
      end
  end.

Lemma arr_slice_prefix (A : Type) (l : list A) (k : Z) :
  (0 <= k <= JS.length l)%Z -> arr_slice l 0 k = firstn (Z.to_nat k) l.
Proof.
  intros [H0 Hk]. unfold arr_slice, rel_index, JS.length in *.
  replace (0 <? 0)%Z with false by reflexivity.
  replace (k <? 0)%Z with false by (symmetry; apply Z.ltb_ge; lia).
  rewrite Z.min_l, Z.min_l by lia. cbn [Z.to_nat skipn].
  now rewrite Z.sub_0_r.
Qed.

Section Fallback.
Variable generateText : str -> nat -> reply.
Variable parseScores : str -> option (list RerankScore).

Lemma attempt_body_unusable prompt results topK n :
  unusable parseScores (generateText prompt n) ->
  attempt_body generateText parseScores prompt results topK n
  = retry_or_fallback results topK n.
Proof.
  unfold attempt_body, unusable.
  destruct (generateText prompt n) as [|text]; [reflexivity|].
  destruct (json_block text) as [block|]; [|reflexivity].
  now intros ->.
Qed.

(** C6: when the candidate list has more than [topK] elements and each
    of the three calls of the reranker model throws or returns a text
    with no parseable [[...]] block, [rerankResults] returns the first
    [topK] candidates, in their order and unchanged; it made the two
    waits of 1000 and 2000 ms between the attempts, and no exception
    escapes (the driver is a total function of the replies). *)
Theorem rerank_fallback (query : str) (results : list SearchResult) (topK : Z) :
  (0 <= topK)%Z ->
  (topK < JS.length results)%Z ->
  (forall prompt n, (n < 3)%nat -> unusable parseScores (generateText prompt n)) ->
  rerankResults generateText parseScores query results topK
  = firstn (Z.to_nat topK) results
  /\ fst (rerankResults_trace generateText parseScores query results topK)
     = [1000; 2000]%Z.
Proof.
  intros H0 Hk Hbad. unfold rerankResults, rerankResults_trace.
  replace (JS.length results <=? topK)%Z with false
    by (symmetry; apply Z.leb_gt; exact Hk).
  set (prompt := buildPrompt query (detectQueryType query) results).
  cbn [attempts].
  rewrite !attempt_body_unusable by (apply Hbad; lia).
  cbn. rewrite arr_slice_prefix by lia. split; reflexivity.
Qed.
End Fallback.

Definition hit (i : Z) (text : string) (sc : num) : SearchResult :=
  {| r_content := lit text; score := sc; vectorScore := sc; bm25Score := 0;
     rerankScore := None; r_sessionId := lit "s1"; r_chunkIndex := i;
     r_date := None; r_eventDate := None; r_metadata := None |}.

Definition three_hits : list SearchResult :=
  [hit 0 "first" (9 # 10); hit 1 "second" (8 # 10); hit 2 "third" (7 # 10)].

(** A model that throws, then answers without a block, then answers
    with a block that is not JSON. *)
Definition failing_model (prompt : str) (attempt : nat) : reply :=
  match attempt with
  | O => Throws
  | S O => Text (lit "I cannot score these passages.")
  | _ => Text (lit "scores: [first, second]")
  end.

(** A parser that reads the empty array only. *)
Definition parse_empty_array (block : str) : option (list RerankScore) :=
  if str_eqb block (lit "[]") then Some [] else None.

Lemma rerank_fallback_witness :
  rerankResults failing_model parse_empty_array (lit "what camera") three_hits 2
  = [hit 0 "first" (9 # 10); hit 1 "second" (8 # 10)].
Proof.
  refine (proj1 (@rerank_fallback failing_model parse_empty_array
                   (lit "what camera") three_hits 2 _ _ _)).
  - lia.
  - vm_compute. reflexivity.
  - intros prompt n Hn.
    destruct n as [|[|[|n]]]; [exact I | exact I | vm_compute; reflexivity | lia].
Defined.

(** Outside the claim: a reply whose block parses, were it the empty
    array, is a success; the candidates keep their order but their
    scores are replaced. *)
Remark rerank_empty_array_rescored :
  map score
    (rerankResults (fun _ _ => Text (lit "[]")) parse_empty_array
       (lit "what camera") three_hits 2)
  = [0 / 10; 0 / 10]%Q.
Proof. vm_compute. reflexivity. Qed.

End RerankFacts.

(* ================================================================== *)
(** ** [clear] and the snapshot on disk *)

Module ProviderFacts.
Import JS JSFacts SearchTypes Provider.
Local Open Scope Q_scope.

Lemma map_get_delete (V : Type) (k : str) (m : omap V) :
  map_get k (map_delete k m) = None.
Proof.
  induction m as [|[k' v] m IH]; cbn; [reflexivity|].
  destruct (str_eqb k' k) eqn:E; [exact IH|]. cbn. now rewrite E.
Qed.

Lemma arr_slice_nil (A : Type) (a b : Z) : arr_slice (@nil A) a b = [].
Proof. unfold arr_slice. now rewrite skipn_nil, firstn_nil. Qed.

Section Calls.
Variable extractMemories : UnifiedSession -> option str.
Variable embedMany : list str -> nat -> option (list (list num)).
Variable embed : str -> nat -> option (list num).
Variable generateText : str -> nat -> Reranker.reply.
Variable parseScores : str -> option (list Reranker.RerankScore).
Variable cosine : list num -> list num -> num.
Variable lexical : str -> str -> num.

Lemma attempts_nil left : forall attempt prompt topK,
  snd (Reranker.attempts generateText parseScores left attempt prompt [] topK) = [].
Proof.
  induction left as [|left IH]; intros attempt prompt topK; cbn.
  - apply arr_slice_nil.
  - unfold Reranker.attempt_body, Reranker.retry_or_fallback,
      Reranker.reranked.
    destruct (generateText prompt attempt) as [|text].
    + destruct (attempt <? 2)%nat; cbn; [|apply arr_slice_nil].
      specialize (IH (S attempt) prompt topK).
      destruct (Reranker.attempts _ _ left (S attempt) prompt [] topK); exact IH.
    + destruct (Reranker.json_block text) as [block|].
      * destruct (parseScores block) as [scores|].
        -- cbn. now rewrite arr_slice_nil.
        -- destruct (attempt <? 2)%nat; cbn; [|apply arr_slice_nil].
           specialize (IH (S attempt) prompt topK).
           destruct (Reranker.attempts _ _ left (S attempt) prompt [] topK);
             exact IH.
      * destruct (attempt <? 2)%nat; cbn; [|apply arr_slice_nil].
        specialize (IH (S attempt) prompt topK).
        destruct (Reranker.attempts _ _ left (S attempt) prompt [] topK);
          exact IH.
Qed.

Lemma rerank_nil query topK :
  Reranker.rerankResults generateText parseScores query [] topK = [].
Proof.
  unfold Reranker.rerankResults, Reranker.rerankResults_trace.
  destruct (JS.length [] <=? topK)%Z; [reflexivity|]. apply attempts_nil.
Qed.

(** With no [search.json] for the container, [clear] does what the
    claim says: the next [search] returns the empty list. *)
Lemma search_after_clear_without_snapshot st containerTag query limit qe :
  openai st = true ->
  search_json (cache_of (disk st) containerTag) = None ->
  with_retries 3 0 (embed query) = Some qe ->
  snd (search embed generateText parseScores cosine lexical
         (clear st containerTag) query containerTag limit)
  = Ok [].
Proof.
  intros Hinit Hdisk Hembed. unfold search.
  cbn [clear openai searchEngine]. rewrite Hinit. cbn [negb].
  assert (Hchunks : HybridSearch.chunks_of
                      (HybridSearch.clear (searchEngine st) containerTag)
                      containerTag = []).
  { unfold HybridSearch.chunks_of, HybridSearch.clear; cbn.
    now rewrite map_get_delete. }
  unfold HybridSearch.hasData. rewrite Hchunks.
  assert (Hload : loadFromCache (clear st containerTag) containerTag
                  = clear st containerTag).
  { unfold loadFromCache. cbn [clear disk]. now rewrite Hdisk. }
  rewrite Hload, Hembed.
  unfold HybridSearch.search. cbn [clear searchEngine]. rewrite Hchunks.
  cbn [map sort_desc fold_right]. rewrite firstn_nil. cbn [Pg.rank_rows].
  unfold graph_results. cbn [clear graphs]. rewrite map_get_delete.
  rewrite rerank_nil. now destruct (_ <? _)%Z.
Qed.

Lemma mapi_from_length (A B : Type) (f : nat -> A -> B) l : forall i,
  List.length (Reranker.mapi_from f i l) = List.length l.
Proof.
  induction l as [|a l IH]; intros i; cbn; [reflexivity|]. now rewrite IH.
Qed.

Lemma sort_desc_length (A : Type) (key : A -> num) l :
  List.length (sort_desc key l) = List.length l.
Proof. apply Permutation_length, SearchFacts.sort_desc_perm. Qed.

Lemma rank_rows_length rows :
  List.length (Pg.rank_rows rows) = List.length rows.
Proof.
  rewrite (Permutation_length (SearchFacts.rank_rows_perm rows)).
  apply length_map.
Qed.

Lemma attempts_length results topK : (0 <= topK <= JS.length results)%Z ->
  forall left attempt prompt,
    List.length
      (snd (Reranker.attempts generateText parseScores left attempt prompt
              results topK))
    = Z.to_nat topK.
Proof.
  intros Hk.
  assert (Hslice : List.length (arr_slice results 0 topK) = Z.to_nat topK).
  { rewrite RerankFacts.arr_slice_prefix by exact Hk.
    rewrite length_firstn. unfold JS.length in Hk. lia. }
  assert (Hrr : forall scores,
             List.length (Reranker.reranked scores results topK) = Z.to_nat topK).
  { intros scores. unfold Reranker.reranked. rewrite length_map.
    rewrite RerankFacts.arr_slice_prefix.
    - rewrite length_firstn, sort_desc_length.
      unfold Reranker.mapi. rewrite mapi_from_length.
      unfold JS.length in Hk. lia.
    - unfold JS.length in *. rewrite sort_desc_length.
      unfold Reranker.mapi. now rewrite mapi_from_length. }
  induction left as [|left IH]; intros attempt prompt; cbn; [exact Hslice|].
  unfold Reranker.attempt_body, Reranker.retry_or_fallback.
  specialize (IH (S attempt) prompt).
  destruct (generateText prompt attempt) as [|text];
    [|destruct (Reranker.json_block text) as [block|];
      [destruct (parseScores block) as [scores|]|]];
    try (cbn; apply Hrr);
    (destruct (attempt <? 2)%nat; cbn; [|exact Hslice];
     destruct (Reranker.attempts _ _ left (S attempt) prompt results topK);
     exact IH).
Qed.

(** With a snapshot of the container on disk, the [search] that follows
    [clear] returns chunk results again, whatever the engine held. *)
Lemma search_after_clear_with_snapshot st containerTag query qe c cs :
  openai st = true ->
  search_json (cache_of (disk st) containerTag) = Some (c :: cs) ->
  with_retries 3 0 (embed query) = Some qe ->
  exists r rs,
    snd (search embed generateText parseScores cosine lexical
           (clear st containerTag) query containerTag None)
    = Ok (ChunkResult r :: rs).
Proof.
  intros Hinit Hdisk Hembed. unfold search.
  cbn [clear openai searchEngine]. rewrite Hinit. cbn [negb].
  assert (Hchunks : HybridSearch.chunks_of
                      (HybridSearch.clear (searchEngine st) containerTag)
                      containerTag = []).
  { unfold HybridSearch.chunks_of, HybridSearch.clear; cbn.
    now rewrite map_get_delete. }
  unfold HybridSearch.hasData. rewrite Hchunks.
  unfold loadFromCache. cbn [clear disk]. rewrite Hdisk, Hembed.
  cbn [searchEngine snd].
  match goal with
  | |- context [HybridSearch.search cosine lexical ?e containerTag qe query ?n] =>
      set (hybrid := HybridSearch.search cosine lexical e containerTag qe query n);
      assert (Hlen : (0 < List.length hybrid)%nat)
  end.
  { subst hybrid. unfold HybridSearch.search.
    rewrite rank_rows_length, length_firstn, sort_desc_length, length_map.
    unfold HybridSearch.chunks_of, HybridSearch.load; cbn [HybridSearch.containers].
    rewrite map_get_set_same. cbn. lia. }
  match goal with
  | |- context [map ChunkResult ?fc] =>
      assert (Hfinal : (0 < List.length fc)%nat)
  end.
  { destruct (Z.ltb_spec 10 (JS.length hybrid)) as [Hgt|_]; [|exact Hlen].
    unfold Reranker.rerankResults, Reranker.rerankResults_trace.
    replace (JS.length hybrid <=? 10)%Z with false
      by (symmetry; apply Z.leb_gt; exact Hgt).
    rewrite attempts_length by lia. lia. }
  match goal with
  | |- context [map ChunkResult ?fc] => destruct fc as [|r rs]
  end; [cbn in Hfinal; lia|].
  cbn. eauto.
Qed.
End Calls.

(** *** A run: ingest, clear, search *)

Definition session1 : UnifiedSession :=
  {| sessionId := lit "s1";
     meta_date := Some (lit "2024-05-10T09:00:00Z");
     meta_rest := lit "source=test" |}.

(** The text the extraction call returns for the session. *)
Definition extraction1 : str :=
  lit "<memories>" ++ [NL]
  ++ lit "[2024-05-09] User got a Sony A7 camera." ++ [NL]
  ++ lit "</memories>" ++ [NL]
  ++ lit "<entities>" ++ [NL]
  ++ lit "User|person|owns a camera" ++ [NL]
  ++ lit "Sony A7|object|a camera the user owns" ++ [NL]
  ++ lit "</entities>" ++ [NL]
  ++ lit "<relationships>" ++ [NL]
  ++ lit "User|owns|Sony A7|2024-05-09" ++ [NL]
  ++ lit "</relationships>".

Definition extract1 (s : UnifiedSession) : option str := Some extraction1.
Definition embedMany1 (texts : list str) (attempt : nat)
    : option (list (list num)) := Some (map (fun _ => [1; 0]) texts).
Definition embed1 (text : str) (attempt : nat) : option (list num) :=
  Some [1; 0].
Definition no_reranker (prompt : str) (attempt : nat) : Reranker.reply :=
  Reranker.Throws.
Definition no_scores (block : str) : option (list Reranker.RerankScore) := None.
Definition cosine1 (a b : list num) : num := 1 - SearchFacts.axis_distance a b.
Definition lexical1 (c q : str) : num :=
  if includes c q then SearchFacts.length_rank c q else 0.

Definition started : State :=
  match initialize new (lit "sk-test") with Ok st => st | Error => new end.

Definition ingested : option (State * outcome (list str)) :=
  ingest extract1 embedMany1 10 started [session1] (lit "t").

Definition cleared : State :=
  match ingested with
  | Some (st, _) => clear st (lit "t")
  | None => new
  end.

Definition searched : State * outcome (list result) :=
  search embed1 no_reranker no_scores cosine1 lexical1
    cleared (lit "What about the Sony camera?") (lit "t") None.

Definition contents (o : outcome (list result)) : list str :=
  match o with
  | Ok rs => map content_of rs
  | Error => []
  end.

(** C1: after an ingest on a container, [clear] empties the in-memory
    engine and drops the graph, but the snapshot the ingest wrote stays
    on disk: the next [search] finds the engine empty, loads the
    snapshot, and returns the chunk, the entities and the relationship
    again. *)
Theorem search_after_clear_reloads_snapshot :
  option_map snd ingested = Some (Ok [lit "t_s1_0"])
  /\ HybridSearch.hasData (searchEngine cleared) (lit "t") = false
  /\ map_get (lit "t") (graphs cleared) = None
  /\ contents (snd searched)
     = [ lit "# Memories from 2024-05-10" ++ [NL; NL]
           ++ lit "[2024-05-09] User got a Sony A7 camera.";
         lit "a camera the user owns";
         lit "owns a camera";
         lit "User owns Sony A7" ]
  /\ HybridSearch.hasData (searchEngine (fst searched)) (lit "t") = true.
Proof. repeat split; vm_compute; reflexivity. Qed.

End ProviderFacts.

(* ================================================================== *)
(** ** More on the chunker *)

Module ChunkerMore.
Import JS JSFacts Chunker ChunkerFacts.

(** A string that does not start with white space. *)
Definition starts_clean (s : str) : Prop :=
  match s with
  | c :: _ => is_ws c = false
  | [] => True
  end.

Lemma trimStart_clean s : starts_clean (trimStart s).
Proof.
  induction s as [|c s IH]; cbn; [exact I|].
  destruct (is_ws c) eqn:E; [exact IH | exact E].
Qed.

Lemma trimStart_fix s : starts_clean s -> trimStart s = s.
Proof. destruct s as [|c s]; cbn; [reflexivity|]. now intros ->. Qed.

Lemma trimStart_suffix s : exists p, s = p ++ trimStart s.
Proof.
  induction s as [|c s [p IH]]; cbn; [now exists []|].
  destruct (is_ws c); [|now exists []].
  exists (c :: p). cbn. now rewrite <- IH.
Qed.

(** [trim] removes nothing from a string it has produced. *)
Lemma trim_idempotent s : trim (trim s) = trim s.
Proof.
  unfold trim at 2. unfold trimEnd.
  set (t := trimStart s). set (w := trimStart (rev t)).
  assert (Hw : starts_clean w) by apply trimStart_clean.
  assert (Hr : starts_clean (rev w)).
  { destruct (trimStart_suffix (rev t)) as [p Hp]. fold w in Hp.
    assert (Ht : t = rev w ++ rev p).
    { rewrite <- (rev_involutive t), Hp, rev_app_distr. reflexivity. }
    pose proof (trimStart_clean s) as Hc. fold t in Hc. rewrite Ht in Hc.
    destruct (rev w) as [|c r]; [exact I | exact Hc]. }
  unfold trim, trimEnd. rewrite (@trimStart_fix _ Hr), rev_involutive.
  now rewrite (@trimStart_fix _ Hw).
Qed.

Definition trimmed (c : str) : Prop := trim c = c.

Lemma loop_trimmed fuel text chunkSize overlap : forall st out,
  Forall trimmed (chunks st) ->
  loop fuel text chunkSize overlap st = Some out ->
  Forall trimmed out.
Proof.
  induction fuel as [|fuel IH]; intros st out Hall; cbn [loop]; [discriminate|].
  destruct (start st <? JS.length text); [|now intros [= <-]].
  unfold iteration.
  destruct (start st + chunkSize >=? JS.length text).
  - intros [= <-]. apply Forall_app. split; [exact Hall|].
    repeat constructor. apply trim_idempotent.
  - apply IH. cbn [chunks]. apply Forall_app. split; [exact Hall|].
    repeat constructor. apply trim_idempotent.
Qed.

(** Every chunk [chunkText] returns is trimmed, and when the text is
    longer than the window none is empty. *)
Theorem chunkText_trimmed_nonempty fuel text chunkSize overlap out :
  chunkText fuel text chunkSize overlap = Some out ->
  Forall trimmed out
  /\ (chunkSize < JS.length text -> Forall (fun c => c <> []) out).
Proof.
  unfold chunkText.
  destruct (Z.leb_spec (JS.length text) chunkSize) as [Hshort|Hlong].
  - intros [= <-]. split; [|lia]. repeat constructor. apply trim_idempotent.
  - destruct (loop fuel text chunkSize overlap _) as [cs|] eqn:E; [|discriminate].
    intros [= <-]. split.
    + apply incl_Forall with cs; [intros c Hc; now apply filter_In in Hc|].
      eapply loop_trimmed; [|exact E]. constructor.
    + intros _. apply Forall_forall. intros c Hc.
      apply filter_In in Hc as [_ Hne]. unfold nonempty, JS.length in Hne.
      destruct c; [discriminate | discriminate].
Qed.

(** The text of the C3 example, cut with the default parameters. *)
Definition period_chunks : list str :=
  [firstn 1601 period_at_end; skipn 1281 period_at_end].

Lemma period_chunks_eq :
  chunkText 5 period_at_end CHUNK_SIZE CHUNK_OVERLAP = Some period_chunks.
Proof. vm_compute. reflexivity. Qed.

Lemma chunkText_trimmed_nonempty_witness :
  Forall trimmed period_chunks /\ Forall (fun c => c <> []) period_chunks.
Proof.
  destruct (@chunkText_trimmed_nonempty 5 period_at_end CHUNK_SIZE CHUNK_OVERLAP
              period_chunks period_chunks_eq) as [Ht Hn].
  split; [exact Ht|]. apply Hn. vm_compute. reflexivity.
Defined.

Lemma chunkText_fits_witness : Forall (fits CHUNK_SIZE) period_chunks.
Proof.
  apply (@chunkText_fits 5 period_at_end CHUNK_SIZE CHUNK_OVERLAP period_chunks).
  - reflexivity.
  - exact period_chunks_eq.
Defined.

(** A text of 3000 letters holds no space. *)
Definition letters : str := repeat 97%N 3000.

Lemma chunkText_returns_without_space_witness :
  exists out,
    chunkText (S (Z.to_nat (JS.length letters))) letters CHUNK_SIZE CHUNK_OVERLAP
    = Some out.
Proof.
  apply chunkText_returns_without_space.
  unfold letters. intros H. apply repeat_spec in H. discriminate.
Defined.

End ChunkerMore.

(* ================================================================== *)
(** ** More on the entity graph *)

Module GraphMore.
Import JS JSFacts Graph GraphFacts EntityFacts.

(** *** [addEntity]: insert and look up *)

(** A name that is blank once trimmed is rejected; otherwise the node
    is found under the trimmed name afterwards, it records the session,
    a first call stores the fields as given (type lowercased), and no
    other node changes. *)
Theorem addEntity_then_lookup g n t s sid :
  (truthy (trim n) = false -> addEntity g n t s sid = g)
  /\ (truthy (trim n) = true ->
      (exists node,
          map_get (trim n) (nodes (addEntity g n t s sid)) = Some node
          /\ In sid (sessionIds node)
          /\ (map_get (trim n) (nodes g) = None ->
              node = {| name := trim n; type := toLowerCase t;
                        summary := s; sessionIds := [sid] |}))
      /\ forall k, k <> trim n ->
           map_get k (nodes (addEntity g n t s sid)) = map_get k (nodes g)).
Proof.
  unfold addEntity. split; intros Ht; rewrite Ht; cbn [negb]; [reflexivity|].
  cbn [nodes]. split.
  - eexists. split; [apply map_get_set_same|].
    destruct (map_get (trim n) (nodes g)) as [old|]; cbn [sessionIds].
    + split; [apply set_add_In; now left | discriminate].
    + split; [now left | reflexivity].
  - intros k Hk. apply map_get_set_other. congruence.
Qed.

Lemma addEntity_then_lookup_witness :
  exists node,
    map_get (lit "Alice")
      (nodes (addEntity empty (lit "  Alice ") (lit "Person") (lit "a friend")
                (lit "s1"))) = Some node
    /\ In (lit "s1") (sessionIds node).
Proof.
  destruct (addEntity_then_lookup empty (lit "  Alice ") (lit "Person")
              (lit "a friend") (lit "s1")) as [_ H].
  destruct (H eq_refl) as [[node (H1 & H2 & _)] _].
  exists node. split; [exact H1 | exact H2].
Defined.

(** *** Where a stored summary comes from *)

(** After any sequence of [addEntity] calls, the summary of a node is at
    most 500 code units long, or it is the summary of a call for that
    name, stored as given. *)
Theorem summary_bounded_or_as_given calls k n :
  In (k, n) (nodes (run calls)) ->
  (List.length (summary n) <= 500)%nat
  \/ exists c, In c calls /\ trim (c_name c) = k /\ summary n = c_summary c.
Proof.
  revert k n. induction calls as [|c calls IH] using rev_ind; intros k n Hin.
  - destruct Hin.
  - assert (Hmore : forall k n,
               In (k, n) (nodes (run calls)) ->
               (List.length (summary n) <= 500)%nat
               \/ exists c0, In c0 (calls ++ [c]) /\ trim (c_name c0) = k
                             /\ summary n = c_summary c0).
    { intros k0 n0 H0. destruct (IH k0 n0 H0) as [H|[c0 (H1 & H2 & H3)]];
        [now left|]. right. exists c0. split; [|now split].
      apply in_app_iff. now left. }
    rewrite run_snoc in Hin. unfold apply_call, addEntity in Hin.
    destruct (truthy (trim (c_name c))); cbn in Hin; [|now apply Hmore].
    apply map_set_In in Hin as [Hin|Hin]; [|now apply Hmore].
    inversion Hin; subst k n; clear Hin.
    destruct (map_get (trim (c_name c)) (nodes (run calls))) as [old|] eqn:E.
    + apply map_get_In in E. apply Hmore in E. cbn [summary].
      destruct (merge_summary_cases (summary old) (c_summary c)) as [->|Hle];
        [exact E | now left].
    + right. exists c. cbn. split; [|now split].
      apply in_app_iff. right. now left.
Qed.

Lemma summary_bounded_or_as_given_witness :
  (List.length (lit "a friend") <= 500)%nat
  \/ exists c,
       In c [{| c_name := lit "Alice"; c_type := lit "Person";
                c_summary := lit "a friend"; c_session := lit "s1" |}]
       /\ trim (c_name c) = lit "Alice" /\ lit "a friend" = c_summary c.
Proof.
  apply (@summary_bounded_or_as_given
           [{| c_name := lit "Alice"; c_type := lit "Person";
               c_summary := lit "a friend"; c_session := lit "s1" |}]
           (lit "Alice")
           {| name := lit "Alice"; type := lit "person";
              summary := lit "a friend"; sessionIds := [lit "s1"] |}).
  left. reflexivity.
Defined.

(** *** [addRelationship]: one edge per key *)

Lemma edgeSet_addRelationship g e :
  edgeSet (addRelationship g e) = set_add (edge_key e) (edgeSet g).
Proof.
  unfold addRelationship, set_add.
  destruct (set_has (edge_key e) (edgeSet g)) eqn:E; cbn; now rewrite ?E.
Qed.

Lemma edgeSet_fold es : forall g,
  edgeSet (fold_left addRelationship es g)
  = fold_left (fun s k => set_add k s) (map edge_key es) (edgeSet g).
Proof.
  induction es as [|e es IH]; intros g; cbn; [reflexivity|].
  now rewrite IH, edgeSet_addRelationship.
Qed.

Lemma fold_set_add_In l x : forall acc,
  In x (fold_left (fun s k => set_add k s) l acc) <-> In x acc \/ In x l.
Proof.
  induction l as [|k l IH]; intros acc; cbn; [tauto|].
  rewrite IH, set_add_In. intuition congruence.
Qed.

(** After any sequence of [addRelationship] calls on a new graph, the
    edge set holds each key [source|relation|target] of the sequence
    once: [edgeCount] is the number of distinct keys. *)
Theorem edgeCount_distinct_keys (es : list RelationshipEdge) :
  let g := fold_left addRelationship es empty in
  NoDup (edgeSet g)
  /\ (forall k, In k (edgeSet g) <-> In k (map edge_key es))
  /\ edgeCount g
     = List.length (nodup (list_eq_dec N.eq_dec) (map edge_key es)).
Proof.
  cbn zeta. rewrite edgeSet_fold. cbn [edgeSet empty].
  assert (Hnd : NoDup (fold_left (fun s k => set_add k s) (map edge_key es) []))
    by (apply set_of_list_NoDup_from; constructor).
  assert (Hin : forall k,
             In k (fold_left (fun s k => set_add k s) (map edge_key es) [])
             <-> In k (map edge_key es))
    by (intros k; rewrite fold_set_add_In; cbn; tauto).
  split; [exact Hnd|]. split; [exact Hin|].
  unfold edgeCount. rewrite edgeSet_fold. cbn [edgeSet empty].
  apply Permutation_length, NoDup_Permutation;
    [exact Hnd | apply NoDup_nodup|].
  intros k. now rewrite Hin, nodup_In.
Qed.

Lemma stored_addRelationship g e e' :
  wf g -> set_has (edge_key e) (edgeSet g) = false ->
  In e' (stored_edges (addRelationship g e))
  <-> In e' (stored_edges g) \/ e' = e.
Proof.
  intros Hwf Hnew.
  pose proof (addRelationship_wf e Hwf) as Hwf'.
  unfold stored_edges.
  rewrite (@stored_In _ e' (wf_adj_keys (proj2 Hwf'))).
  rewrite (@stored_In _ e' (wf_adj_keys (proj2 Hwf))).
  unfold addRelationship. rewrite Hnew. cbn [adjacency]. split.
  - intros [x Hx]. apply In_adj_of_push2 in Hx as [Hx|[-> _]]; eauto.
  - intros [[x Hx]| ->].
    + exists x. apply In_adj_of_push2. now left.
    + exists (source e). apply In_adj_of_push2. right.
      split; [reflexivity | now left].
Qed.

(** The edge kept for a key is the first one added with it: an edge
    held by the graph occurs in the sequence with no earlier edge of the
    same key (a later duplicate, whatever its date or session, is
    dropped). *)
Theorem addRelationship_first_wins (es : list RelationshipEdge) e :
  In e (stored_edges (fold_left addRelationship es empty)) ->
  exists pre post,
    es = pre ++ e :: post /\ ~ In (edge_key e) (map edge_key pre).
Proof.
  induction es as [|a es IH] using rev_ind; [intros []|].
  rewrite fold_left_app. cbn [fold_left].
  set (g := fold_left addRelationship es empty) in *.
  assert (Hwf : wf g)
    by (apply fold_wf; [intros; now apply addRelationship_wf | apply empty_wf]).
  destruct (set_has (edge_key a) (edgeSet g)) eqn:E.
  - unfold addRelationship. rewrite E. intros Hin.
    destruct (IH Hin) as (pre & post & -> & Hpre).
    exists pre, (post ++ [a]). split; [|exact Hpre].
    now rewrite <- app_assoc.
  - intros Hin. apply (@stored_addRelationship g a e Hwf E) in Hin as [Hin| ->].
    + destruct (IH Hin) as (pre & post & -> & Hpre).
      exists pre, (post ++ [a]). split; [|exact Hpre].
      now rewrite <- app_assoc.
    + exists es, []. split; [reflexivity|].
      apply set_has_not_In in E. intros Hk. apply E.
      subst g. rewrite edgeSet_fold. apply fold_set_add_In. now right.
Qed.

Lemma addRelationship_first_wins_witness :
  exists pre post,
    [GraphExamples.edge "A" "r" "B"; GraphExamples.edge "A" "r" "B"]
    = pre ++ GraphExamples.edge "A" "r" "B" :: post
    /\ ~ In (edge_key (GraphExamples.edge "A" "r" "B")) (map edge_key pre).
Proof.
  apply addRelationship_first_wins. vm_compute. now left.
Defined.

(** *** The adjacency lists and the edge set agree *)

(** In every graph the class can hold, an edge listed under a node has
    that node as source or target, is listed under both its source and
    its target, and has its key in the edge set; and every key of the
    edge set is the key of a listed edge. *)
Theorem adjacency_consistent g :
  reachable g ->
  (forall x e, In e (adj_of (adjacency g) x) ->
     touches e x
     /\ In e (adj_of (adjacency g) (source e))
     /\ In e (adj_of (adjacency g) (target e))
     /\ In (edge_key e) (edgeSet g))
  /\ (forall k, In k (edgeSet g) ->
        exists e, In e (stored_edges g) /\ edge_key e = k).
Proof.
  intros Hr. destruct (reachable_wf Hr) as [_ He]. split.
  - intros x e Hin. split; [now apply (wf_incident He)|].
    destruct (@wf_both _ _ He e x Hin) as [H1 H2].
    split; [exact H1|]. split; [exact H2|].
    apply (wf_keys He). eauto.
  - intros k Hk. apply (wf_keys He) in Hk as [e [x [Hin Hkey]]].
    exists e. split; [|exact Hkey].
    apply (@stored_In _ e (wf_adj_keys He)). eauto.
Qed.

Lemma adjacency_consistent_witness :
  forallb (fun k => existsb (fun e => str_eqb (edge_key e) k)
                      (stored_edges GraphExamples.scenario_graph))
    (edgeSet GraphExamples.scenario_graph) = true.
Proof.
  assert (H : reachable GraphExamples.scenario_graph) by (repeat constructor).
  destruct (adjacency_consistent H) as [_ Hk].
  apply forallb_forall. intros k Hin.
  destruct (Hk k Hin) as [e [He Hkey]].
  apply existsb_exists. exists e. split; [exact He|].
  apply str_eqb_eq. exact Hkey.
Defined.

End GraphMore.

(* ================================================================== *)
(** ** What the graph queries return *)

Module GraphQueries.
Import JS JSFacts Graph GraphFacts.

(** *** [findEntitiesInQuery] *)

(** Every name held by the name index is the key of a node. *)
Definition index_sound (g : EntityGraph) : Prop :=
  forall key names c,
    In (key, names) (nameIndex g) -> In c names -> In c (map fst (nodes g)).

Lemma index_add_In key c idx k ns x :
  In (k, ns) (index_add key c idx) -> In x ns ->
  x = c \/ exists ns0, In (k, ns0) idx /\ In x ns0.
Proof.
  unfold index_add.
  set (idx1 := if map_has key idx then idx else map_set key [] idx).
  assert (H1 : forall k0 ns0, In (k0, ns0) idx1 ->
                 ns0 = [] \/ In (k0, ns0) idx).
  { subst idx1. intros k0 ns0 H0. destruct (map_has key idx); [now right|].
    apply map_set_In in H0 as [[= -> ->]|H0]; [now left | now right]. }
  destruct (map_get key idx1) as [names|] eqn:E.
  - intros Hin Hx. apply map_set_In in Hin as [[= -> ->]|Hin].
    + apply set_add_In in Hx as [->|Hx]; [now left|].
      apply map_get_In in E. destruct (H1 _ _ E) as [->|H]; [destruct Hx|].
      right. eauto.
    + destruct (H1 _ _ Hin) as [->|H]; [destruct Hx|]. right. eauto.
  - intros Hin Hx. destruct (H1 _ _ Hin) as [->|H]; [destruct Hx|].
    right. eauto.
Qed.

Lemma index_name_In c idx k ns x :
  In (k, ns) (index_name c idx) -> In x ns ->
  x = c \/ exists ns0, In (k, ns0) idx /\ In x ns0.
Proof.
  unfold index_name.
  assert (Hfold : forall parts idx0,
             (forall k ns x, In (k, ns) idx0 -> In x ns ->
                x = c \/ exists ns0, In (k, ns0) idx /\ In x ns0) ->
             forall k ns x,
               In (k, ns)
                 (fold_left
                    (fun idx part =>
                       if (2 <? JS.length part)%Z
                       then index_add (toLowerCase part) c idx else idx)
                    parts idx0) -> In x ns ->
               x = c \/ exists ns0, In (k, ns0) idx /\ In x ns0).
  { induction parts as [|p parts IHp]; intros idx0 H0; cbn; [exact H0|].
    apply IHp. destruct (2 <? JS.length p)%Z; [|exact H0].
    intros k0 ns0 x0 Hin Hx.
    destruct (index_add_In _ _ _ _ _ _ Hin Hx) as [->|[ns1 [H1 H2]]];
      [now left | eauto]. }
  apply Hfold. intros k0 ns0 x0 Hin Hx. now apply (index_add_In _ _ _ _ _ _ Hin Hx).
Qed.

Lemma map_set_key_in (V : Type) (k : str) (v : V) (m : omap V) :
  In k (map fst (map_set k v m)).
Proof.
  pose proof (map_get_set_same k v m) as H. apply map_get_In in H.
  apply in_map_iff. now exists (k, v).
Qed.

Lemma map_set_keys_grow (V : Type) (k k' : str) (v : V) (m : omap V) :
  In k (map fst m) -> In k (map fst (map_set k' v m)).
Proof.
  induction m as [|[k0 v0] m IH]; cbn; [tauto|].
  destruct (str_eqb k0 k'); cbn; intuition.
Qed.

Lemma index_sound_step g c node :
  index_sound g ->
  index_sound {| nodes := map_set c node (nodes g);
                 edgeSet := edgeSet g;
                 adjacency := adjacency g;
                 nameIndex := index_name c (nameIndex g) |}.
Proof.
  intros Hs key names x Hin Hx. cbn in *.
  destruct (index_name_In _ _ _ _ _ Hin Hx) as [->|[ns0 [H1 H2]]].
  - apply map_set_key_in.
  - apply map_set_keys_grow. eapply Hs; eauto.
Qed.

Lemma addEntity_index_sound g n t s sid :
  index_sound g -> index_sound (addEntity g n t s sid).
Proof.
  intros Hs. unfold addEntity.
  destruct (truthy (trim n)); cbn [negb]; [|exact Hs].
  now apply index_sound_step.
Qed.

Lemma addRelationship_index_sound g e :
  index_sound g -> index_sound (addRelationship g e).
Proof.
  intros Hs. unfold addRelationship.
  destruct (set_has (edge_key e) (edgeSet g)); exact Hs.
Qed.

Lemma fold_index_sound (A : Type) (f : EntityGraph -> A -> EntityGraph) :
  (forall g a, index_sound g -> index_sound (f g a)) ->
  forall l g, index_sound g -> index_sound (fold_left f l g).
Proof.
  intros Hf l; induction l as [|a l IH]; intros g H; cbn; auto.
Qed.

Lemma empty_index_sound : index_sound empty.
Proof. intros key names c []. Qed.

Lemma reachable_index_sound g : reachable g -> index_sound g.
Proof.
  induction 1;
    auto using empty_index_sound, addEntity_index_sound,
      addRelationship_index_sound.
  unfold load.
  apply fold_index_sound; [intros; now apply addRelationship_index_sound|].
  apply fold_index_sound; [|apply empty_index_sound].
  intros g0 n0 H0. unfold load_node. now apply index_sound_step.
Qed.

Lemma fold_set_add_NoDup l : forall acc,
  NoDup acc -> NoDup (fold_left (fun m c => set_add c m) l acc).
Proof.
  induction l as [|x l IH]; intros acc H; cbn; [exact H|].
  apply IH. now apply set_add_NoDup.
Qed.

Lemma fold_set_add_from l x : forall acc,
  In x (fold_left (fun m c => set_add c m) l acc) -> In x acc \/ In x l.
Proof.
  induction l as [|k l IH]; intros acc; cbn; [tauto|].
  intros H. apply IH in H as [H|H]; [|tauto].
  apply set_add_In in H. intuition.
Qed.

(** In every graph the class can hold, [findEntitiesInQuery] returns
    each name at most once, and every name it returns is the key and
    the name of a node of the graph. *)
Theorem findEntitiesInQuery_sound g query :
  reachable g ->
  NoDup (findEntitiesInQuery g query)
  /\ forall c, In c (findEntitiesInQuery g query) ->
       exists node, map_get c (nodes g) = Some node /\ name node = c.
Proof.
  intros Hr. pose proof (reachable_index_sound Hr) as Hs.
  destruct (reachable_wf Hr) as [Hn _].
  assert (Hgen : forall idx matched,
             (forall key names c, In (key, names) idx -> In c names ->
                In c (map fst (nodes g))) ->
             NoDup matched ->
             (forall c, In c matched -> In c (map fst (nodes g))) ->
             let r := fold_left
                        (fun matched (entry : str * list str) =>
                           let (key, canonicals) := entry in
                           if (JS.length key <=? 2)%Z then matched
                           else if Regex.test Regex.exact (toLowerCase query)
                                     (Regex.bounded (Regex.lits key))
                           then fold_left (fun m c => set_add c m) canonicals matched
                           else matched) idx matched in
             NoDup r /\ forall c, In c r -> In c (map fst (nodes g))).
  { induction idx as [|[key names] idx IH]; intros matched Hidx Hnd Hm;
      cbn zeta; cbn [fold_left]; [now split|].
    apply IH.
    - intros k ns c H1 H2. eapply Hidx; [right; exact H1 | exact H2].
    - destruct (JS.length key <=? 2)%Z; [exact Hnd|].
      destruct (Regex.test _ _ _); [|exact Hnd].
      now apply fold_set_add_NoDup.
    - destruct (JS.length key <=? 2)%Z; [exact Hm|].
      destruct (Regex.test _ _ _); [|exact Hm].
      intros c Hc. apply fold_set_add_from in Hc as [Hc|Hc]; [now apply Hm|].
      eapply Hidx; [left; reflexivity | exact Hc]. }
  destruct (Hgen (nameIndex g) [] Hs (NoDup_nil _)) as [Hnd Hin];
    [intros c []|].
  split; [exact Hnd|].
  intros c Hc. specialize (Hin c Hc).
  apply in_map_iff in Hin as [[k node] [Hk Hkn]]. cbn in Hk. subst k.
  exists node. split.
  - eapply In_map_get; [apply (wf_node_keys Hn) | exact Hkn].
  - eapply wf_node_name; [exact Hn | exact Hkn].
Qed.

Lemma findEntitiesInQuery_sound_witness :
  NoDup (findEntitiesInQuery GraphExamples.scenario_graph
           (lit "did Alice and Bob visit Acme?")).
Proof.
  assert (H : reachable GraphExamples.scenario_graph) by (repeat constructor).
  exact (proj1 (@findEntitiesInQuery_sound GraphExamples.scenario_graph
                  (lit "did Alice and Bob visit Acme?") H)).
Defined.

End GraphQueries.

(* ================================================================== *)
(** ** What [getContext] returns *)

Module ContextFacts.
Import JS JSFacts Graph GraphFacts.

(** The key of a returned relationship. *)
Definition rel_key (r : RelOut) : str :=
  key_of (r_source r) (r_relation r) (r_target r).

Section Walk.
Variable g : EntityGraph.
Hypothesis g_wf : wf g.

(** What every step of the walk maintains. *)
Record sound (w : walk) : Prop := {
  ents_visited : forall o, In o (resultEntities w) ->
      In (e_name o) (visitedNodes w);
  ents_nodes : forall o, In o (resultEntities w) ->
      exists node, map_get (e_name o) (nodes g) = Some node
                   /\ o = out_of_node node;
  ents_distinct : NoDup (map e_name (resultEntities w));
  rels_edges : forall r, In r (resultRels w) ->
      exists e x, In e (adj_of (adjacency g) x) /\ r = out_of_edge e
                  /\ In (edge_key e) (seenEdges w);
  rels_distinct : NoDup (map rel_key (resultRels w))
}.

Lemma NoDup_snoc (A : Type) (l : list A) (x : A) :
  NoDup l -> ~ In x l -> NoDup (l ++ [x]).
Proof.
  intros Hl Hx. apply NoDup_app; [exact Hl | repeat constructor; intros [] |].
  intros y Hy [<-|[]]. contradiction.
Qed.

(** The entity part of a step that marks the new node [n] visited. *)
Lemma push_entity_sound n visited out :
  ~ In n visited ->
  (forall o, In o out -> In (e_name o) visited) ->
  (forall o, In o out ->
     exists node, map_get (e_name o) (nodes g) = Some node /\ o = out_of_node node) ->
  NoDup (map e_name out) ->
  (forall o, In o (push_entity g n out) -> In (e_name o) (set_add n visited))
  /\ (forall o, In o (push_entity g n out) ->
        exists node, map_get (e_name o) (nodes g) = Some node
                     /\ o = out_of_node node)
  /\ NoDup (map e_name (push_entity g n out)).
Proof.
  intros Hn Hv Hnode Hnd. unfold push_entity.
  assert (Hold : forall o, In o out -> In (e_name o) (set_add n visited))
    by (intros o Ho; apply set_add_In; right; now apply Hv).
  destruct (map_get n (nodes g)) as [node|] eqn:E; [|now repeat split].
  destruct (_ <? _)%nat; [|now repeat split].
  assert (Hname : name node = n).
  { apply map_get_In in E. eapply wf_node_name; [apply (proj1 g_wf)|exact E]. }
  repeat split.
  - intros o Ho. apply in_app_iff in Ho as [Ho|[<-|[]]]; [now apply Hold|].
    cbn. rewrite Hname. apply set_add_In. now left.
  - intros o Ho. apply in_app_iff in Ho as [Ho|[<-|[]]]; [now apply Hnode|].
    exists node. cbn. now rewrite Hname.
  - rewrite map_app. cbn. rewrite Hname. apply NoDup_snoc; [exact Hnd|].
    intros Hin. apply in_map_iff in Hin as [o [Ho Hin]].
    apply Hn. rewrite <- Ho. now apply Hv.
Qed.

Lemma visit_seed_sound w n : sound w -> sound (visit_seed g w n).
Proof.
  intros [H1 H2 H3 H4 H5]. unfold visit_seed.
  destruct (set_has n (visitedNodes w)) eqn:E; [now split|].
  apply set_has_not_In in E.
  destruct (push_entity_sound n (visitedNodes w) (resultEntities w) E H1 H2 H3)
    as (P1 & P2 & P3).
  split; cbn; auto.
Qed.

Lemma visit_edge_sound n w e :
  In e (adj_of (adjacency g) n) -> sound w -> sound (visit_edge g n w e).
Proof.
  intros He [H1 H2 H3 H4 H5]. unfold visit_edge.
  destruct (set_has (edge_key e) (seenEdges w)) eqn:Es; [now split|].
  apply set_has_not_In in Es.
  assert (R1 : forall r, In r (push_rel e (resultRels w)) ->
                 exists e0 x, In e0 (adj_of (adjacency g) x)
                              /\ r = out_of_edge e0
                              /\ In (edge_key e0) (set_add (edge_key e) (seenEdges w))).
  { intros r Hr.
    assert (Hcases : In r (resultRels w) \/ r = out_of_edge e).
    { unfold push_rel in Hr. destruct (_ <? _)%nat; [|now left].
      apply in_app_iff in Hr as [Hr|[<-|[]]]; [now left | now right]. }
    destruct Hcases as [Hr0| ->].
    - destruct (H4 r Hr0) as (e0 & x & Hx & Hr1 & Hk).
      exists e0, x. repeat split; auto. apply set_add_In. now right.
    - exists e, n. repeat split; auto. apply set_add_In. now left. }
  assert (R2 : NoDup (map rel_key (push_rel e (resultRels w)))).
  { unfold push_rel. destruct (_ <? _)%nat; [|exact H5].
    rewrite map_app. cbn [map]. apply NoDup_snoc; [exact H5|].
    intros Hin. apply in_map_iff in Hin as [r [Hk Hr]].
    destruct (H4 r Hr) as (e0 & x & _ & -> & Hseen).
    apply Es. change (edge_key e0 = edge_key e) in Hk.
    rewrite <- Hk. exact Hseen. }
  destruct (set_has _ (visitedNodes w)) eqn:Ev.
  - split; cbn; auto.
  - apply set_has_not_In in Ev.
    destruct (push_entity_sound _ (visitedNodes w) (resultEntities w) Ev H1 H2 H3)
      as (P1 & P2 & P3).
    split; cbn; auto.
Qed.

Lemma fold_sound_in (A : Type) (f : walk -> A -> walk) (l : list A) :
  (forall w a, In a l -> sound w -> sound (f w a)) ->
  forall w, sound w -> sound (fold_left f l w).
Proof.
  induction l as [|a l IH]; intros Hf w Hw; cbn; [exact Hw|].
  apply IH; [intros; apply Hf; [now right|assumption]|].
  apply Hf; [now left | exact Hw].
Qed.

Lemma visit_node_sound w n : sound w -> sound (visit_node g w n).
Proof.
  intros Hw. unfold visit_node. apply fold_sound_in; [|exact Hw].
  intros w0 e He. apply visit_edge_sound. exact He.
Qed.

Lemma hop_sound frontier w : sound w -> sound (hop g frontier w).
Proof.
  intros [H1 H2 H3 H4 H5]. unfold hop. apply fold_sound_in.
  - intros; now apply visit_node_sound.
  - split; cbn; auto.
Qed.

Lemma hops_sound maxHops : forall frontier w,
  sound w -> sound (hops maxHops g frontier w).
Proof.
  induction maxHops as [|h IH]; intros frontier w Hw; cbn; [exact Hw|].
  destruct frontier; [exact Hw|]. apply IH. now apply hop_sound.
Qed.

Lemma seed_layer_sound seeds : sound (seed_layer g seeds).
Proof.
  unfold seed_layer. apply fold_sound_in.
  - intros; now apply visit_seed_sound.
  - split; cbn; try constructor; intros ? [].
Qed.
End Walk.

(** In every graph the class can hold, [getContext] returns each node
    at most once and only nodes of the graph, and each relationship at
    most once (by its key) and only edges the graph holds. *)
Theorem getContext_sound g seeds maxHops :
  reachable g ->
  let r := getContext g seeds maxHops in
  NoDup (map e_name (entities r))
  /\ (forall o, In o (entities r) ->
        exists node, map_get (e_name o) (nodes g) = Some node
                     /\ o = out_of_node node)
  /\ NoDup (map rel_key (relationships r))
  /\ (forall x, In x (relationships r) ->
        exists e, In e (stored_edges g) /\ x = out_of_edge e).
Proof.
  intros Hr. pose proof (reachable_wf Hr) as Hwf. cbn zeta.
  destruct (hops_sound Hwf maxHops seeds (seed_layer_sound Hwf seeds))
    as [_ H2 H3 H4 H5].
  unfold getContext. cbn [entities relationships].
  split; [exact H3|]. split; [exact H2|]. split; [exact H5|].
  intros x Hx. destruct (H4 x Hx) as (e & y & Hy & -> & _).
  exists e. split; [|reflexivity].
  apply (@stored_In _ e (wf_adj_keys (proj2 Hwf))). eauto.
Qed.

Lemma getContext_sound_witness :
  NoDup (map e_name
           (entities (getContext GraphExamples.star [lit "hub"] 2)))
  /\ NoDup (map rel_key
              (relationships (getContext GraphExamples.star [lit "hub"] 2))).
Proof.
  assert (H : reachable GraphExamples.star).
  { unfold GraphExamples.star.
    match goal with |- reachable (fold_left ?f _ _) =>
      assert (Hfold : forall js g', reachable g' -> reachable (fold_left f js g'))
    end.
    { induction js as [|i js IH]; intros g0 Hg; cbn [fold_left]; [exact Hg|].
      apply IH. apply reach_addRelationship, reach_addEntity, Hg. }
    apply Hfold. apply reach_addEntity, reach_new. }
  destruct (@getContext_sound GraphExamples.star [lit "hub"] 2%nat H)
    as (H1 & _ & H3 & _).
  split; [exact H1 | exact H3].
Defined.

End ContextFacts.

(* ================================================================== *)
(** ** From the parser to the graph *)

Module ParsedFacts.
Import JS JSFacts Extraction ExtractionFacts.

(** A field the parser lets through: not empty, trimmed, on one line
    and without a pipe. *)
Definition clean (f : str) : Prop :=
  f <> [] /\ trim f = f /\ ~ In PIPE f /\ ~ In NL f.

Lemma fields_clean line :
  ~ In NL line ->
  Forall (fun f => trim f = f /\ ~ In PIPE f /\ ~ In NL f) (fields line).
Proof.
  intros Hnl. unfold fields. apply Forall_map.
  pose proof (split_no_sep PIPE line) as Hsep.
  assert (Hsub : Forall (fun f => forall x, In x f -> In x line) (split PIPE line)).
  { apply Forall_forall. intros f Hf x Hx.
    rewrite <- (join_split PIPE line).
    clear Hsep Hnl. revert Hf. generalize (split PIPE line).
    induction l as [|g l IH]; intros Hf; [destruct Hf|].
    destruct Hf as [->|Hf].
    - destruct l; cbn; [exact Hx|]. apply in_app_iff. now left.
    - destruct l as [|h l']; [destruct Hf|].
      change (In x (g ++ [PIPE] ++ join [PIPE] (h :: l'))).
      rewrite !in_app_iff. right. right. now apply IH. }
  rewrite Forall_forall in *. intros f Hf. split; [|split].
  - apply ChunkerMore.trim_idempotent.
  - intros H. apply (Hsep f Hf). now apply trim_In.
  - intros H. apply Hnl. apply (Hsub f Hf). now apply trim_In.
Qed.

Lemma section_lines_no_NL open close rawText line :
  In line (section_lines open close rawText) -> ~ In NL line.
Proof.
  unfold section_lines. destruct (capture open close rawText); [|intros []].
  intros Hin. pose proof (split_no_sep NL (trim s)) as H.
  rewrite Forall_forall in H. now apply H.
Qed.

Lemma entity_of_line_clean line e :
  ~ In NL line -> entity_of_line line = Some e ->
  clean (name e) /\ clean (type e) /\ summary e <> [].
Proof.
  intros Hnl. unfold entity_of_line. destruct (skipped line); [discriminate|].
  pose proof (fields_clean line Hnl) as Hf.
  destruct (fields line) as [|p0 [|p1 [|p2 rest]]]; try discriminate.
  destruct (truthy p0 && truthy p1 && truthy p2) eqn:E; [|discriminate].
  intros [= <-]. cbn [name type summary].
  apply andb_true_iff in E as [E E2]. apply andb_true_iff in E as [E0 E1].
  apply truthy_iff in E0, E1, E2.
  inversion Hf as [|? ? H0 Hf1]; subst. inversion Hf1 as [|? ? H1 _]; subst.
  unfold clean. repeat split; try tauto.
  destruct rest; cbn; [exact E2|]. destruct p2; [congruence|discriminate].
Qed.

Lemma relationship_of_line_clean line r :
  ~ In NL line -> relationship_of_line line = Some r ->
  clean (source r) /\ clean (relation r) /\ clean (target r)
  /\ match date r with Some d => clean d | None => True end.
Proof.
  intros Hnl. unfold relationship_of_line. destruct (skipped line); [discriminate|].
  pose proof (fields_clean line Hnl) as Hf.
  destruct (fields line) as [|p0 [|p1 [|p2 rest]]]; try discriminate.
  destruct (truthy p0 && truthy p1 && truthy p2) eqn:E; [|discriminate].
  intros [= <-]. cbn [source relation target date].
  apply andb_true_iff in E as [E E2]. apply andb_true_iff in E as [E0 E1].
  apply truthy_iff in E0, E1, E2.
  inversion Hf as [|? ? H0 Hf1]; subst. inversion Hf1 as [|? ? H1 Hf2]; subst.
  inversion Hf2 as [|? ? H2 Hf3]; subst.
  unfold clean. repeat split; try tauto.
  destruct rest as [|p3 rest]; [exact I|].
  destruct (truthy p3) eqn:E3; [|exact I].
  apply truthy_iff in E3. inversion Hf3; subst. tauto.
Qed.

Lemma parsed_entity_clean rawText e :
  In e (entities (parseExtractionOutput rawText)) ->
  clean (name e) /\ clean (type e) /\ summary e <> [].
Proof.
  intros Hin. cbn in Hin. apply keep_some_In in Hin as [line [Hl He]].
  apply section_lines_no_NL in Hl. eapply entity_of_line_clean; eassumption.
Qed.

Lemma parsed_relationship_clean rawText r :
  In r (relationships (parseExtractionOutput rawText)) ->
  clean (source r) /\ clean (relation r) /\ clean (target r)
  /\ match date r with Some d => clean d | None => True end.
Proof.
  intros Hin. cbn in Hin. apply keep_some_In in Hin as [line [Hl Hr]].
  apply section_lines_no_NL in Hl. eapply relationship_of_line_clean; eassumption.
Qed.

(** Every entity and every relationship of the parser's result has a
    name (source, relation, target) and a type that are not empty, are
    trimmed, and hold neither a pipe nor a line break; a summary is not
    empty, and a date is absent or such a field. *)
Theorem parsed_fields_clean rawText :
  (forall e, In e (entities (parseExtractionOutput rawText)) ->
     clean (name e) /\ clean (type e) /\ summary e <> [])
  /\ (forall r, In r (relationships (parseExtractionOutput rawText)) ->
        clean (source r) /\ clean (relation r) /\ clean (target r)
        /\ match date r with Some d => clean d | None => True end).
Proof.
  split.
  - intros e. apply parsed_entity_clean.
  - intros r. apply parsed_relationship_clean.
Qed.

(** A reply of the extraction model: fields with blanks around them, a
    summary with a pipe, an entity line without a name, a dated and an
    undated relationship and a relationship line without a target. *)
Definition sample_reply : str :=
  lit "<memories>" ++ [NL] ++ lit "[2024-05-10] Alice moved to Berlin." ++ [NL]
    ++ lit "</memories>" ++ [NL]
    ++ lit "<entities>" ++ [NL] ++ lit " Alice | Person | a friend " ++ [NL]
    ++ lit "Berlin|location|a city|in Germany" ++ [NL] ++ lit "|x|y" ++ [NL]
    ++ lit "</entities>" ++ [NL]
    ++ lit "<relationships>" ++ [NL] ++ lit "Alice | lives_in | Berlin | 2024" ++ [NL]
    ++ lit "Alice|likes|Berlin" ++ [NL] ++ lit "Alice|likes" ++ [NL]
    ++ lit "</relationships>".

Lemma parsed_fields_clean_witness :
  Forall (fun e => clean (name e) /\ clean (type e) /\ summary e <> [])
    (entities (parseExtractionOutput sample_reply))
  /\ List.length (entities (parseExtractionOutput sample_reply)) = 2%nat.
Proof.
  split; [|vm_compute; reflexivity].
  apply Forall_forall. intros e He.
  exact (proj1 (parsed_fields_clean sample_reply) e He).
Defined.

Lemma app_sep_inj (c : N) (a : str) : forall a' b b',
  ~ In c a -> ~ In c a' -> a ++ c :: b = a' ++ c :: b' -> a = a' /\ b = b'.
Proof.
  induction a as [|x a IH]; intros [|y a'] b b' Ha Ha'; cbn; intros E.
  - now inversion E.
  - inversion E; subst. exfalso. apply Ha'. now left.
  - inversion E; subst. exfalso. apply Ha. now left.
  - inversion E; subst. destruct (IH a' b b') as [-> ->]; auto.
    + intros H. apply Ha. now right.
    + intros H. apply Ha'. now right.
Qed.

Lemma key_of_inj s r t s' r' t' :
  ~ In PIPE s -> ~ In PIPE r -> ~ In PIPE s' -> ~ In PIPE r' ->
  Graph.key_of s r t = Graph.key_of s' r' t' -> s = s' /\ r = r' /\ t = t'.
Proof.
  intros Hs Hr Hs' Hr'. unfold Graph.key_of. cbn [app]. intros E.
  apply app_sep_inj in E as [-> E]; [|assumption|assumption].
  apply app_sep_inj in E as [-> ->]; [|assumption|assumption]. auto.
Qed.

(** The edge the provider makes of a parsed relationship. *)
Definition edge_of (sessionId : str) (r : Relationship) : Graph.RelationshipEdge :=
  {| Graph.source := source r; Graph.target := target r;
     Graph.relation := relation r; Graph.date := date r;
     Graph.sessionId := sessionId |}.

(** Two relationships of parser results have the same edge key exactly
    when they have the same source, relation and target: the key, which
    joins the three with pipes, cannot confuse fields that hold none, so
    the graph drops a parsed relationship only as a true duplicate. *)
Theorem parsed_edge_key_exact raw1 raw2 sid1 sid2 r1 r2 :
  In r1 (relationships (parseExtractionOutput raw1)) ->
  In r2 (relationships (parseExtractionOutput raw2)) ->
  (Graph.edge_key (edge_of sid1 r1) = Graph.edge_key (edge_of sid2 r2)
   <-> source r1 = source r2 /\ relation r1 = relation r2 /\ target r1 = target r2).
Proof.
  intros H1 H2.
  apply parsed_relationship_clean in H1 as (Hs1 & Hr1 & _).
  apply parsed_relationship_clean in H2 as (Hs2 & Hr2 & _).
  unfold Graph.edge_key, edge_of; cbn. split.
  - apply key_of_inj; [apply Hs1 | apply Hr1 | apply Hs2 | apply Hr2].
  - now intros (-> & -> & ->).
Qed.

(** Fields with pipes, as a direct caller of the graph may pass them,
    do collide. *)
Remark piped_edge_keys_collide :
  Graph.key_of (lit "a|b") (lit "c") (lit "d")
  = Graph.key_of (lit "a") (lit "b|c") (lit "d").
Proof. reflexivity. Qed.

Lemma parsed_edge_key_exact_witness :
  Forall (fun r2 =>
            Graph.edge_key (edge_of (lit "s1")
                              {| source := lit "Alice"; relation := lit "likes";
                                 target := lit "Berlin"; date := None |})
            = Graph.edge_key (edge_of (lit "s2") r2)
            <-> lit "Alice" = source r2 /\ lit "likes" = relation r2
                /\ lit "Berlin" = target r2)
    (relationships (parseExtractionOutput sample_reply)).
Proof.
  apply Forall_forall. intros r2 H2.
  apply (@parsed_edge_key_exact sample_reply sample_reply (lit "s1") (lit "s2")
           {| source := lit "Alice"; relation := lit "likes";
              target := lit "Berlin"; date := None |} r2);
    [|exact H2].
  vm_compute. right. left. reflexivity.
Defined.

End ParsedFacts.

(* ================================================================== *)
(** ** What an ingest does to the graph *)

Module DigestFacts.
Import JS JSFacts Graph GraphFacts.

(** The node of [k], tagged with the session [sid]. *)
Definition tagged_node (g : EntityGraph) (k sid : str) : Prop :=
  exists n, map_get k (nodes g) = Some n /\ In sid (sessionIds n).

Lemma addEntity_tags g n t s sid :
  truthy (trim n) = true -> tagged_node (addEntity g n t s sid) (trim n) sid.
Proof.
  intros Et. unfold tagged_node, addEntity. rewrite Et; cbn.
  rewrite map_get_set_same. eexists. split; [reflexivity|].
  destruct (map_get (trim n) (nodes g)); cbn; [|now left].
  apply set_add_In. now left.
Qed.

Lemma addEntity_keeps_tag g n t s sid k sid0 :
  tagged_node g k sid0 -> tagged_node (addEntity g n t s sid) k sid0.
Proof.
  intros [node [Hk Hs]]. unfold tagged_node, addEntity.
  destruct (truthy (trim n)); cbn; [|now exists node].
  destruct (str_eqb_spec (trim n) k) as [->|Hne].
  - rewrite map_get_set_same, Hk. eexists. split; [reflexivity|]. cbn.
    apply set_add_In. now right.
  - rewrite map_get_set_other by exact Hne. now exists node.
Qed.

Lemma addRelationship_nodes g e : nodes (addRelationship g e) = nodes g.
Proof. unfold addRelationship. now destruct (set_has _ _). Qed.

Lemma addEntity_edgeSet g n t s sid : edgeSet (addEntity g n t s sid) = edgeSet g.
Proof. unfold addEntity. now destruct (truthy _). Qed.

Lemma addEntity_keys_grow g n t s sid k :
  In k (map fst (nodes g)) -> In k (map fst (nodes (addEntity g n t s sid))).
Proof.
  unfold addEntity. destruct (truthy _); cbn; [|auto].
  apply GraphQueries.map_set_keys_grow.
Qed.

Lemma addRelationship_edges_grow g e k :
  In k (edgeSet g) -> In k (edgeSet (addRelationship g e)).
Proof.
  intros H. rewrite GraphMore.edgeSet_addRelationship. apply set_add_In. now right.
Qed.

Lemma addRelationship_adds g e : In (edge_key e) (edgeSet (addRelationship g e)).
Proof. rewrite GraphMore.edgeSet_addRelationship. apply set_add_In. now left. Qed.

(** A fold establishes for each element what its step establishes and
    the later steps keep. *)
Lemma fold_each (G A : Type) (f : G -> A -> G) (Q : A -> G -> Prop) :
  (forall g a, Q a (f g a)) ->
  (forall g a b, Q a g -> Q a (f g b)) ->
  forall l g a, In a l -> Q a (fold_left f l g).
Proof.
  intros Hstep Hkeep l. induction l as [|b l IH]; intros g a; [intros []|].
  intros [->|Hin]; cbn; [|now apply IH].
  clear IH. generalize (Hstep g a). generalize (f g a).
  induction l as [|c l IH]; intros g' Hq; cbn; [exact Hq|].
  apply IH. now apply Hkeep.
Qed.

Lemma fold_keeps (G A : Type) (f : G -> A -> G) (Q : G -> Prop) :
  (forall g b, Q g -> Q (f g b)) ->
  forall l g, Q g -> Q (fold_left f l g).
Proof.
  intros Hkeep l. induction l as [|b l IH]; intros g Hq; cbn; auto.
Qed.

Lemma digest_reachable fuel g s raw g' ps :
  Provider.digest fuel g s raw = Some (g', ps) -> reachable g -> reachable g'.
Proof.
  unfold Provider.digest. cbn zeta.
  destruct (Chunker.chunkText _ _ _ _) as [textChunks|]; [|discriminate].
  intros [= <- _] Hg.
  apply (@fold_keeps _ _ _ reachable); [intros g0 r; apply reach_addRelationship|].
  apply (@fold_keeps _ _ _ reachable); [intros g0 e; apply reach_addEntity|exact Hg].
Qed.

(** What the parse loop of [ingest] does for one session: every parsed
    entity is afterwards a node under its own name, tagged with the
    session; the key of every parsed relationship is in the edge set;
    and no node and no edge key is lost. *)
Theorem digest_graph fuel g s raw g' ps :
  Provider.digest fuel g s raw = Some (g', ps) ->
  let parsed := Extraction.parseExtractionOutput raw in
  (forall e, In e (Extraction.entities parsed) ->
     tagged_node g' (Extraction.name e) (Provider.sessionId s))
  /\ (forall r, In r (Extraction.relationships parsed) ->
        In (edge_key (ParsedFacts.edge_of (Provider.sessionId s) r)) (edgeSet g'))
  /\ (forall k, In k (map fst (nodes g)) -> In k (map fst (nodes g')))
  /\ (forall k, In k (edgeSet g) -> In k (edgeSet g')).
Proof.
  unfold Provider.digest. cbn zeta.
  destruct (Chunker.chunkText _ _ _ _) as [textChunks|]; [|discriminate].
  intros [= <- <-].
  set (parsed := Extraction.parseExtractionOutput raw).
  set (addE := fun g (e : Extraction.Entity) =>
                 addEntity g (Extraction.name e) (Extraction.type e)
                   (Extraction.summary e) (Provider.sessionId s)).
  set (addR := fun g (r : Extraction.Relationship) =>
                 addRelationship g (ParsedFacts.edge_of (Provider.sessionId s) r)).
  change (fold_left _ (Extraction.relationships parsed) _)
    with (fold_left addR (Extraction.relationships parsed)
            (fold_left addE (Extraction.entities parsed) g)).
  split; [|split; [|split]].
  - intros e He.
    apply (fold_keeps addR (fun g => tagged_node g (Extraction.name e) (Provider.sessionId s))).
    { intros g0 r [n [Hn Hs]]. exists n. unfold addR. now rewrite addRelationship_nodes. }
    apply (fold_each addE
             (fun e g => In e (Extraction.entities parsed) ->
                         tagged_node g (Extraction.name e) (Provider.sessionId s)));
      [| |exact He|exact He].
    + intros g0 a Ha. unfold addE.
      destruct (ParsedFacts.parsed_entity_clean raw a Ha) as [(Hne & Htrim & _) _].
      rewrite <- Htrim at 2. apply addEntity_tags. rewrite Htrim.
      now apply ExtractionFacts.truthy_iff.
    + intros g0 a b Hq Ha. unfold addE. apply addEntity_keeps_tag. now apply Hq.
  - intros r Hr.
    apply (fold_each addR
             (fun r g => In (edge_key (ParsedFacts.edge_of (Provider.sessionId s) r))
                           (edgeSet g))); [| |exact Hr].
    + intros g0 a. apply addRelationship_adds.
    + intros g0 a b. apply addRelationship_edges_grow.
  - intros k Hk.
    apply (fold_keeps addR (fun g => In k (map fst (nodes g)))).
    { intros g0 r. unfold addR. now rewrite addRelationship_nodes. }
    apply (fold_keeps addE (fun g => In k (map fst (nodes g)))); [|exact Hk].
    intros g0 e. apply addEntity_keys_grow.
  - intros k Hk.
    apply (fold_keeps addR (fun g => In k (edgeSet g))).
    { intros g0 r. apply addRelationship_edges_grow. }
    apply (fold_keeps addE (fun g => In k (edgeSet g))); [|exact Hk].
    intros g0 e. unfold addE. now rewrite addEntity_edgeSet.
Qed.

Definition digested : EntityGraph * list Provider.Pending :=
  match Provider.digest 10 Graph.empty ProviderFacts.session1
          ParsedFacts.sample_reply with
  | Some x => x
  | None => (Graph.empty, [])
  end.

Lemma digest_graph_witness :
  tagged_node (fst digested) (lit "Berlin") (lit "s1")
  /\ In (lit "Alice|lives_in|Berlin") (edgeSet (fst digested)).
Proof.
  destruct (@digest_graph 10 Graph.empty ProviderFacts.session1
              ParsedFacts.sample_reply (fst digested) (snd digested))
    as (He & Hr & _); [vm_compute; reflexivity|].
  split.
  - apply (He {| Extraction.name := lit "Berlin";
                 Extraction.type := lit "location";
                 Extraction.summary := lit "a city|in Germany" |}).
    vm_compute. right. left. reflexivity.
  - apply (Hr {| Extraction.source := lit "Alice";
                 Extraction.relation := lit "lives_in";
                 Extraction.target := lit "Berlin";
                 Extraction.date := Some (lit "2024") |}).
    vm_compute. left. reflexivity.
Defined.

End DigestFacts.

(* ================================================================== *)
(** ** Chunk ids *)

Module ChunkIds.
Import JS JSFacts SearchTypes Provider.

Definition UNDERSCORE : N := 95.

Lemma lit_inj (a b : string) : lit a = lit b -> a = b.
Proof.
  unfold lit. intros H.
  rewrite <- (string_of_list_ascii_of_string a), <- (string_of_list_ascii_of_string b).
  f_equal. revert H. generalize (list_ascii_of_string a) (list_ascii_of_string b).
  induction l as [|x l IH]; intros [|y l']; cbn; try discriminate; [reflexivity|].
  intros [= Hxy Hl]. f_equal; [|now apply IH].
  rewrite <- (ascii_N_embedding x), <- (ascii_N_embedding y). now rewrite Hxy.
Qed.

Lemma to_uint_not_nil (n : nat) : Nat.to_uint n <> Decimal.Nil.
Proof.
  intros H. pose proof (Unsigned.of_to n) as E. rewrite H in E. cbn in E.
  subst n. discriminate H.
Qed.

Lemma decimal_inj (i j : nat) : Reranker.decimal i = Reranker.decimal j -> i = j.
Proof.
  unfold Reranker.decimal. intros H. apply lit_inj in H.
  apply Unsigned.to_uint_inj.
  assert (E : Some (Nat.to_uint i) = Some (Nat.to_uint j)).
  { rewrite <- (NilZero.usu _ (to_uint_not_nil i)), <- (NilZero.usu _ (to_uint_not_nil j)).
    now rewrite H. }
  now inversion E.
Qed.

Lemma digits_no_underscore (d : Decimal.uint) :
  ~ In UNDERSCORE (lit (NilEmpty.string_of_uint d)).
Proof.
  induction d; cbn; try (intros [H|H]; [discriminate H | now apply IHd]).
  intros [].
Qed.

Lemma decimal_no_underscore (i : nat) : ~ In UNDERSCORE (Reranker.decimal i).
Proof.
  unfold Reranker.decimal, NilZero.string_of_uint.
  destruct (Nat.to_uint i) as [|d|d|d|d|d|d|d|d|d|d];
    [cbn; intros [H|[]]; discriminate H | apply digits_no_underscore ..].
Qed.

(** The last underscore of an id separates the session from the index. *)
Lemma id_tail_split (s s' : str) (i j : nat) :
  s ++ [UNDERSCORE] ++ Reranker.decimal i = s' ++ [UNDERSCORE] ++ Reranker.decimal j ->
  s = s' /\ i = j.
Proof.
  intros E. apply (f_equal (@rev N)) in E.
  rewrite !rev_app_distr in E. cbn [rev app] in E. rewrite <- !app_assoc in E.
  cbn [app] in E.
  apply ParsedFacts.app_sep_inj in E as [Hd Hs].
  - split.
    + rewrite <- (rev_involutive s), <- (rev_involutive s'). now rewrite Hs.
    + apply decimal_inj.
      rewrite <- (rev_involutive (Reranker.decimal i)),
        <- (rev_involutive (Reranker.decimal j)). now rewrite Hd.
  - intros H. apply in_rev in H. now apply decimal_no_underscore in H.
  - intros H. apply in_rev in H. now apply decimal_no_underscore in H.
Qed.

(** The id of a chunk, from its session and index. *)
Definition id_of (containerTag : str) (k : str * nat) : str :=
  containerTag ++ lit "_" ++ fst k ++ lit "_" ++ Reranker.decimal (snd k).

Definition key (p : Pending) : str * nat := (p_sessionId p, p_chunkIndex p).

Lemma chunk_of_id containerTag p e :
  id (chunk_of containerTag p e) = id_of containerTag (key p).
Proof. reflexivity. Qed.

Lemma id_of_inj containerTag k k' :
  id_of containerTag k = id_of containerTag k' -> k = k'.
Proof.
  unfold id_of. intros E. apply app_inv_head in E.
  change (lit "_") with [UNDERSCORE] in E. cbn [app] in E.
  injection E as E. apply id_tail_split in E as [Hs Hi].
  destruct k, k'; cbn in *. congruence.
Qed.

(** Within a container the id of a chunk determines its session and its
    index: the session id may hold underscores and digits, but the index
    is written in decimal, so the last underscore of the id is the one
    before the index. *)
Theorem chunk_id_injective containerTag p q e e' :
  id (chunk_of containerTag p e) = id (chunk_of containerTag q e') ->
  p_sessionId p = p_sessionId q /\ p_chunkIndex p = p_chunkIndex q.
Proof.
  rewrite !chunk_of_id. intros E. apply id_of_inj in E.
  unfold key in E. now inversion E.
Qed.

Lemma chunk_id_injective_witness :
  p_sessionId {| p_text := lit "first"; p_sessionId := lit "s_1";
                 p_chunkIndex := 12; p_date := lit "2024-05-10";
                 p_metadata := [] |}
  = lit "s_1" /\ 12%nat = 12%nat.
Proof.
  apply (@chunk_id_injective (lit "t")
           {| p_text := lit "first"; p_sessionId := lit "s_1";
              p_chunkIndex := 12; p_date := lit "2024-05-10"; p_metadata := [] |}
           {| p_text := lit "second"; p_sessionId := lit "s_1";
              p_chunkIndex := 12; p_date := lit "unknown"; p_metadata := [] |}
           [] [1%Q]).
  reflexivity.
Defined.

(** Across containers the id does not: a tag and a session id share
    the underscore that separates them. *)
Remark chunk_id_across_containers (tag a b : str) (i : nat) :
  id_of (tag ++ lit "_" ++ a) (b, i) = id_of tag (a ++ lit "_" ++ b, i).
Proof. unfold id_of. cbn [fst snd]. now rewrite <- !app_assoc. Qed.

End ChunkIds.

(* ================================================================== *)
(** ** The document ids of an ingest *)

Module IngestIds.
Import JS JSFacts SearchTypes Provider ChunkIds.

Lemma NoDup_map_injective (A B : Type) (f : A -> B) :
  (forall a b, f a = f b -> a = b) -> forall l, NoDup l -> NoDup (map f l).
Proof.
  intros Hf l. induction 1 as [|a l Hnotin Hnd IH]; cbn; constructor; [|exact IH].
  intros Hin. apply in_map_iff in Hin as [b [Hb Hin]].
  apply Hf in Hb. now subst.
Qed.

Lemma digest_keys fuel g s raw g' ps :
  digest fuel g s raw = Some (g', ps) ->
  map key ps = map (fun i => (sessionId s, i)) (seq 0 (List.length ps)).
Proof.
  unfold digest. cbn zeta.
  destruct (Chunker.chunkText _ _ _ _) as [textChunks|]; [|discriminate].
  intros [= _ <-]. unfold Reranker.mapi. generalize 0%nat.
  induction textChunks as [|c l IH]; intros i; cbn; [reflexivity|].
  f_equal. apply IH.
Qed.

Lemma digest_all_keys fuel work : forall g g' ps,
  digest_all fuel g work = Some (g', ps) ->
  NoDup (map (fun w => sessionId (fst w)) work) ->
  NoDup (map key ps)
  /\ forall k, In k (map key ps) -> In (fst k) (map (fun w => sessionId (fst w)) work).
Proof.
  induction work as [|[s raw] work IH]; intros g g' ps; cbn.
  - intros [= _ <-] _. split; [constructor | intros k []].
  - destruct (digest fuel g s raw) as [[g1 ps1]|] eqn:E1; [|discriminate].
    destruct (digest_all fuel g1 work) as [[g2 ps2]|] eqn:E2; [|discriminate].
    intros [= _ <-] Hnd. inversion Hnd as [|? ? Hnotin Hnd']; subst.
    destruct (IH _ _ _ E2 Hnd') as [IHnd IHin].
    apply digest_keys in E1. rewrite map_app, E1.
    split.
    + apply NoDup_app.
      * apply NoDup_map_injective; [|apply seq_NoDup].
        intros i j Hij. now inversion Hij.
      * exact IHnd.
      * intros k Hk1 Hk2. apply in_map_iff in Hk1 as [i [<- _]].
        apply IHin in Hk2. cbn in Hk2. contradiction.
    + intros k Hk. apply in_app_iff in Hk as [Hk|Hk].
      * apply in_map_iff in Hk as [i [<- _]]. now left.
      * right. now apply IHin.
Qed.

Lemma batches_concat (A : Type) (fuel n : nat) : forall l : list A,
  List.concat (batches fuel n l) = l.
Proof.
  induction fuel as [|fuel IH]; intros [|a l]; cbn [batches List.concat];
    try reflexivity.
  - apply app_nil_r.
  - rewrite IH. apply firstn_skipn.
Qed.

Lemma mapi_from_ids containerTag embeddings batch : forall j,
  map id (Reranker.mapi_from
            (fun j p => chunk_of containerTag p (nth j embeddings [])) j batch)
  = map (fun p => id_of containerTag (key p)) batch.
Proof.
  induction batch as [|p batch IH]; intros j; cbn [Reranker.mapi_from map];
    [reflexivity|].
  now rewrite IH, chunk_of_id.
Qed.

Section Calls.
Variable extractMemories : UnifiedSession -> option str.
Variable embedMany : list str -> nat -> option (list (list num)).

Lemma embed_batches_ids containerTag bs : forall cs,
  embed_batches embedMany containerTag bs = Some cs ->
  map id cs = map (fun p => id_of containerTag (key p)) (List.concat bs).
Proof.
  induction bs as [|batch bs IH]; intros cs; cbn [embed_batches List.concat].
  - now intros [= <-].
  - destruct (with_retries 3 0 _) as [embeddings|]; [|discriminate].
    destruct (embed_batches embedMany containerTag bs) as [cs'|]; [|discriminate].
    intros [= <-]. rewrite !map_app, (IH cs' eq_refl). f_equal.
    apply mapi_from_ids.
Qed.

Lemma extract_all_length sessions : forall cache cache' texts,
  extract_all extractMemories cache sessions = (cache', Some texts) ->
  List.length texts = List.length sessions.
Proof.
  induction sessions as [|s rest IH]; intros cache cache' texts; cbn.
  - now intros [= _ <-].
  - destruct (map_get (sessionId s) cache) as [text|].
    + destruct (extract_all extractMemories cache rest) as [c [ts|]] eqn:E;
        [|discriminate].
      intros [= _ <-]. cbn. f_equal. eapply IH; eassumption.
    + destruct (extractMemories s) as [text|]; [|discriminate].
      destruct (extract_all extractMemories _ rest) as [c [ts|]] eqn:E;
        [|discriminate].
      intros [= _ <-]. cbn. f_equal. eapply IH; eassumption.
Qed.

Lemma combine_fst (A B : Type) (l : list A) : forall l' : list B,
  List.length l' = List.length l -> map fst (combine l l') = l.
Proof.
  induction l as [|a l IH]; intros [|b l']; cbn; try discriminate; [reflexivity|].
  intros [= H]. now rewrite IH.
Qed.

(** When the sessions of an ingest have distinct ids, the document ids
    it returns are distinct: no chunk of the call overwrites another in
    the engine, which upserts by id. *)
Theorem ingest_ids_distinct fuel st sessions containerTag st' ids :
  ingest extractMemories embedMany fuel st sessions containerTag
  = Some (st', Ok ids) ->
  NoDup (map sessionId sessions) ->
  NoDup ids.
Proof.
  unfold ingest. destruct (negb (openai st)); [discriminate|].
  destruct (extract_all extractMemories (extractionCache st) sessions)
    as [cache [extractions|]] eqn:Ex; [|discriminate].
  destruct (digest_all fuel _ (combine sessions extractions))
    as [[g allChunks]|] eqn:Ed; [|discriminate].
  destruct allChunks as [|p0 rest] eqn:Ea; [intros [= _ <-] _; constructor|].
  rewrite <- Ea in *. clear Ea p0 rest.
  destruct (embed_batches embedMany containerTag _) as [cs|] eqn:Eb;
    [|discriminate].
  intros [= _ <-] Hnd.
  rewrite (embed_batches_ids _ _ Eb), batches_concat.
  rewrite <- (map_map key (id_of containerTag)).
  apply NoDup_map_injective; [intros k k'; apply id_of_inj|].
  eapply digest_all_keys; [exact Ed|].
  rewrite <- (map_map fst sessionId), combine_fst; [exact Hnd|].
  eapply extract_all_length; exact Ex.
Qed.
End Calls.

(** Two sessions, the id of the second being the id of the first
    followed by [_0]. *)
Definition two_sessions : list UnifiedSession :=
  [ ProviderFacts.session1;
    {| sessionId := lit "s1_0"; meta_date := None; meta_rest := [] |} ].

Definition ingested_two : State * outcome (list str) :=
  match ingest ProviderFacts.extract1 ProviderFacts.embedMany1 10
          ProviderFacts.started two_sessions (lit "t") with
  | Some x => x
  | None => (new, Error)
  end.

Lemma ingest_ids_distinct_witness : NoDup [lit "t_s1_0"; lit "t_s1_0_0"].
Proof.
  apply (@ingest_ids_distinct ProviderFacts.extract1 ProviderFacts.embedMany1 10
           ProviderFacts.started two_sessions (lit "t") (fst ingested_two)).
  - vm_compute. reflexivity.
  - repeat constructor; cbn; intuition discriminate.
Defined.

End IngestIds.

(* ================================================================== *)
(** ** The graphs a provider holds *)

Module ProviderGraphs.
Import JS JSFacts SearchTypes Graph GraphFacts Provider.

(** The states a provider goes through, whatever its collaborators
    answer at each call. *)
Inductive served : State -> Prop :=
| served_new : served new
| served_initialize st apiKey st' :
    served st -> initialize st apiKey = Ok st' -> served st'
| served_ingest extractMemories embedMany fuel st sessions containerTag st' out :
    served st ->
    ingest extractMemories embedMany fuel st sessions containerTag
    = Some (st', out) ->
    served st'
| served_search embed generateText parseScores cosine lexical st query
    containerTag limit :
    served st ->
    served (fst (search embed generateText parseScores cosine lexical
                   st query containerTag limit))
| served_clear st containerTag : served st -> served (clear st containerTag).

Definition graphs_ok (gs : omap EntityGraph) : Prop :=
  forall containerTag g, In (containerTag, g) gs -> reachable g.

Lemma ensure_graph_ok gs containerTag : graphs_ok gs -> graphs_ok (ensure_graph gs containerTag).
Proof.
  intros H. unfold ensure_graph. destruct (map_has containerTag gs); [exact H|].
  intros t g Hin. apply map_set_In in Hin as [[= _ ->]|Hin];
    [constructor | eapply H; exact Hin].
Qed.

Lemma map_set_ok gs containerTag g :
  graphs_ok gs -> reachable g -> graphs_ok (map_set containerTag g gs).
Proof.
  intros H Hg t g' Hin. apply map_set_In in Hin as [[= _ ->]|Hin];
    [exact Hg | eapply H; exact Hin].
Qed.

Lemma map_delete_In (V : Type) (k : str) (m : omap V) x :
  In x (map_delete k m) -> In x m.
Proof.
  induction m as [|[k' v] m IH]; cbn; [tauto|].
  destruct (str_eqb k' k); cbn; [now right; apply IH|].
  intros [<-|H]; [now left | right; now apply IH].
Qed.

Lemma graph_of_ok gs containerTag : graphs_ok gs -> reachable (graph_of gs containerTag).
Proof.
  intros H. unfold graph_of. destruct (map_get containerTag gs) eqn:E; [|constructor].
  apply map_get_In in E. eapply H; exact E.
Qed.

Lemma digest_all_reachable fuel work : forall g g' ps,
  digest_all fuel g work = Some (g', ps) -> reachable g -> reachable g'.
Proof.
  induction work as [|[s raw] work IH]; intros g g' ps; cbn.
  - now intros [= <- _].
  - destruct (digest fuel g s raw) as [[g1 ps1]|] eqn:E1; [|discriminate].
    destruct (digest_all fuel g1 work) as [[g2 ps2]|] eqn:E2; [|discriminate].
    intros [= <- _] Hg. eapply IH; [exact E2|].
    eapply DigestFacts.digest_reachable; eassumption.
Qed.

Lemma saveToCache_graphs st containerTag : graphs (saveToCache st containerTag) = graphs st.
Proof. reflexivity. Qed.

Lemma loadFromCache_ok st containerTag :
  graphs_ok (graphs st) -> graphs_ok (graphs (loadFromCache st containerTag)).
Proof.
  intros H. unfold loadFromCache.
  destruct (search_json _); [|exact H]. cbn.
  destruct (graph_json _) as [data|]; [|exact H].
  apply map_set_ok; [now apply ensure_graph_ok|].
  apply (reach_load data reach_new).
Qed.

(** Whatever a provider has been asked to do, and whatever the models
    and the files answered, the graph it holds for a container is one
    the graph's own operations build from a new graph; so every fact
    about such graphs holds for the graph a search reads. *)
Theorem provider_graphs_reachable st :
  served st ->
  forall containerTag g,
    map_get containerTag (graphs st) = Some g -> reachable g /\ wf g.
Proof.
  intros Hs. assert (Hok : graphs_ok (graphs st)).
  { induction Hs as [ | st apiKey st' Hs IH Hi
                      | em eb fuel st sessions tag st' out Hs IH Hi
                      | e gt ps cs lx st q tag limit Hs IH
                      | st tag Hs IH ].
    - intros t g [].
    - unfold initialize in Hi. destruct (truthy apiKey); [|discriminate].
      injection Hi as <-. exact IH.
    - unfold ingest in Hi. destruct (negb (openai st)).
      { injection Hi as <- _. exact IH. }
      pose proof (graph_of_ok tag IH) as Hg0.
      destruct (extract_all em (extractionCache st) sessions)
        as [cache [extractions|]].
      + destruct (digest_all fuel _ _) as [[g allChunks]|] eqn:Ed; [|discriminate].
        apply digest_all_reachable in Ed; [|exact Hg0].
        assert (H1 : graphs_ok (graphs (set_graph st tag g cache))).
        { cbn. apply map_set_ok; [now apply ensure_graph_ok|exact Ed]. }
        destruct allChunks; [injection Hi as <- _; exact H1|].
        destruct (embed_batches eb tag _); injection Hi as <- _; exact H1.
      + injection Hi as <- _. cbn.
        apply map_set_ok; [now apply ensure_graph_ok|exact Hg0].
    - unfold search. destruct (negb (openai st)); [exact IH|].
      assert (H1 : graphs_ok
                     (graphs (if HybridSearch.hasData (searchEngine st) tag
                              then st else loadFromCache st tag))).
      { destruct (HybridSearch.hasData _ _); [exact IH|now apply loadFromCache_ok]. }
      destruct (with_retries 3 0 (e q)); exact H1.
    - intros t g Hin. cbn in Hin. apply map_delete_In in Hin. eapply IH; exact Hin. }
  intros t g Hg. apply map_get_In in Hg. apply Hok in Hg.
  split; [exact Hg | now apply reachable_wf].
Qed.

(** The state after the ingest, the [clear] and the [search] of the run
    above: the search has loaded the graph back from the snapshot. *)
Lemma provider_graphs_reachable_witness :
  wf (graph_of (graphs (fst ProviderFacts.searched)) (lit "t"))
  /\ nodeCount (graph_of (graphs (fst ProviderFacts.searched)) (lit "t")) = 2%nat.
Proof.
  split; [|vm_compute; reflexivity].
  refine (proj2 (@provider_graphs_reachable (fst ProviderFacts.searched) _
                   (lit "t") _ _)); [|vm_compute; reflexivity].
  apply served_search. apply served_clear.
  apply (@served_ingest ProviderFacts.extract1 ProviderFacts.embedMany1 10
           ProviderFacts.started [ProviderFacts.session1] (lit "t") _
           (Ok [lit "t_s1_0"])); [|vm_compute; reflexivity].
  apply (@served_initialize new (lit "sk-test")); [constructor|reflexivity].
Defined.

End ProviderGraphs.

(* ================================================================== *)
(** ** The extraction slots *)

Module PoolFacts.
Import Pool.

(** What the extractions do to the slots: a caller asks for one, or a
    caller that holds one gives it back (the [finally] of [doExtract]). *)
Inductive event :=
| Acquire (caller : nat)
| Release (caller : nat).

(** The slots, with the bookkeeping the proof needs: the callers that
    hold a slot, the callers that had to wait, in the order of their
    calls, and the callers that were resumed, in the order of the
    releases. *)
Record world := {
  slots : Slots;
  holders : list nat;
  deferred : list nat;
  resumed : list nat
}.

Definition start : world :=
  {| slots := Pool.new; holders := []; deferred := []; resumed := [] |}.

Fixpoint remove_one (c : nat) (l : list nat) : list nat :=
  match l with
  | [] => []
  | x :: l' => if Nat.eqb x c then l' else x :: remove_one c l'
  end.

(** [None] when a caller releases a slot it does not hold. *)
Definition step (w : world) (ev : event) : option world :=
  match ev with
  | Acquire c =>
      let (s, granted) := acquireExtractionSlot (slots w) c in
      Some {| slots := s;
              holders := if granted then c :: holders w else holders w;
              deferred := if granted then deferred w else deferred w ++ [c];
              resumed := resumed w |}
  | Release c =>
      if existsb (Nat.eqb c) (holders w) then
        let (s, next) := releaseExtractionSlot (slots w) in
        Some {| slots := s;
                holders :=
                  match next with
                  | Some n => n :: remove_one c (holders w)
                  | None => remove_one c (holders w)
                  end;
                deferred := deferred w;
                resumed :=
                  match next with
                  | Some n => resumed w ++ [n]
                  | None => resumed w
                  end |}
      else None
  end.

Fixpoint run (w : world) (trace : list event) : option world :=
  match trace with
  | [] => Some w
  | ev :: rest =>
      match step w ev with
      | Some w' => run w' rest
      | None => None
      end
  end.

Record invariant (w : world) : Prop := {
  inv_count : activeGlobalExtractions (slots w) = Z.of_nat (List.length (holders w));
  inv_bound : activeGlobalExtractions (slots w) <= MAX_GLOBAL_EXTRACTIONS;
  inv_full : extractionQueue (slots w) <> [] ->
             activeGlobalExtractions (slots w) = MAX_GLOBAL_EXTRACTIONS;
  inv_fifo : resumed w ++ extractionQueue (slots w) = deferred w
}.

Lemma remove_one_length c l :
  existsb (Nat.eqb c) l = true -> S (List.length (remove_one c l)) = List.length l.
Proof.
  induction l as [|x l IH]; cbn; [discriminate|].
  rewrite (Nat.eqb_sym c x). destruct (Nat.eqb x c); cbn; [reflexivity|].
  intros H. now rewrite IH.
Qed.

Lemma start_invariant : invariant start.
Proof. split; cbn; [reflexivity | discriminate | congruence | reflexivity]. Qed.

Lemma step_invariant w ev w' : invariant w -> step w ev = Some w' -> invariant w'.
Proof.
  intros [Hc Hb Hf Hq]. destruct ev as [c|c]; cbn.
  - unfold acquireExtractionSlot.
    destruct (Z.ltb_spec (activeGlobalExtractions (slots w)) MAX_GLOBAL_EXTRACTIONS)
      as [Hlt|Hge]; intros [= <-]; split; cbn.
    + rewrite Hc. lia.
    + lia.
    + intros Hne. specialize (Hf Hne). lia.
    + exact Hq.
    + exact Hc.
    + exact Hb.
    + intros _. lia.
    + now rewrite app_assoc, Hq.
  - destruct (existsb (Nat.eqb c) (holders w)) eqn:Eh; [|discriminate].
    apply remove_one_length in Eh. unfold releaseExtractionSlot.
    destruct (extractionQueue (slots w)) as [|next rest] eqn:Eq;
      intros [= <-]; split; cbn.
    + lia.
    + lia.
    + congruence.
    + now rewrite app_nil_r in *.
    + lia.
    + lia.
    + intros _. rewrite Hf by discriminate. lia.
    + rewrite <- Hq, <- app_assoc. reflexivity.
Qed.

(** However the extractions interleave, as long as a slot is released
    only by a caller that holds one: the counter is the number of
    callers holding a slot and never exceeds [MAX_GLOBAL_EXTRACTIONS];
    a caller waits only while all the slots are taken; and the waiting
    callers are resumed in the order in which they asked, none being
    passed over. *)
Theorem slots_invariant trace w :
  run start trace = Some w ->
  activeGlobalExtractions (slots w) = Z.of_nat (List.length (holders w))
  /\ activeGlobalExtractions (slots w) <= MAX_GLOBAL_EXTRACTIONS
  /\ (extractionQueue (slots w) <> [] ->
      activeGlobalExtractions (slots w) = MAX_GLOBAL_EXTRACTIONS)
  /\ resumed w ++ extractionQueue (slots w) = deferred w.
Proof.
  intros Hrun. assert (Hinv : invariant w).
  { revert Hrun. generalize start_invariant. generalize start.
    induction trace as [|ev rest IH]; intros w0 H0; cbn.
    - now intros [= <-].
    - destruct (step w0 ev) as [w1|] eqn:E; [|discriminate].
      apply IH. eapply step_invariant; eassumption. }
  destruct Hinv. auto.
Qed.

(** 302 callers ask for a slot, then callers 0 and 1 release theirs:
    callers 300 and 301 waited and are resumed in that order. *)
Definition rush : list event :=
  map Acquire (seq 0 302) ++ [Release 0%nat; Release 1%nat].

Definition after_rush : world :=
  match run start rush with Some w => w | None => start end.

Lemma slots_invariant_witness :
  (activeGlobalExtractions (slots after_rush)
   = Z.of_nat (List.length (holders after_rush))
   /\ activeGlobalExtractions (slots after_rush) <= MAX_GLOBAL_EXTRACTIONS
   /\ (extractionQueue (slots after_rush) <> [] ->
       activeGlobalExtractions (slots after_rush) = MAX_GLOBAL_EXTRACTIONS)
   /\ resumed after_rush ++ extractionQueue (slots after_rush)
      = deferred after_rush)
  /\ deferred after_rush = [300%nat; 301%nat]
  /\ List.length (holders after_rush) = 300%nat.
Proof.
  split; [|split; vm_compute; reflexivity].
  apply (@slots_invariant rush after_rush). vm_compute. reflexivity.
Defined.

End PoolFacts.

(* ================================================================== *)
(** ** The retries of the extraction call *)

Module ExtractorFacts.
Import JS Extractor.

(** The waits before attempt [k]: 2000 ms doubled at each failure. *)
Definition backoff_from (a k : nat) : list Z :=
  map (fun j => 2000 * 2 ^ Z.of_nat j) (seq a k).

Definition total (waits : list Z) : Z := fold_right Z.add 0 waits.

Lemma total_backoff_from k : forall a,
  total (backoff_from a k) = 2000 * 2 ^ Z.of_nat a * (2 ^ Z.of_nat k - 1).
Proof.
  unfold total, backoff_from.
  induction k as [|k IH]; intros a; cbn [seq map fold_right]; [cbn; lia|].
  rewrite IH. rewrite !Nat2Z.inj_succ, !Z.pow_succ_r by lia. lia.
Qed.

Section Call.
Variable generateText : str -> nat -> Reranker.reply.

Lemma attempts_step prompt left a :
  attempts generateText (S left) a prompt
  = match generateText prompt a with
    | Reranker.Text text => ([], Returned (trim text))
    | Reranker.Throws =>
        match left with
        | O => ([], Rethrown a)
        | S _ =>
            let (ds, out) := attempts generateText left (S a) prompt in
            (2000 * 2 ^ Z.of_nat a :: ds, out)
        end
    end.
Proof. reflexivity. Qed.

Lemma attempts_returned prompt text k : forall left a,
  (k < left)%nat ->
  (forall j, (j < k)%nat -> generateText prompt (a + j) = Reranker.Throws) ->
  generateText prompt (a + k) = Reranker.Text text ->
  attempts generateText left a prompt = (backoff_from a k, Returned (trim text)).
Proof.
  induction k as [|k IH]; intros left a Hk Hthrows Htext.
  - destruct left as [|left]; [lia|]. rewrite attempts_step.
    rewrite Nat.add_0_r in Htext. now rewrite Htext.
  - destruct left as [|left]; [lia|]. rewrite attempts_step.
    rewrite <- (Nat.add_0_r a) at 1. rewrite (Hthrows 0%nat) by lia.
    destruct left as [|left]; [lia|].
    rewrite (IH (S left) (S a)).
    + reflexivity.
    + lia.
    + intros j Hj. replace (S a + j)%nat with (a + S j)%nat by lia.
      apply Hthrows. lia.
    + now replace (S a + k)%nat with (a + S k)%nat by lia.
Qed.

Lemma attempts_rethrown prompt : forall left a,
  (forall j, (j < S left)%nat -> generateText prompt (a + j) = Reranker.Throws) ->
  attempts generateText (S left) a prompt
  = (backoff_from a left, Rethrown (a + left)).
Proof.
  induction left as [|left IH]; intros a Hthrows; rewrite attempts_step.
  - rewrite <- (Nat.add_0_r a) at 1. rewrite (Hthrows 0%nat) by lia.
    now rewrite Nat.add_0_r.
  - rewrite <- (Nat.add_0_r a) at 1. rewrite (Hthrows 0%nat) by lia.
    rewrite (IH (S a)).
    + replace (S a + left)%nat with (a + S left)%nat by lia. reflexivity.
    + intros j Hj. replace (S a + j)%nat with (a + S j)%nat by lia.
      apply Hthrows. lia.
Qed.

(** [extractMemories] returns the trimmed text of the first call of the
    model that does not throw, provided it is among the first
    [maxRetries]; before it, it has waited 2000, 4000, 8000, ... ms, one
    wait per failed call, [2000 * (2^k - 1)] ms in all after [k]
    failures.  When all [maxRetries] calls throw it rethrows the error
    of the last call, without a wait after it. *)
Theorem extractMemories_backoff session maxRetries :
  let prompt := buildExtractionPrompt session in
  (forall k text,
     (k < maxRetries)%nat ->
     (forall j, (j < k)%nat -> generateText prompt j = Reranker.Throws) ->
     generateText prompt k = Reranker.Text text ->
     extractMemories_trace generateText session maxRetries
     = (backoff_from 0 k, Returned (trim text))
     /\ total (backoff_from 0 k) = 2000 * (2 ^ Z.of_nat k - 1))
  /\ ((0 < maxRetries)%nat ->
      (forall j, (j < maxRetries)%nat -> generateText prompt j = Reranker.Throws) ->
      extractMemories_trace generateText session maxRetries
      = (backoff_from 0 (maxRetries - 1), Rethrown (maxRetries - 1))
      /\ total (backoff_from 0 (maxRetries - 1))
         = 2000 * (2 ^ Z.of_nat (maxRetries - 1) - 1)).
Proof.
  cbn zeta. split.
  - intros k text Hk Hthrows Htext. split.
    + unfold extractMemories_trace. now apply attempts_returned.
    + rewrite total_backoff_from. cbn. lia.
  - intros Hpos Hthrows. split.
    + unfold extractMemories_trace.
      destruct maxRetries as [|m]; [lia|].
      rewrite attempts_rethrown by exact Hthrows.
      now rewrite Nat.sub_succ, Nat.sub_0_r.
    + rewrite total_backoff_from. cbn. lia.
Qed.
End Call.

(** A model that fails twice and then answers; and one that always
    fails. *)
Definition flaky (prompt : str) (attempt : nat) : Reranker.reply :=
  if (attempt <? 2)%nat then Reranker.Throws
  else Reranker.Text (lit "  <memories>x</memories> ").

Definition down (prompt : str) (attempt : nat) : Reranker.reply := Reranker.Throws.

Definition talk : Session :=
  {| sessionId := lit "s1"; speakerA := Some (lit "Ann"); speakerB := None;
     formattedDate := None; date := Some (lit "2024-05-10");
     messages :=
       [ {| speaker := Some (lit "Ann"); role := lit "user";
            timestamp := Some (lit "09:00"); content := lit "I moved to Berlin." |};
         {| speaker := None; role := lit "assistant"; timestamp := None;
            content := lit "Noted." |} ] |}.

Lemma extractMemories_backoff_witness :
  extractMemories_trace flaky talk 5
  = ([2000; 4000], Returned (lit "<memories>x</memories>"))
  /\ extractMemories_trace down talk 5
     = ([2000; 4000; 8000; 16000], Rethrown 4).
Proof.
  destruct (extractMemories_backoff flaky talk 5) as [H1 _].
  destruct (extractMemories_backoff down talk 5) as [_ H2].
  split.
  - apply (H1 2%nat (lit "  <memories>x</memories> ")); [lia| |reflexivity].
    intros j Hj. destruct j as [|[|j]]; [reflexivity|reflexivity|lia].
  - apply H2; [lia|reflexivity].
Defined.

End ExtractorFacts.

(* ================================================================== *)
(** ** The extraction cache *)

Module CacheFacts.
Import JS JSFacts SearchTypes Provider.

Section Calls.
Variable extractMemories : UnifiedSession -> option str.

Lemma map_set_keeps (V : Type) (k k' : str) (v v' : V) (m : omap V) :
  map_get k m = None -> map_get k' m = Some v' ->
  map_get k' (map_set k v m) = Some v'.
Proof.
  intros Hk Hk'. destruct (str_eqb_spec k k') as [->|Hne]; [congruence|].
  now rewrite map_get_set_other.
Qed.

Lemma extract_all_grows sessions : forall cache cache' out,
  extract_all extractMemories cache sessions = (cache', out) ->
  forall k v, map_get k cache = Some v -> map_get k cache' = Some v.
Proof.
  induction sessions as [|s rest IH]; intros cache cache' out; cbn.
  - now intros [= <- _].
  - destruct (map_get (sessionId s) cache) as [text|] eqn:Eg.
    + destruct (extract_all extractMemories cache rest) as [c o] eqn:E.
      intros Hout k v Hk.
      assert (c = cache') by (destruct o; now inversion Hout). subst c.
      eapply IH; eassumption.
    + destruct (extractMemories s) as [text|].
      * destruct (extract_all extractMemories _ rest) as [c o] eqn:E.
        intros Hout k v Hk.
        assert (c = cache') by (destruct o; now inversion Hout). subst c.
        eapply IH; [exact E|]. now apply map_set_keeps.
      * intros [= <- _] k v Hk. exact Hk.
Qed.

(** After the extractions of an ingest have succeeded, the cache holds
    the text of every session under its id, keeps every entry it had,
    and a second pass over the same sessions returns the same texts
    from the cache alone, whatever the model would answer. *)
Theorem extract_all_memoised sessions cache cache' texts :
  extract_all extractMemories cache sessions = (cache', Some texts) ->
  Forall2 (fun s text => map_get (sessionId s) cache' = Some text) sessions texts
  /\ (forall k v, map_get k cache = Some v -> map_get k cache' = Some v)
  /\ (forall model, extract_all model cache' sessions = (cache', Some texts)).
Proof.
  intros Hex. split; [|split].
  - revert cache cache' texts Hex.
    induction sessions as [|s rest IH]; intros cache cache' texts; cbn.
    + intros [= _ <-]. constructor.
    + destruct (map_get (sessionId s) cache) as [text|] eqn:Eg.
      * destruct (extract_all extractMemories cache rest) as [c [ts|]] eqn:E;
          [|discriminate].
        intros [= -> <-]. constructor; [|eapply IH; exact E].
        eapply extract_all_grows; eassumption.
      * destruct (extractMemories s) as [text|]; [|discriminate].
        destruct (extract_all extractMemories _ rest) as [c [ts|]] eqn:E;
          [|discriminate].
        intros [= -> <-]. constructor; [|eapply IH; exact E].
        eapply extract_all_grows; [exact E|]. apply map_get_set_same.
  - eapply extract_all_grows; exact Hex.
  - intros model. revert cache cache' texts Hex.
    induction sessions as [|s rest IH]; intros cache cache' texts; cbn.
    + now intros [= <- <-].
    + destruct (map_get (sessionId s) cache) as [text|] eqn:Eg.
      * destruct (extract_all extractMemories cache rest) as [c [ts|]] eqn:E;
          [|discriminate].
        intros [= -> <-].
        rewrite (extract_all_grows _ _ E _ Eg). now rewrite (IH _ _ _ E).
      * destruct (extractMemories s) as [text|]; [|discriminate].
        destruct (extract_all extractMemories _ rest) as [c [ts|]] eqn:E;
          [|discriminate].
        intros [= -> <-].
        rewrite (extract_all_grows _ _ E _ (map_get_set_same _ _ _)).
        now rewrite (IH _ _ _ E).
Qed.
End Calls.

Lemma extract_all_memoised_witness :
  extract_all (fun _ => None) [(lit "s1", ProviderFacts.extraction1)]
    [ProviderFacts.session1; ProviderFacts.session1]
  = ([(lit "s1", ProviderFacts.extraction1)],
     Some [ProviderFacts.extraction1; ProviderFacts.extraction1]).
Proof.
  apply (@extract_all_memoised ProviderFacts.extract1 _ []).
  reflexivity.
Defined.

End CacheFacts.

(* ================================================================== *)
(** ** What the reranker returns *)

Module RerankSelect.
Import JS JSFacts SearchTypes Reranker.
Local Open Scope Q_scope.

(** The result [o] is the candidate [r], but for its [score] and its
    [rerankScore]. *)
Definition same_chunk (r o : SearchResult) : Prop :=
  r_content o = r_content r /\ vectorScore o = vectorScore r
  /\ bm25Score o = bm25Score r /\ r_sessionId o = r_sessionId r
  /\ r_chunkIndex o = r_chunkIndex r /\ r_date o = r_date r
  /\ r_eventDate o = r_eventDate r /\ r_metadata o = r_metadata r.

Lemma same_chunk_refl r : same_chunk r r.
Proof. repeat split. Qed.

(** A choice of [k] of the candidates, each taken once. *)
Definition chosen (k : nat) (results out : list SearchResult) : Prop :=
  exists picked rest,
    Permutation (picked ++ rest) results
    /\ Forall2 same_chunk picked out
    /\ List.length out = Nat.min k (List.length results).

Lemma Forall2_refl_same l : Forall2 same_chunk l l.
Proof. induction l; constructor; [apply same_chunk_refl | assumption]. Qed.

Lemma chosen_prefix k results : chosen k results (firstn k results).
Proof.
  exists (firstn k results), (skipn k results). split; [|split].
  - now rewrite firstn_skipn.
  - apply Forall2_refl_same.
  - apply length_firstn.
Qed.

Lemma arr_slice_firstn (A : Type) (l : list A) (k : Z) :
  (0 <= k)%Z -> arr_slice l 0 k = firstn (Z.to_nat k) l.
Proof.
  intros Hk. unfold arr_slice, rel_index.
  replace (0 <? 0)%Z with false by reflexivity.
  replace (k <? 0)%Z with false by (symmetry; apply Z.ltb_ge; lia).
  replace (Z.min 0 (Z.of_nat (List.length l))) with 0%Z by lia.
  cbn [Z.to_nat skipn]. rewrite Z.sub_0_r.
  destruct (Z.min_spec k (Z.of_nat (List.length l))) as [[Hlt ->]|[Hge ->]];
    [reflexivity|].
  rewrite Nat2Z.id, firstn_all. symmetry. apply firstn_all2. lia.
Qed.

Lemma mapi_from_fst (A B : Type) (f : nat -> A -> B) (l : list A) : forall i,
  map fst (mapi_from (fun i a => (a, f i a)) i l) = l.
Proof. induction l as [|a l IH]; intros i; cbn; [reflexivity|]. now rewrite IH. Qed.

Lemma Forall2_with_rerank ps : Forall2 same_chunk (map fst ps) (map with_rerank ps).
Proof.
  induction ps as [|[r x] ps IH]; cbn; constructor; [|exact IH].
  repeat split.
Qed.

Lemma reranked_chosen scores results k :
  chosen k results (reranked scores results (Z.of_nat k)).
Proof.
  unfold reranked.
  set (sorted := sort_desc snd (mapi (fun i r => (r, score_of scores i)) results)).
  assert (Hperm : Permutation (map fst sorted) results).
  { unfold sorted. rewrite (Permutation_map fst (SearchFacts.sort_desc_perm snd _)).
    unfold mapi. now rewrite mapi_from_fst. }
  assert (Hslice : arr_slice sorted 0 (Z.of_nat k) = firstn k sorted).
  { rewrite arr_slice_firstn by lia. now rewrite Nat2Z.id. }
  rewrite Hslice.
  exists (map fst (firstn k sorted)), (map fst (skipn k sorted)). split; [|split].
  - rewrite <- map_app, firstn_skipn. exact Hperm.
  - apply Forall2_with_rerank.
  - rewrite length_map, length_firstn.
    now rewrite <- (Permutation_length Hperm), length_map.
Qed.

(** The results of a successful attempt carry their rerank score,
    their score is a tenth of it, and they are in descending order. *)
Definition rescored (out : list SearchResult) : Prop :=
  Forall (fun o => exists x, rerankScore o = Some x /\ score o = x / 10) out
  /\ SearchFacts.descending score out.

Lemma firstn_subset (A : Type) (l : list A) : forall k x,
  In x (firstn k l) -> In x l.
Proof.
  induction l as [|a l IH]; intros [|k] x; cbn; try tauto.
  intros [->|H]; [now left | right; eapply IH; exact H].
Qed.

Lemma firstn_sorted (A : Type) (R : A -> A -> Prop) (l : list A) : forall k,
  StronglySorted R l -> StronglySorted R (firstn k l).
Proof.
  induction l as [|a l IH]; intros [|k] H; cbn; try constructor.
  - apply IH. now inversion H.
  - inversion H as [|? ? _ Hall]; subst. rewrite Forall_forall in *.
    intros x Hx. apply Hall. eapply firstn_subset; exact Hx.
Qed.

Lemma map_sorted (A B : Type) (R : A -> A -> Prop) (S : B -> B -> Prop)
    (f : A -> B) (l : list A) :
  (forall a b, R a b -> S (f a) (f b)) ->
  StronglySorted R l -> StronglySorted S (map f l).
Proof.
  intros Hf. induction 1 as [|a l Hs IH Hall]; cbn; constructor; [exact IH|].
  apply Forall_map. eapply Forall_impl; [|exact Hall]. intros b. apply Hf.
Qed.

Lemma reranked_rescored scores results k :
  rescored (reranked scores results (Z.of_nat k)).
Proof.
  unfold reranked. rewrite arr_slice_firstn by lia. rewrite Nat2Z.id.
  split.
  - apply Forall_map, Forall_forall. intros [r x] _. now exists x.
  - apply (@map_sorted _ _ (fun a b : SearchResult * num => snd b <= snd a)).
    + intros [r x] [r' x'] Hle. cbn in *.
      apply Qmult_le_compat_r; [exact Hle|discriminate].
    + apply firstn_sorted. apply SearchFacts.sort_desc_sorted.
Qed.

Section Driver.
Variable generateText : str -> nat -> reply.
Variable parseScores : str -> option (list RerankScore).

Lemma attempts_cases results topK left : forall attempt prompt,
  let out := snd (attempts generateText parseScores left attempt prompt
                    results topK) in
  out = arr_slice results 0 topK
  \/ exists scores, out = reranked scores results topK.
Proof.
  induction left as [|left IH]; intros attempt prompt; cbn zeta; cbn [attempts];
    [now left|].
  specialize (IH (S attempt) prompt). cbn zeta in IH.
  unfold attempt_body, retry_or_fallback.
  destruct (generateText prompt attempt) as [|text];
    [|destruct (json_block text) as [block|];
      [destruct (parseScores block) as [scores|]|]];
    try (right; now exists scores);
    (destruct (attempt <? 2)%nat; [|now left];
     destruct (attempts _ _ left (S attempt) prompt results topK); exact IH).
Qed.

(** For a non-negative [topK], [rerankResults] returns
    [min(topK, results.length)] results, each of them one of the
    candidates--no candidate twice--with nothing changed but [score] and
    [rerankScore]; and either they are the first candidates, in their
    order and unchanged (too few candidates, or no usable reply), or
    each carries a rerank score, its score is a tenth of it, and the
    list is in descending order of score. *)
Theorem rerankResults_selects query results topK :
  (0 <= topK)%Z ->
  let out := rerankResults generateText parseScores query results topK in
  chosen (Z.to_nat topK) results out
  /\ (out = firstn (Z.to_nat topK) results \/ rescored out).
Proof.
  intros Hk. cbn zeta. unfold rerankResults, rerankResults_trace.
  destruct (Z.leb_spec (JS.length results) topK) as [Hle|Hgt]; cbn [snd].
  - unfold JS.length in Hle.
    assert (E : firstn (Z.to_nat topK) results = results)
      by (apply firstn_all2; lia).
    split; [|left; now rewrite E].
    rewrite <- E at 2. apply chosen_prefix.
  - destruct (attempts_cases results topK 3 0
                (buildPrompt query (detectQueryType query) results))
      as [E|[scores E]]; cbn zeta in E; rewrite E.
    + rewrite arr_slice_firstn by exact Hk.
      split; [apply chosen_prefix | now left].
    + rewrite <- (Z2Nat.id topK) by exact Hk. rewrite Nat2Z.id. split.
      * apply reranked_chosen.
      * right. apply reranked_rescored.
Qed.
End Driver.

(** A model that scores the third candidate highest and the first
    lowest. *)
Definition scoring_model (prompt : str) (attempt : nat) : reply :=
  Text (lit "Scores: [..] done").

Definition parse_fixed (block : str) : option (list RerankScore) :=
  Some [ {| index := 2; rscore := 9 |}; {| index := 1; rscore := 4 |};
         {| index := 0; rscore := 1 |} ].

Lemma rerankResults_selects_witness :
  map r_content
    (rerankResults scoring_model parse_fixed (lit "what camera")
       RerankFacts.three_hits 2)
  = [lit "third"; lit "second"]
  /\ rescored (rerankResults scoring_model parse_fixed (lit "what camera")
                 RerankFacts.three_hits 2).
Proof.
  split; [vm_compute; reflexivity|].
  destruct (@rerankResults_selects scoring_model parse_fixed (lit "what camera")
              RerankFacts.three_hits 2) as [_ [H|H]]; [lia| |exact H].
  vm_compute in H. discriminate H.
Defined.

End RerankSelect.

(* ================================================================== *)
(** ** The size and the order of a search result *)

Module SearchSizes.
Import JS JSFacts SearchTypes Provider.

(** [options.limit || 10] *)
Definition effective_limit (limit : option Z) : Z :=
  match limit with
  | Some l => if (l =? 0)%Z then 10 else l
  | None => 10
  end.

Lemma graph_results_shape st containerTag query :
  exists ents rels,
    graph_results st containerTag query
    = map EntityResult ents ++ map RelationshipResult rels
    /\ (List.length ents <= 10)%nat /\ (List.length rels <= 20)%nat.
Proof.
  assert (Hnone : exists ents rels,
             @nil result = map EntityResult ents ++ map RelationshipResult rels
             /\ (List.length ents <= 10)%nat /\ (List.length rels <= 20)%nat).
  { exists [], []. cbn. repeat split; lia. }
  unfold graph_results.
  destruct (map_get containerTag (graphs st)) as [g|]; [|exact Hnone].
  destruct (0 <? Graph.nodeCount g)%nat; [|exact Hnone].
  destruct (Graph.findEntitiesInQuery g query) as [|n ns]; [exact Hnone|].
  destruct (TraversalFacts.hops_capped 2 g (n :: ns)
              (TraversalFacts.seed_layer_capped g (n :: ns))) as [He Hr].
  eexists. eexists. split; [reflexivity|]. split; [exact He | exact Hr].
Qed.

Section Calls.
Variable embed : str -> nat -> option (list num).
Variable generateText : str -> nat -> Reranker.reply.
Variable parseScores : str -> option (list Reranker.RerankScore).
Variable cosine : list num -> list num -> num.
Variable lexical : str -> str -> num.

(** A successful [search] with a non-negative limit returns the chunk
    results first, at most [limit] of them ([10] when no limit or 0 is
    given), then at most 10 entities, then at most 20 relationships. *)
Theorem search_sizes st query containerTag limit st' rs :
  search embed generateText parseScores cosine lexical st query containerTag limit
  = (st', Ok rs) ->
  0 <= effective_limit limit ->
  exists chunks ents rels,
    rs = map ChunkResult chunks ++ map EntityResult ents
         ++ map RelationshipResult rels
    /\ JS.length chunks <= effective_limit limit
    /\ (List.length ents <= 10)%nat
    /\ (List.length rels <= 20)%nat.
Proof.
  unfold search. destruct (negb (openai st)); [discriminate|].
  set (st1 := if HybridSearch.hasData (searchEngine st) containerTag
              then st else loadFromCache st containerTag).
  destruct (with_retries 3 0 (embed query)) as [qe|]; [|discriminate].
  fold (effective_limit limit). set (k := effective_limit limit).
  set (hybrid := HybridSearch.search cosine lexical (searchEngine st1)
                   containerTag qe query (Z.to_nat (Z.max k RERANK_OVERFETCH))).
  intros [= _ <-] Hk.
  destruct (graph_results_shape st1 containerTag query)
    as (ents & rels & -> & He & Hr).
  eexists. exists ents, rels. split; [reflexivity|].
  split; [|split; assumption].
  destruct (Z.ltb_spec k (JS.length hybrid)) as [Hlt|Hge]; [|exact Hge].
  unfold Reranker.rerankResults, Reranker.rerankResults_trace.
  replace (JS.length hybrid <=? k) with false by (symmetry; apply Z.leb_gt; lia).
  unfold JS.length at 1.
  rewrite (@ProviderFacts.attempts_length generateText parseScores hybrid k) by lia.
  lia.
Qed.
End Calls.

Lemma search_sizes_witness :
  exists chunks ents rels,
    snd ProviderFacts.searched
    = Ok (map ChunkResult chunks ++ map EntityResult ents
          ++ map RelationshipResult rels)
    /\ JS.length chunks <= 10
    /\ (List.length ents <= 10)%nat
    /\ (List.length rels <= 20)%nat.
Proof.
  destruct (@search_sizes ProviderFacts.embed1 ProviderFacts.no_reranker
              ProviderFacts.no_scores ProviderFacts.cosine1 ProviderFacts.lexical1
              ProviderFacts.cleared (lit "What about the Sony camera?") (lit "t")
              None (fst ProviderFacts.searched)
              (match snd ProviderFacts.searched with Ok rs => rs | Error => [] end))
    as (chunks & ents & rels & E & H);
    [vm_compute; reflexivity | cbn; lia |].
  exists chunks, ents, rels. split; [|exact H].
  rewrite <- E. vm_compute. reflexivity.
Defined.

End SearchSizes.

(* ================================================================== *)
(** ** Patterns that list phrases *)

Module PhraseFacts.
Import JS Regex.









Section Matching.
Variable s : str.





End Matching.

End PhraseFacts.

(* ================================================================== *)
(** ** The sub-queries of a counting query *)

Module DecomposeFacts.
Import JS JSFacts Decompose.

Lemma trimStart_snoc (l : str) (c : N) :
  is_ws c = false -> trimStart (l ++ [c]) = trimStart l ++ [c].
Proof.
  intros Hc. induction l as [|d l IH]; cbn; [now rewrite Hc|].
  destruct (is_ws d); [exact IH | reflexivity].
Qed.

(** [trim] keeps a first code unit that is not white space. *)
Lemma trim_head (c : N) (s : str) :
  is_ws c = false -> exists s', trim (c :: s) = c :: s'.
Proof.
  intros Hc. unfold trim, trimEnd. cbn [trimStart]. rewrite Hc.
  cbn [rev]. rewrite trimStart_snoc by exact Hc.
  rewrite rev_app_distr. cbn. eauto.
Qed.

Lemma strip_bullets_subset (l : str) x : In x (strip_bullets l) -> In x l.
Proof.
  induction l as [|c l IH]; cbn; [tauto|].
  destruct (is_bullet c); [right; now apply IH | tauto].
Qed.

Lemma strip_bullets_head (l : str) :
  match strip_bullets l with c :: _ => is_bullet c = false | [] => True end.
Proof.
  induction l as [|c l IH]; cbn; [exact I|].
  destruct (is_bullet c) eqn:E; [exact IH | exact E].
Qed.

Lemma bullet_ws c : is_bullet c = false -> is_ws c = false.
Proof. unfold is_bullet. intros H. now apply orb_false_iff in H. Qed.

(** What every sub-query looks like. *)
Definition well_formed (q : str) : Prop :=
  3 < length q < 200
  /\ trim q = q
  /\ ~ In NL q
  /\ match q with c :: _ => is_bullet c = false | [] => False end.

Lemma subQueries_shape text :
  (List.length (subQueries text) <= 5)%nat
  /\ Forall well_formed (subQueries text).
Proof.
  unfold subQueries. rewrite RerankSelect.arr_slice_firstn by lia.
  split; [rewrite length_firstn; cbn; lia|].
  apply Forall_forall. intros q Hq.
  apply RerankSelect.firstn_subset in Hq.
  apply filter_In in Hq as [Hq Hlen].
  apply in_map_iff in Hq as [l [<- Hl]].
  apply andb_true_iff in Hlen as [H3 H200].
  apply Z.ltb_lt in H3, H200.
  split; [lia|]. split; [apply ChunkerMore.trim_idempotent|]. split.
  - intros Hin. apply ExtractionFacts.trim_In, strip_bullets_subset in Hin.
    pose proof (ExtractionFacts.split_no_sep NL (trim text)) as Hsep.
    rewrite Forall_forall in Hsep. now apply (Hsep l Hl).
  - pose proof (strip_bullets_head l) as Hh.
    destruct (strip_bullets l) as [|c s] eqn:E.
    + cbn in H3. lia.
    + destruct (trim_head c s (bullet_ws c Hh)) as [s' ->]. exact Hh.
Qed.

Section Call.
Variable generateText : str -> Reranker.reply.

(** [decomposeQuery] returns the original query first, followed by at
    most five sub-queries; each sub-query has between 4 and 199 code
    units, is on one line, is trimmed, and does not start with a dash,
    a star, a digit, a dot, a closing parenthesis or white space.  When
    the model throws, the original query is returned alone. *)
Theorem decomposeQuery_shape query :
  exists subs,
    decomposeQuery generateText query = query :: subs
    /\ (List.length subs <= 5)%nat
    /\ Forall well_formed subs
    /\ (generateText (prompt_of query) = Reranker.Throws -> subs = []).
Proof.
  unfold decomposeQuery. destruct (generateText (prompt_of query)) as [|text].
  - exists []. repeat split; [cbn; lia | constructor].
  - exists (subQueries text). destruct (subQueries_shape text) as [Hl Hw].
    repeat split; [exact Hl | exact Hw | discriminate].
Qed.
End Call.

(** A reply with bullets, a numbered line, a blank line and a line that
    is too short. *)
Definition listing (prompt : str) : Reranker.reply :=
  Reranker.Text
    (lit "- books I was reading" ++ [NL] ++ lit "2) novels I mentioned" ++ [NL]
       ++ [NL] ++ lit "* ok" ++ [NL] ++ lit "  reading list  ").

Example decomposeQuery_listing :
  decomposeQuery listing (lit "How many books did I read?")
  = [ lit "How many books did I read?"; lit "books I was reading";
      lit "novels I mentioned"; lit "reading list" ].
Proof. vm_compute. reflexivity. Qed.

Lemma decomposeQuery_shape_witness :
  exists subs,
    decomposeQuery listing (lit "How many books did I read?")
    = lit "How many books did I read?" :: subs
    /\ (List.length subs <= 5)%nat
    /\ Forall well_formed subs
    /\ (listing (prompt_of (lit "How many books did I read?")) = Reranker.Throws ->
        subs = []).
Proof. apply decomposeQuery_shape. Defined.






Example isCountingQuery_examples :
  map (fun q => isCountingQuery (lit q))
    [ "How many books did I read?"; "List ALL my trips"; "my accounts";
      "Everything I said"; "everyone I met"; "what is the total?" ]%string
  = [true; true; false; true; false; true].
Proof. vm_compute. reflexivity. Qed.

End DecomposeFacts.

(* ================================================================== *)
(** ** The relational store: containers *)

Module PgFacts.
Import JS JSFacts SearchTypes Pg.

Lemma filter_filter_same (A : Type) (f g : A -> bool) (l : list A) :
  (forall x, f x = true -> g x = true) -> filter f (filter g l) = filter f l.
Proof.
  intros H. induction l as [|a l IH]; cbn; [reflexivity|].
  destruct (g a) eqn:Eg; cbn.
  - now rewrite IH.
  - destruct (f a) eqn:Ef; [|exact IH]. apply H in Ef. congruence.
Qed.

Lemma filter_filter_none (A : Type) (f g : A -> bool) (l : list A) :
  (forall x, g x = true -> f x = false) -> filter f (filter g l) = [].
Proof.
  intros H. induction l as [|a l IH]; cbn; [reflexivity|].
  destruct (g a) eqn:Eg; cbn; [|exact IH]. now rewrite (H a Eg).
Qed.

Lemma other_tag (a b c : str) : b <> c -> str_eqb a b = true -> negb (str_eqb a c) = true.
Proof.
  intros Hne H. apply str_eqb_eq in H. subst a.
  apply negb_true_iff. now apply str_eqb_neq.
Qed.

Lemma same_tag (a c : str) : negb (str_eqb a c) = true -> str_eqb a c = false.
Proof. now intros H; apply negb_true_iff in H. Qed.

Lemma hops_done maxHops db containerTag w : hops maxHops db containerTag [] w = w.
Proof. now destruct maxHops. Qed.

(** The rows of one container. *)
Definition restrict (db : Db) (containerTag : str) : Db :=
  {| rag_chunks :=
       filter (fun r => str_eqb (c_container_tag r) containerTag) (rag_chunks db);
     rag_entities :=
       filter (fun r => str_eqb (n_container_tag r) containerTag) (rag_entities db);
     rag_relationships :=
       filter (fun r => str_eqb (l_container_tag r) containerTag)
         (rag_relationships db) |}.

Lemma restrict_clear_same db containerTag :
  restrict (clear db containerTag) containerTag = empty.
Proof.
  unfold restrict, clear, empty; cbn. f_equal;
    apply filter_filter_none; intros x; apply same_tag.
Qed.

Lemma restrict_clear_other db containerTag other :
  other <> containerTag ->
  restrict (clear db containerTag) other = restrict db other.
Proof.
  intros Hne. unfold restrict, clear; cbn. f_equal;
    apply filter_filter_same; intros x; now apply other_tag.
Qed.

Lemma andb_first (a b : bool) : a && b = true -> a = true.
Proof. now intros H; apply andb_true_iff in H. Qed.

Lemma entities_named_restrict db containerTag names :
  entities_named db containerTag names
  = entities_named (restrict db containerTag) containerTag names.
Proof.
  unfold entities_named, restrict; cbn. symmetry.
  apply filter_filter_same. intros x. apply andb_first.
Qed.

Lemma edges_touching_restrict db containerTag frontier :
  edges_touching db containerTag frontier
  = edges_touching (restrict db containerTag) containerTag frontier.
Proof.
  unfold edges_touching, restrict; cbn. symmetry.
  apply filter_filter_same. intros x. apply andb_first.
Qed.

Lemma hop_restrict db containerTag frontier w :
  hop db containerTag frontier w = hop (restrict db containerTag) containerTag frontier w.
Proof.
  unfold hop. rewrite <- edges_touching_restrict.
  destruct (Graph.nextFrontier _); [reflexivity|].
  now rewrite <- entities_named_restrict.
Qed.

Lemma hops_restrict maxHops db containerTag : forall frontier w,
  hops maxHops db containerTag frontier w
  = hops maxHops (restrict db containerTag) containerTag frontier w.
Proof.
  induction maxHops as [|h IH]; intros frontier w; cbn [hops]; [reflexivity|].
  destruct frontier; [reflexivity|]. now rewrite <- hop_restrict, IH.
Qed.

Lemma getContext_restrict db containerTag names maxHops :
  getContext db containerTag names maxHops
  = getContext (restrict db containerTag) containerTag names maxHops.
Proof.
  unfold getContext. rewrite <- !entities_named_restrict.
  now rewrite <- hops_restrict.
Qed.

Lemma findEntitiesInQuery_restrict db containerTag query :
  findEntitiesInQuery db containerTag query
  = findEntitiesInQuery (restrict db containerTag) containerTag query.
Proof.
  unfold findEntitiesInQuery. destruct (query_words query) as [|w ws];
    [reflexivity|].
  unfold restrict; cbn [rag_entities].
  rewrite filter_filter_same; [reflexivity|]. intros x. apply andb_first.
Qed.

Lemma counts_restrict db containerTag :
  hasData db containerTag = hasData (restrict db containerTag) containerTag
  /\ getChunkCount db containerTag
     = getChunkCount (restrict db containerTag) containerTag
  /\ getNodeCount db containerTag
     = getNodeCount (restrict db containerTag) containerTag
  /\ getEdgeCount db containerTag
     = getEdgeCount (restrict db containerTag) containerTag.
Proof.
  unfold hasData, getChunkCount, getNodeCount, getEdgeCount, restrict; cbn.
  repeat split; try (now rewrite filter_filter_same).
  induction (rag_chunks db) as [|r l IH]; cbn; [reflexivity|].
  destruct (str_eqb (c_container_tag r) containerTag) eqn:E; cbn;
    [now rewrite E | exact IH].
Qed.

Section Operators.
Variable cosine_distance : list num -> list num -> num.
Variable ts_match : str -> str -> bool.
Variable ts_rank : str -> str -> num.

Lemma search_restrict db containerTag queryEmbedding query limit :
  search cosine_distance ts_match ts_rank db containerTag queryEmbedding query limit
  = search cosine_distance ts_match ts_rank (restrict db containerTag)
      containerTag queryEmbedding query limit.
Proof.
  unfold search, query_rows, vector_results, bm25_results, restrict; cbn.
  rewrite !filter_filter_same; [reflexivity|..]; intros x; unfold in_container;
    intros H; try exact H; now apply andb_first in H.
Qed.

(** The readings of a container. *)
Record reading := {
  rd_hasData : bool;
  rd_counts : nat * nat * nat;
  rd_search : list SearchResult;
  rd_found : list str;
  rd_context : Graph.GraphSearchResult
}.

Definition read (db : Db) (containerTag : str) (queryEmbedding : list num)
    (query : str) (limit : nat) (names : list str) (maxHops : nat) : reading :=
  {| rd_hasData := hasData db containerTag;
     rd_counts := (getChunkCount db containerTag, getNodeCount db containerTag,
                   getEdgeCount db containerTag);
     rd_search := search cosine_distance ts_match ts_rank db containerTag
                    queryEmbedding query limit;
     rd_found := findEntitiesInQuery db containerTag query;
     rd_context := getContext db containerTag names maxHops |}.

Lemma read_restrict db containerTag qe query limit names maxHops :
  read db containerTag qe query limit names maxHops
  = read (restrict db containerTag) containerTag qe query limit names maxHops.
Proof.
  unfold read. destruct (counts_restrict db containerTag) as (H1 & H2 & H3 & H4).
  now rewrite <- H1, <- H2, <- H3, <- H4, <- search_restrict,
    <- findEntitiesInQuery_restrict, <- getContext_restrict.
Qed.

(** [clear] empties the container: afterwards it has no data, its three
    counts are 0, and a search, an entity lookup and a graph walk on it
    return nothing.  It leaves every other container as it was: all
    their readings are unchanged. *)
Theorem clear_isolates db containerTag qe query limit names maxHops :
  read (clear db containerTag) containerTag qe query limit names maxHops
  = {| rd_hasData := false; rd_counts := (0, 0, 0)%nat; rd_search := [];
       rd_found := [];
       rd_context := {| Graph.entities := []; Graph.relationships := [] |} |}
  /\ forall other, other <> containerTag ->
       read (clear db containerTag) other qe query limit names maxHops
       = read db other qe query limit names maxHops.
Proof.
  split.
  - rewrite read_restrict, restrict_clear_same. unfold read.
    unfold hasData, getChunkCount, getNodeCount, getEdgeCount; cbn.
    unfold findEntitiesInQuery, getContext, entities_named; cbn.
    f_equal.
    + unfold search, query_rows, vector_results; cbn. now rewrite firstn_nil.
    + now destruct (query_words query).
    + assert (Hf : filter (fun n : str => set_has n []) names = [])
        by (induction names; [reflexivity | assumption]).
      destruct names as [|n ns]; cbn [fold_left Graph.visitedNodes];
        rewrite Hf, hops_done; reflexivity.
  - intros other Hne.
    rewrite read_restrict, (restrict_clear_other db Hne).
    symmetry. apply read_restrict.
Qed.
End Operators.

(** Two containers: the two chunks of [t], and a chunk, an entity and
    a relationship of [u]. *)
Definition two_containers : Db :=
  addRelationship
    (addEntity
       (addChunks SearchFacts.two_chunks (lit "u")
          [ {| id := lit "u_s9_0"; content := lit "Bob lives in Rome";
               sessionId := lit "s9"; chunkIndex := 0%Z; embedding := [1%Q; 0%Q];
               date := None; eventDate := None; metadata := None |} ])
       (lit "u") (lit "Bob") (lit "Person") (lit "a friend") (lit "s9"))
    (lit "u")
    {| Graph.source := lit "Bob"; Graph.target := lit "Rome";
       Graph.relation := lit "lives_in"; Graph.date := None;
       Graph.sessionId := lit "s9" |}.

Lemma clear_isolates_witness :
  read SearchFacts.axis_distance SearchFacts.contains_match SearchFacts.length_rank
    (clear two_containers (lit "t")) (lit "u") [1%Q; 0%Q] (lit "Bob") 5
    [lit "Bob"] 2
  = read SearchFacts.axis_distance SearchFacts.contains_match SearchFacts.length_rank
      two_containers (lit "u") [1%Q; 0%Q] (lit "Bob") 5 [lit "Bob"] 2
  /\ getChunkCount two_containers (lit "t") = 2%nat
  /\ getChunkCount two_containers (lit "u") = 1%nat.
Proof.
  split; [|split; vm_compute; reflexivity].
  apply (proj2 (clear_isolates SearchFacts.axis_distance SearchFacts.contains_match
                  SearchFacts.length_rank two_containers (lit "t") [1%Q; 0%Q]
                  (lit "Bob") 5 [lit "Bob"] 2)).
  intros H. vm_compute in H. discriminate H.
Defined.

End PgFacts.

(* ================================================================== *)
(** ** The two entity stores *)

Module StoreFacts.
Import JS JSFacts Graph EntityFacts.








Definition pg_edges (containerTag : str) (es : list RelationshipEdge) : Pg.Db :=
  fold_left (fun db e => Pg.addRelationship db containerTag e) es Pg.empty.

Definition graph_edges (es : list RelationshipEdge) : EntityGraph :=
  fold_left addRelationship es empty.









(** Two triples with the same text key. *)
Definition piped_edges : list RelationshipEdge :=
  [ {| source := lit "a|b"; target := lit "d"; relation := lit "c";
       date := None; sessionId := lit "s1" |};
    {| source := lit "a"; target := lit "d"; relation := lit "b|c";
       date := None; sessionId := lit "s1" |} ].

Remark piped_edges_counts :
  edgeCount (graph_edges piped_edges) = 1%nat
  /\ Pg.getEdgeCount (pg_edges (lit "t") piped_edges) (lit "t") = 2%nat.
Proof. split; vm_compute; reflexivity. Qed.



End StoreFacts.

(* ================================================================== *)
(** ** The relational store: chunks *)

Module PgRows.
Import JS JSFacts SearchTypes Pg.

(** The id and the container of every row, in table order. *)
Definition owners (tbl : list ChunkRow) : list (str * str) :=
  map (fun r => (c_id r, c_container_tag r)) tbl.

Definition has_id (i : str) (tbl : list ChunkRow) : bool :=
  existsb (fun r => str_eqb (c_id r) i) tbl.

Lemma has_id_In i tbl : has_id i tbl = true <-> In i (map c_id tbl).
Proof.
  unfold has_id. rewrite existsb_exists, in_map_iff. split.
  - intros (r & Hr & E). apply str_eqb_eq in E. eauto.
  - intros (r & E & Hr). exists r. split; [exact Hr | now apply str_eqb_eq].
Qed.

Lemma owners_ids tbl : map fst (owners tbl) = map c_id tbl.
Proof. unfold owners. rewrite map_map. reflexivity. Qed.

Lemma upsert_owners row tbl :
  owners (upsert_chunk row tbl)
  = if has_id (c_id row) tbl then owners tbl
    else owners tbl ++ [(c_id row, c_container_tag row)].
Proof.
  unfold owners, has_id.
  induction tbl as [|r tbl IH]; cbn [upsert_chunk existsb map app]; [reflexivity|].
  destruct (str_eqb (c_id r) (c_id row)) eqn:E; cbn [orb map]; [reflexivity|].
  cbn [c_id c_container_tag]. rewrite IH.
  now destruct (existsb _ tbl).
Qed.

Lemma fold_upsert_owners containerTag chunks : forall tbl,
  exists added,
    owners (fold_left (fun tbl c => upsert_chunk (row_of_chunk containerTag c) tbl)
              chunks tbl)
    = owners tbl ++ map (fun i => (i, containerTag)) added
    /\ NoDup added
    /\ forall i, In i added <-> In i (map id chunks) /\ ~ In i (map c_id tbl).
Proof.
  induction chunks as [|c chunks IH]; intros tbl; cbn [fold_left map].
  - exists []. cbn. rewrite app_nil_r. repeat split; try tauto; constructor.
  - destruct (IH (upsert_chunk (row_of_chunk containerTag c) tbl))
      as (added & Ho & Hnd & Hin).
    pose proof (upsert_owners (row_of_chunk containerTag c) tbl) as Hu.
    cbn [row_of_chunk c_id c_container_tag] in Hu.
    assert (Hids : map c_id (upsert_chunk (row_of_chunk containerTag c) tbl)
                   = map fst (owners (upsert_chunk (row_of_chunk containerTag c) tbl)))
      by (now rewrite owners_ids).
    rewrite Hu in Hids.
    destruct (has_id (id c) tbl) eqn:Eh.
    + apply has_id_In in Eh. rewrite owners_ids in Hids.
      exists added. rewrite Ho, Hu. split; [reflexivity|]. split; [exact Hnd|].
      intros i. rewrite Hin, Hids. cbn. split; [tauto|].
      intros [[<-|H] Hn]; [contradiction | tauto].
    + assert (Hfresh : ~ In (id c) (map c_id tbl)).
      { intros H. apply has_id_In in H. congruence. }
      rewrite map_app, owners_ids in Hids. cbn in Hids.
      exists (id c :: added). rewrite Ho, Hu, <- app_assoc. split; [reflexivity|].
      split.
      * constructor; [|exact Hnd]. intros H. apply Hin in H as [_ H].
        apply H. rewrite Hids. apply in_app_iff. right. now left.
      * intros i. cbn. rewrite Hin, Hids, in_app_iff. cbn.
        destruct (str_eqb_spec (id c) i) as [E|Hne]; [|tauto].
        split; [intros _; split; [now left | now rewrite <- E] | intros _; now left].
Qed.

Lemma count_owners db containerTag :
  getChunkCount db containerTag
  = List.length (filter (fun p => str_eqb (snd p) containerTag)
                   (owners (rag_chunks db))).
Proof.
  unfold getChunkCount, owners.
  induction (rag_chunks db) as [|r l IH]; cbn; [reflexivity|].
  destruct (str_eqb (c_container_tag r) containerTag); cbn; now rewrite IH.
Qed.

(** [addChunks] never moves and never duplicates a row.  The rows that
    existed keep their id and their container, even when a chunk of the
    call has the id of a row of another container: that row takes the
    content of the chunk and stays where it is.  The rows added are one
    for each new id, in the container of the call; ids stay unique, and
    the chunk count of every other container is unchanged. *)
Theorem addChunks_rows db containerTag chunks :
  let db' := addChunks db containerTag chunks in
  exists added,
    owners (rag_chunks db')
    = owners (rag_chunks db) ++ map (fun i => (i, containerTag)) added
    /\ NoDup added
    /\ (forall i, In i added
                  <-> In i (map id chunks) /\ ~ In i (map c_id (rag_chunks db)))
    /\ (NoDup (map c_id (rag_chunks db)) -> NoDup (map c_id (rag_chunks db')))
    /\ getChunkCount db' containerTag
       = (getChunkCount db containerTag + List.length added)%nat
    /\ (forall other, other <> containerTag ->
          getChunkCount db' other = getChunkCount db other).
Proof.
  cbn zeta.
  destruct (fold_upsert_owners containerTag chunks (rag_chunks db))
    as (added & Ho & Hnd & Hin).
  exists added. change (rag_chunks (addChunks db containerTag chunks))
    with (fold_left (fun tbl c => upsert_chunk (row_of_chunk containerTag c) tbl)
            chunks (rag_chunks db)).
  split; [exact Ho|]. split; [exact Hnd|]. split; [exact Hin|].
  split; [|split].
  - intros Hids. rewrite <- owners_ids, Ho, map_app, owners_ids, map_map. cbn.
    rewrite map_id. apply NoDup_app; [exact Hids | exact Hnd |].
    intros i Hi Ha. now apply Hin in Ha as [_ Ha].
  - rewrite !count_owners.
    change (rag_chunks (addChunks db containerTag chunks))
      with (fold_left (fun tbl c => upsert_chunk (row_of_chunk containerTag c) tbl)
              chunks (rag_chunks db)).
    rewrite Ho, filter_app, length_app. f_equal.
    clear. induction added as [|i l IH]; cbn; [reflexivity|].
    now rewrite str_eqb_refl; cbn; rewrite IH.
  - intros other Hne. rewrite !count_owners.
    change (rag_chunks (addChunks db containerTag chunks))
      with (fold_left (fun tbl c => upsert_chunk (row_of_chunk containerTag c) tbl)
              chunks (rag_chunks db)).
    rewrite Ho, filter_app, length_app.
    replace (filter _ (map (fun i => (i, containerTag)) added)) with (@nil (str * str));
      [cbn; lia|].
    clear - Hne. induction added as [|i l IH]; cbn; [reflexivity|].
    destruct (str_eqb_spec containerTag other); [congruence | exact IH].
Qed.

(** A chunk ingested into [u] under an id that a row of [t] has. *)
Definition stray : Chunk :=
  {| id := lit "t_s1_0"; content := lit "Bob moved to Rome"; sessionId := lit "s9";
     chunkIndex := 0%Z; embedding := [0%Q; 1%Q]; date := None; eventDate := None;
     metadata := None |}.

Lemma addChunks_rows_witness :
  exists added,
    owners (rag_chunks (addChunks PgFacts.two_containers (lit "u") [stray]))
    = owners (rag_chunks PgFacts.two_containers)
      ++ map (fun i => (i, lit "u")) added
    /\ NoDup added
    /\ (forall i, In i added
                  <-> In i (map id [stray])
                      /\ ~ In i (map c_id (rag_chunks PgFacts.two_containers)))
    /\ (NoDup (map c_id (rag_chunks PgFacts.two_containers)) ->
        NoDup (map c_id (rag_chunks
                           (addChunks PgFacts.two_containers (lit "u") [stray]))))
    /\ getChunkCount (addChunks PgFacts.two_containers (lit "u") [stray]) (lit "u")
       = (getChunkCount PgFacts.two_containers (lit "u") + List.length added)%nat
    /\ (forall other, other <> lit "u" ->
          getChunkCount (addChunks PgFacts.two_containers (lit "u") [stray]) other
          = getChunkCount PgFacts.two_containers other).
Proof. apply addChunks_rows. Defined.

(** The row of [t] has taken the content of the chunk sent to [u]. *)
Remark stray_overwrites :
  map c_content
    (filter (fun r => str_eqb (c_container_tag r) (lit "t"))
       (rag_chunks (addChunks PgFacts.two_containers (lit "u") [stray])))
  = [lit "Bob moved to Rome"; lit "user talked about travel"]
  /\ getChunkCount (addChunks PgFacts.two_containers (lit "u") [stray]) (lit "u")
     = 1%nat.
Proof. split; vm_compute; reflexivity. Qed.

Section Sorting.
Variables (A : Type) (key : A -> num).

Lemma insert_asc_perm x l : Permutation (insert_asc key x l) (x :: l).
Proof.
  induction l as [|y l IH]; cbn; [reflexivity|].
  destruct (Qlt_le_dec (key y) (key x)); [|reflexivity].
  rewrite IH. apply perm_swap.
Qed.

Lemma sort_asc_perm l : Permutation (sort_asc key l) l.
Proof.
  induction l as [|x l IH]; cbn; [reflexivity|].
  rewrite insert_asc_perm. now constructor.
Qed.
End Sorting.

Section Operators.
Variable cosine_distance : list num -> list num -> num.
Variable ts_match : str -> str -> bool.
Variable ts_rank : str -> str -> num.

(** [search] returns [limit] results, or as many as the container has
    chunks when it has fewer; every result is a row of the container,
    with its content, session and index; no row of another container
    is returned. *)
Theorem search_within_container db containerTag queryEmbedding query limit :
  let results := search cosine_distance ts_match ts_rank db containerTag
                   queryEmbedding query limit in
  List.length results = Nat.min limit (getChunkCount db containerTag)
  /\ forall r, In r results ->
       exists row, In row (rag_chunks db)
                   /\ c_container_tag row = containerTag
                   /\ r_content r = c_content row
                   /\ r_sessionId r = c_session_id row
                   /\ r_chunkIndex r = c_chunk_index row.
Proof.
  cbn zeta. unfold search. split.
  - rewrite ProviderFacts.rank_rows_length. unfold query_rows, vector_results.
    rewrite length_map, length_firstn.
    rewrite (Permutation_length (sort_asc_perm _ _)). reflexivity.
  - intros r Hr. apply SearchFacts.rank_rows_In in Hr as (sr & Hsr & ->).
    unfold query_rows in Hsr. apply in_map_iff in Hsr as (row & <- & Hrow).
    unfold vector_results in Hrow. apply RerankSelect.firstn_subset in Hrow.
    apply (Permutation_in _ (sort_asc_perm _ _)) in Hrow.
    apply filter_In in Hrow as [Hin Htag]. unfold in_container in Htag.
    apply str_eqb_eq in Htag. exists row. cbn. auto.
Qed.
End Operators.

Lemma search_within_container_witness :
  List.length
    (search SearchFacts.axis_distance SearchFacts.contains_match
       SearchFacts.length_rank PgFacts.two_containers (lit "t") [1%Q; 0%Q]
       (lit "Alice") 10)
  = 2%nat.
Proof.
  exact (proj1 (search_within_container SearchFacts.axis_distance
                  SearchFacts.contains_match SearchFacts.length_rank
                  PgFacts.two_containers (lit "t") [1%Q; 0%Q] (lit "Alice") 10)).
Defined.

End PgRows.

(* ================================================================== *)
(** ** The relational store: the graph walk *)

Module PgContext.
Import JS JSFacts SearchTypes Pg.

Section Walk.
Variable db : Db.
Variable containerTag : str.

Definition entity_of_container (o : Graph.EntityOut) : Prop :=
  exists r, In r (rag_entities db) /\ n_container_tag r = containerTag
            /\ o = out_of_row r.

Definition edge_of_container (o : Graph.RelOut) : Prop :=
  exists r, In r (rag_relationships db) /\ l_container_tag r = containerTag
            /\ o = rel_of_row r.

(** What every step of the walk maintains. *)
Record bounded (w : Graph.walk) : Prop := {
  b_entities : (List.length (Graph.resultEntities w) <= MAX_GRAPH_ENTITIES)%nat;
  b_rels : (List.length (Graph.resultRels w) <= MAX_GRAPH_RELATIONSHIPS)%nat;
  b_entity_rows : Forall entity_of_container (Graph.resultEntities w);
  b_edge_rows : Forall edge_of_container (Graph.resultRels w)
}.

Lemma entities_named_rows names r :
  In r (entities_named db containerTag names) ->
  In r (rag_entities db) /\ n_container_tag r = containerTag.
Proof.
  unfold entities_named. intros H. apply filter_In in H as [Hin Hc].
  apply andb_true_iff in Hc as [Hc _]. apply str_eqb_eq in Hc. auto.
Qed.

Lemma edges_touching_rows frontier r :
  In r (edges_touching db containerTag frontier) ->
  In r (rag_relationships db) /\ l_container_tag r = containerTag.
Proof.
  unfold edges_touching. intros H. apply filter_In in H as [Hin Hc].
  apply andb_true_iff in Hc as [Hc _]. apply str_eqb_eq in Hc. auto.
Qed.

Lemma push_row_bounded out r :
  (List.length out <= MAX_GRAPH_ENTITIES)%nat ->
  Forall entity_of_container out ->
  In r (rag_entities db) -> n_container_tag r = containerTag ->
  (List.length (push_row out r) <= MAX_GRAPH_ENTITIES)%nat
  /\ Forall entity_of_container (push_row out r).
Proof.
  intros Hl Hf Hin Hc. unfold push_row.
  destruct (Nat.ltb_spec (List.length out) MAX_GRAPH_ENTITIES) as [Hlt|Hge];
    [|now split].
  split; [rewrite length_app; cbn; lia|].
  apply Forall_app. split; [exact Hf|].
  constructor; [|constructor]. now exists r.
Qed.

Lemma fold_push_rows rows : forall out,
  (List.length out <= MAX_GRAPH_ENTITIES)%nat ->
  Forall entity_of_container out ->
  (forall r, In r rows -> In r (rag_entities db) /\ n_container_tag r = containerTag) ->
  (List.length (fold_left push_row rows out) <= MAX_GRAPH_ENTITIES)%nat
  /\ Forall entity_of_container (fold_left push_row rows out).
Proof.
  induction rows as [|r rows IH]; intros out Hl Hf Hrows; cbn; [now split|].
  destruct (Hrows r (or_introl eq_refl)) as [Hin Hc].
  destruct (push_row_bounded r Hl Hf Hin Hc) as [Hl' Hf'].
  apply IH; [assumption..|]. intros r' Hr'. apply Hrows. now right.
Qed.

Lemma seed_rows_bounded rows : forall w,
  bounded w ->
  (forall r, In r rows -> In r (rag_entities db) /\ n_container_tag r = containerTag) ->
  bounded (fold_left seed_row rows w).
Proof.
  induction rows as [|r rows IH]; intros w Hw Hrows; cbn; [exact Hw|].
  apply IH; [|intros r' Hr'; apply Hrows; now right].
  destruct Hw as [H1 H2 H3 H4].
  destruct (Hrows r (or_introl eq_refl)) as [Hin Hc].
  destruct (push_row_bounded r H1 H3 Hin Hc) as [Hl Hf].
  split; cbn; assumption.
Qed.

Lemma visit_other_outputs w other :
  Graph.resultEntities (visit_other w other) = Graph.resultEntities w
  /\ Graph.resultRels (visit_other w other) = Graph.resultRels w.
Proof. unfold visit_other. now destruct (set_has _ _). Qed.

Lemma fold_visit_other_outputs others : forall w,
  Graph.resultEntities (fold_left visit_other others w) = Graph.resultEntities w
  /\ Graph.resultRels (fold_left visit_other others w) = Graph.resultRels w.
Proof.
  induction others as [|o others IH]; intros w; cbn [fold_left]; [now split|].
  destruct (IH (visit_other w o)) as [-> ->]. apply visit_other_outputs.
Qed.

Lemma visit_edge_bounded w e :
  bounded w ->
  In e (rag_relationships db) -> l_container_tag e = containerTag ->
  bounded (visit_edge w e).
Proof.
  intros [H1 H2 H3 H4] Hin Hc. unfold visit_edge.
  destruct (set_has _ (Graph.seenEdges w)); [now split|].
  match goal with |- bounded (fold_left visit_other ?l ?w1) =>
    destruct (fold_visit_other_outputs l w1) as [He Hr] end.
  cbn [Graph.resultEntities Graph.resultRels] in He, Hr.
  split; rewrite ?He, ?Hr; try assumption.
  - destruct (Nat.ltb_spec (List.length (Graph.resultRels w)) MAX_GRAPH_RELATIONSHIPS);
      [rewrite length_app; cbn; lia | exact H2].
  - destruct (List.length (Graph.resultRels w) <? MAX_GRAPH_RELATIONSHIPS)%nat;
      [|exact H4].
    apply Forall_app. split; [exact H4|]. constructor; [|constructor]. now exists e.
Qed.

Lemma fold_visit_edge_bounded edges : forall w,
  bounded w ->
  (forall e, In e edges ->
     In e (rag_relationships db) /\ l_container_tag e = containerTag) ->
  bounded (fold_left visit_edge edges w).
Proof.
  induction edges as [|e edges IH]; intros w Hw Hedges; cbn; [exact Hw|].
  apply IH; [|intros e' He'; apply Hedges; now right].
  destruct (Hedges e (or_introl eq_refl)). now apply visit_edge_bounded.
Qed.

Lemma hop_bounded frontier w : bounded w -> bounded (hop db containerTag frontier w).
Proof.
  intros [H1 H2 H3 H4]. unfold hop.
  match goal with |- context [fold_left visit_edge ?es ?w0] =>
    assert (Hw1 : bounded (fold_left visit_edge es w0));
      [|generalize dependent (fold_left visit_edge es w0); intros w1 [G1 G2 G3 G4]]
  end.
  { apply fold_visit_edge_bounded; [now split|].
    intros e He. now apply edges_touching_rows in He. }
  assert (Hrows : forall r,
             In r match Graph.nextFrontier w1 with
                  | [] => []
                  | _ :: _ => entities_named db containerTag (Graph.nextFrontier w1)
                  end ->
             In r (rag_entities db) /\ n_container_tag r = containerTag).
  { intros r Hr. destruct (Graph.nextFrontier w1); [destruct Hr|].
    now apply entities_named_rows in Hr. }
  destruct (fold_push_rows _ G1 G3 Hrows) as [Hl Hf].
  split; cbn; assumption.
Qed.

Lemma hops_bounded maxHops : forall frontier w,
  bounded w -> bounded (hops maxHops db containerTag frontier w).
Proof.
  induction maxHops as [|h IH]; intros frontier w Hw; cbn [hops]; [exact Hw|].
  destruct frontier; [exact Hw|]. apply IH. now apply hop_bounded.
Qed.

(** [getContext] of the relational store returns at most
    [MAX_GRAPH_ENTITIES] (10) entities and [MAX_GRAPH_RELATIONSHIPS]
    (20) relationships, for every store, seed list and [maxHops]; each
    entity is a row of the container and each relationship is a row of
    the container: the walk never leaves the container. *)
Theorem getContext_within_container entityNames maxHops :
  let ctx := getContext db containerTag entityNames maxHops in
  (List.length (Graph.entities ctx) <= 10)%nat
  /\ (List.length (Graph.relationships ctx) <= 20)%nat
  /\ Forall entity_of_container (Graph.entities ctx)
  /\ Forall edge_of_container (Graph.relationships ctx).
Proof.
  cbn zeta. unfold getContext. cbn [Graph.entities Graph.relationships].
  match goal with |- context [hops maxHops db containerTag ?f ?w0] =>
    assert (Hb : bounded (hops maxHops db containerTag f w0)) end.
  { apply hops_bounded. apply seed_rows_bounded.
    - split; cbn; try constructor; unfold MAX_GRAPH_ENTITIES, MAX_GRAPH_RELATIONSHIPS;
        lia.
    - intros r Hr. destruct entityNames; [destruct Hr|].
      now apply entities_named_rows in Hr. }
  destruct Hb as [H1 H2 H3 H4]. auto.
Qed.
End Walk.
(** The walk from [Bob] in the container [u] of the store above. *)
Lemma getContext_within_container_witness :
  Forall (entity_of_container PgFacts.two_containers (lit "u"))
    (Graph.entities (getContext PgFacts.two_containers (lit "u") [lit "Bob"] 2))
  /\ map Graph.e_name
       (Graph.entities (getContext PgFacts.two_containers (lit "u") [lit "Bob"] 2))
     = [lit "Bob"]
  /\ List.length
       (Graph.relationships
          (getContext PgFacts.two_containers (lit "u") [lit "Bob"] 2))
     = 1%nat.
Proof.
  split; [|split; vm_compute; reflexivity].
  exact (proj1 (proj2 (proj2 (getContext_within_container PgFacts.two_containers
                                (lit "u") [lit "Bob"] 2)))).
Defined.

End PgContext.

(* ================================================================== *)
(** ** What the chunks cover, and when the chunker returns *)

Module ChunkerCover.
Import JS JSFacts Chunker ChunkerFacts.

(** The code unit [c] at index [i] of the text lies in the slice
    [[a, b)], and the trimmed slice is one of the chunks. *)
Definition covered (text : str) (out : list str) (i : nat) : Prop :=
  exists a b,
    0 <= a <= Z.of_nat i /\ Z.of_nat i < b <= JS.length text
    /\ In (trim (slice text a b)) out.

Lemma slice_nth text a b i c :
  0 <= a <= Z.of_nat i -> Z.of_nat i < b <= JS.length text ->
  nth_error text i = Some c -> In c (slice text a b).
Proof.
  intros Ha Hb Hc. unfold slice, rel_index, JS.length in *.
  replace (a <? 0) with false by (symmetry; apply Z.ltb_ge; lia).
  replace (b <? 0) with false by (symmetry; apply Z.ltb_ge; lia).
  rewrite !Z.min_l by lia.
  apply (nth_error_In _ (i - Z.to_nat a)).
  rewrite nth_error_firstn.
  destruct (Nat.ltb_spec (i - Z.to_nat a) (Z.to_nat (b - a))) as [_|H]; [|lia].
  rewrite nth_error_skipn. now replace (Z.to_nat a + (i - Z.to_nat a))%nat with i by lia.
Qed.

Lemma slice_from_slice text a :
  0 <= a -> slice_from text a = slice text a (JS.length text).
Proof.
  intros Ha. unfold slice_from, slice, rel_index, JS.length.
  replace (a <? 0) with false by (symmetry; apply Z.ltb_ge; lia).
  replace (Z.of_nat (List.length text) <? 0) with false
    by (symmetry; apply Z.ltb_ge; lia).
  rewrite Z.min_id. symmetry. apply firstn_all2. rewrite length_skipn. lia.
Qed.

Lemma covered_more text out more i : covered text out i -> covered text (out ++ more) i.
Proof.
  intros (a & b & Ha & Hb & Hin). exists a, b. repeat split; try lia.
  apply in_app_iff. now left.
Qed.

(** The loop keeps every index below some [upto], itself not below the
    next start, covered. *)
Definition cover_inv (text : str) (st : loop_state) : Prop :=
  exists upto, start st <= upto /\
    forall i, Z.of_nat i < upto -> (i < List.length text)%nat ->
              covered text (chunks st) i.

Lemma loop_covers fuel text chunkSize overlap : forall st out,
  0 < chunkSize -> 0 <= overlap -> 0 <= start st -> cover_inv text st ->
  loop fuel text chunkSize overlap st = Some out ->
  forall i, (i < List.length text)%nat -> covered text out i.
Proof.
  induction fuel as [|fuel IH]; intros st out Hcs Hov Hst (upto & Hup & Hcov);
    cbn [loop]; [discriminate|].
  destruct (Z.ltb_spec (start st) (JS.length text)) as [Hlt|Hge].
  - unfold iteration.
    destruct (Z.geb_spec (start st + chunkSize) (JS.length text)) as [Hend|Hend].
    + intros [= <-] i Hi.
      destruct (Z.lt_ge_cases (Z.of_nat i) upto) as [Hi'|Hi'].
      * apply covered_more. now apply Hcov.
      * exists (start st), (JS.length text). unfold JS.length in *.
        repeat split; try lia.
        apply in_app_iff. right. left. now rewrite slice_from_slice.
    + pose proof (breakPoint_range text Hst Hcs) as Hbp.
      apply IH; cbn [start chunks]; try assumption.
      * destruct (Z.ltb_spec (breakPoint text chunkSize (start st) + 1 - overlap) 0);
          lia.
      * exists (breakPoint text chunkSize (start st) + 1).
        split; cbn [start chunks].
        -- destruct (Z.ltb_spec (breakPoint text chunkSize (start st) + 1 - overlap) 0);
             lia.
        -- intros i Hi Hlen.
           destruct (Z.lt_ge_cases (Z.of_nat i) upto) as [Hi'|Hi'].
           ++ apply covered_more. now apply Hcov.
           ++ exists (start st), (breakPoint text chunkSize (start st) + 1).
              unfold JS.length in *. repeat split; try lia.
              apply in_app_iff. right. now left.
  - intros [= <-] i Hi. apply Hcov; [|exact Hi]. unfold JS.length in *. lia.
Qed.

(** No text is lost: whenever [chunkText] returns (with a non-negative
    overlap), every code unit of the text that is not white space lies
    in a slice of the text whose trimmed form is one of the chunks
    returned. *)
Theorem chunkText_covers fuel text chunkSize overlap out i c :
  0 < chunkSize -> 0 <= overlap ->
  chunkText fuel text chunkSize overlap = Some out ->
  nth_error text i = Some c -> is_ws c = false ->
  covered text out i.
Proof.
  intros Hcs Hov Hout Hc Hws.
  assert (Hi : (i < List.length text)%nat) by (apply nth_error_Some; congruence).
  unfold chunkText in Hout.
  destruct (Z.leb_spec (JS.length text) chunkSize) as [Hshort|Hlong].
  - injection Hout as <-. exists 0, (JS.length text). unfold JS.length in *.
    repeat split; try lia. left. f_equal.
    change (Z.of_nat (List.length text)) with (JS.length text).
    rewrite <- slice_from_slice by lia. unfold slice_from, rel_index, JS.length.
    replace (Z.min 0 (Z.of_nat (List.length text))) with 0 by lia. reflexivity.
  - destruct (loop fuel text chunkSize overlap _) as [cs|] eqn:E; [|discriminate].
    injection Hout as <-.
    assert (Hinv : cover_inv text {| start := 0; chunks := [] |}).
    { exists 0. split; [cbn; lia|]. intros j Hj. lia. }
    destruct (@loop_covers fuel text chunkSize overlap {| start := 0; chunks := [] |}
                cs Hcs Hov (Z.le_refl 0) Hinv E i Hi) as (a & b & Ha & Hb & Hin).
    exists a, b. repeat split; try lia.
    apply filter_In. split; [exact Hin|].
    unfold nonempty. apply Z.ltb_lt.
    assert (Hin' : In c (trim (slice text a b))).
    { apply ExtractionFacts.trim_keeps; [|exact Hws].
      now apply (@slice_nth text a b i c). }
    unfold JS.length. destruct (trim (slice text a b)); [destruct Hin'|cbn; lia].
Qed.

(** Three sentences, chunked with a window of 30 and an overlap of 5. *)
Definition three_sentences : str :=
  lit "The cat sat on the mat. It was warm there. The dog slept by the door all day.".

Definition small_chunks : list str :=
  match chunkText 10 three_sentences 30 5 with Some out => out | None => [] end.

Lemma chunkText_covers_witness :
  small_chunks
  = [ lit "The cat sat on the mat."; lit "mat. It was warm there.";
      lit "here. The dog slept by the"; lit "the door all day." ]
  /\ covered three_sentences small_chunks 27.
Proof.
  split; [vm_compute; reflexivity|].
  apply (@chunkText_covers 10 three_sentences 30 5 small_chunks 27 119%N);
    try lia; reflexivity.
Defined.

(** *** Termination on texts without long words *)

Lemma lastIndexOf_from_lower c s : forall k bound acc i,
  nth_error s i = Some c -> k + Z.of_nat i <= bound ->
  k + Z.of_nat i <= lastIndexOf_from [c] s k bound acc.
Proof.
  induction s as [|d s IH]; intros k bound acc [|i] Hc Hb; try discriminate;
    cbn [lastIndexOf_from].
  - injection Hc as ->. cbn [starts_with]. rewrite N.eqb_refl.
    replace (k <=? bound) with true by (symmetry; apply Z.leb_le; lia).
    cbn [andb].
    destruct (lastIndexOf_from_range [c] s (k + 1) bound k) as [H|H];
      cbn zeta in H; lia.
  - cbn [nth_error] in Hc.
    specialize (IH (k + 1) bound
                  (if (k <=? bound) && starts_with [c] (d :: s) then k else acc)
                  i Hc).
    lia.
Qed.

Lemma lastIndexOf_lower s c fromIndex j :
  nth_error s j = Some c -> Z.of_nat j <= fromIndex ->
  Z.of_nat j <= lastIndexOf s [c] fromIndex.
Proof.
  intros Hc Hj. unfold lastIndexOf.
  assert (Hlen : (j < List.length s)%nat) by (apply nth_error_Some; congruence).
  pose proof (@lastIndexOf_from_lower c s 0
                (Z.min (Z.max fromIndex 0) (JS.length s - JS.length [c])) (-1) j Hc)
    as H.
  unfold JS.length in *. cbn [List.length] in *. lia.
Qed.

(** Every run of 1281 consecutive code units holds a space: no word has
    more than 1280 code units. *)
Definition short_words (text : str) : Prop :=
  forall i, (i + 1280 < List.length text)%nat ->
    exists j, (i <= j <= i + 1280)%nat /\ nth_error text j = Some SPACE.

(** With short words, a window that does not reach the end of the text
    breaks at least [CHUNK_OVERLAP] after its start. *)
Lemma breakPoint_progress text st :
  short_words text -> 0 <= st -> st + CHUNK_SIZE < JS.length text ->
  st + CHUNK_OVERLAP <= breakPoint text CHUNK_SIZE st.
Proof.
  intros Hsw Hst Hend. unfold breakPoint, CHUNK_SIZE, CHUNK_OVERLAP in *.
  set (e := st + 1600).
  set (b1 := lastIndexOf text (lit ". ") e).
  set (b2 := if too_early b1 st 1600 then lastIndexOf text [NL] e else b1).
  destruct (too_early b2 st 1600) eqn:E.
  - destruct (Hsw (Z.to_nat st + 320)%nat) as (j & Hj & Hsp);
      [unfold JS.length in Hend; lia|].
    pose proof (@lastIndexOf_lower text SPACE e j Hsp) as Hlow.
    destruct (Z.leb_spec (lastIndexOf text [SPACE] e) st); subst e; lia.
  - unfold too_early in E. apply orb_false_iff in E as [E1 E2].
    rewrite E1. apply Z.ltb_ge in E2. lia.
Qed.

Lemma loop_returns_short_words text : short_words text ->
  forall fuel st,
    0 <= start st ->
    (Z.to_nat (JS.length text - start st) < fuel)%nat ->
    exists out, loop fuel text CHUNK_SIZE CHUNK_OVERLAP st = Some out.
Proof.
  intros Hsw fuel. induction fuel as [|fuel IH]; intros st Hst Hfuel; [lia|].
  cbn [loop].
  destruct (Z.ltb_spec (start st) (JS.length text)) as [Hlt|_]; [|eauto].
  unfold iteration.
  destruct (Z.geb_spec (start st + CHUNK_SIZE) (JS.length text)) as [_|Hend];
    [eauto|].
  pose proof (@breakPoint_progress text (start st) Hsw Hst Hend) as Hbp.
  apply IH; cbn [start]; unfold CHUNK_SIZE, CHUNK_OVERLAP in *;
    destruct (Z.ltb_spec (breakPoint text 1600 (start st) + 1 - 320) 0); lia.
Qed.

Lemma chunkText_returns_short_words text :
  short_words text ->
  exists out,
    chunkText (S (Z.to_nat (JS.length text))) text CHUNK_SIZE CHUNK_OVERLAP
    = Some out.
Proof.
  intros Hsw. unfold chunkText.
  destruct (JS.length text <=? CHUNK_SIZE); [eauto|].
  destruct (@loop_returns_short_words text Hsw (S (Z.to_nat (JS.length text)))
              {| start := 0; chunks := [] |}) as [out Hout]; cbn [start].
  - lia.
  - rewrite Z.sub_0_r. lia.
  - rewrite Hout. cbn. eauto.
Qed.

(** With the default parameters [chunkText] returns, within one
    iteration per code unit, on every text whose words have at most
    1280 code units, and on every text that holds no space at all: in
    the first case the space at which a window breaks lies at least
    [CHUNK_OVERLAP] after its start, in the second the window breaks in
    its second half or at its end, so the next window starts later. *)
Theorem chunkText_returns text :
  short_words text \/ ~ In SPACE text ->
  exists out,
    chunkText (S (Z.to_nat (JS.length text))) text CHUNK_SIZE CHUNK_OVERLAP
    = Some out.
Proof.
  intros [Hsw|Hsp];
    [now apply chunkText_returns_short_words
    |now apply chunkText_returns_without_space].
Qed.

(** A check of [short_words] in one pass: [left] is the number of code
    units that may still come before the next space. *)
Fixpoint no_long_run (n left : nat) (s : str) : bool :=
  match s with
  | [] => true
  | c :: s' =>
      if (c =? SPACE)%N then no_long_run n n s'
      else match left with
           | O => false
           | S l => no_long_run n l s'
           end
  end.

Lemma no_long_run_next n s : forall left,
  no_long_run n left s = true -> (left < List.length s)%nat ->
  exists j, (j <= left)%nat /\ nth_error s j = Some SPACE.
Proof.
  induction s as [|c s IH]; intros left Hrun Hlen; cbn in *; [lia|].
  destruct (N.eqb_spec c SPACE) as [->|_]; [exists 0%nat; split; [lia|reflexivity]|].
  destruct left as [|l]; [discriminate|].
  destruct (IH l Hrun) as (j & Hj & Hsp); [lia|].
  exists (S j). split; [lia | exact Hsp].
Qed.

Lemma no_long_run_window n s : forall left i,
  no_long_run n left s = true -> (left <= n)%nat -> (i + n < List.length s)%nat ->
  exists j, (i <= j <= i + n)%nat /\ nth_error s j = Some SPACE.
Proof.
  induction s as [|c s IH]; intros left i Hrun Hleft Hlen; [cbn in Hlen; lia|].
  destruct i as [|i].
  - destruct (@no_long_run_next n (c :: s) left Hrun) as (j & Hj & Hsp);
      [lia|].
    exists j. split; [lia | exact Hsp].
  - cbn [no_long_run] in Hrun. cbn [List.length] in Hlen.
    assert (Hrec : exists left', no_long_run n left' s = true /\ (left' <= n)%nat).
    { destruct (c =? SPACE)%N; [now exists n|].
      destruct left as [|l]; [discriminate|]. exists l. split; [exact Hrun | lia]. }
    destruct Hrec as (left' & Hrun' & Hleft').
    destruct (IH left' i Hrun' Hleft') as (j & Hj & Hsp); [lia|].
    exists (S j). split; [lia | exact Hsp].
Qed.

Lemma short_words_check text : no_long_run 1280 1280 text = true -> short_words text.
Proof.
  intros Hrun i Hi. now apply (@no_long_run_window 1280 text 1280 i Hrun).
Qed.

(** 400 five-letter words, 2400 code units. *)
Definition many_words : str := List.concat (repeat (lit "words ") 400).

Lemma chunkText_returns_witness :
  exists out,
    chunkText (S (Z.to_nat (JS.length many_words))) many_words
      CHUNK_SIZE CHUNK_OVERLAP
    = Some out.
Proof.
  apply chunkText_returns. left. apply short_words_check.
  vm_compute. reflexivity.
Defined.

End ChunkerCover.

(* ================================================================== *)
(** ** Readers and writers of the container lock *)

Module LockFacts.
Import Lock.

Definition count (f : pc -> bool) (l : list pc) : nat := List.length (filter f l).

Definition reads (at_ : pc) : bool :=
  match at_ with HoldsRead => true | _ => false end.

Definition writes (at_ : pc) : bool :=
  match at_ with HoldsWrite => true | _ => false end.

(** A writer that waits for the readers to leave. *)
Definition drains (at_ : pc) : bool :=
  match at_ with Awaiting _ WriteDrained => true | _ => false end.

Lemma count_set_nth f l : forall i old new,
  nth_error l i = Some old ->
  (count f (set_nth i new l) + Nat.b2n (f old) = count f l + Nat.b2n (f new))%nat.
Proof.
  unfold count. induction l as [|a l IH]; intros [|i] old new; cbn; try discriminate.
  - intros [= ->]. destruct (f old), (f new); cbn; lia.
  - intros H. specialize (IH i old new H). destruct (f a); cbn; lia.
Qed.

Lemma count_pos f l i x :
  nth_error l i = Some x -> f x = true -> (1 <= count f l)%nat.
Proof.
  unfold count. revert i. induction l as [|a l IH]; intros [|i]; cbn; try discriminate.
  - intros [= ->] ->. cbn. lia.
  - intros H Hx. specialize (IH i H Hx). destruct (f a); cbn; lia.
Qed.

Lemma nth_error_set_nth (A : Type) (l : list A) : forall i j x y,
  nth_error (set_nth i x l) j = Some y ->
  (j = i /\ y = x) \/ (j <> i /\ nth_error l j = Some y).
Proof.
  induction l as [|a l IH]; intros [|i] [|j] x y; cbn; try discriminate.
  - intros [= <-]. now left.
  - intros H. right. split; [lia | exact H].
  - intros H. right. split; [lia | exact H].
  - intros H. apply IH in H as [[-> ->]|[Hne H]]; [now left | right]. split; [lia|exact H].
Qed.

(** The places a caller can be at. *)
Definition placed (at_ : pc) : Prop :=
  match at_ with
  | Awaiting _ next => next = ReadLoop \/ next = WriteLoop \/ next = WriteDrained
  | WriteDrained => False
  | _ => True
  end.

Record lock_invariant (s : State) : Prop := {
  inv_placed : forall i at_, nth_error (callers s) i = Some at_ -> placed at_;
  inv_readers :
    readerCount (entries s)
    = if (count reads (callers s) =? 0)%nat then None
      else Some (Z.of_nat (count reads (callers s)));
  inv_free :
    writerPromise (entries s) = None ->
    count writes (callers s) = 0%nat /\ count drains (callers s) = 0%nat
    /\ readerDrain (entries s) = None;
  inv_taken :
    forall p, writerPromise (entries s) = Some p ->
    writerResolve (entries s) = Some p
    /\ (count writes (callers s) + count drains (callers s) = 1)%nat
    /\ (count writes (callers s) = 1%nat ->
        count reads (callers s) = 0%nat /\ readerDrain (entries s) = None);
  inv_drain :
    forall i d, nth_error (callers s) i = Some (Awaiting d WriteDrained) ->
    (readerDrain (entries s) = Some d /\ ~ In d (resolved s)
     /\ (0 < count reads (callers s))%nat)
    \/ (readerDrain (entries s) = None /\ In d (resolved s)
        /\ count reads (callers s) = 0%nat);
  inv_fresh : forall x, In x (resolved s) -> (x < fresh s)%nat;
  inv_fresh_drain : forall d, readerDrain (entries s) = Some d -> (d < fresh s)%nat;
  inv_fresh_writer : forall p, writerResolve (entries s) = Some p -> (p < fresh s)%nat
}.

Lemma lock_start_invariant roles : lock_invariant (start roles).
Proof.
  assert (Hc : forall f, (forall r, f (match r with Reader => ReadLoop
                                               | Writer => WriteLoop end) = false) ->
               count f (callers (start roles)) = 0%nat).
  { intros f Hf. unfold count, start; cbn.
    induction roles as [|r roles IH]; cbn; [reflexivity|]. now rewrite Hf. }
  assert (Hn : forall i at_, nth_error (callers (start roles)) i = Some at_ ->
               at_ = ReadLoop \/ at_ = WriteLoop).
  { intros i at_ H. apply nth_error_In in H. unfold start in H; cbn in H.
    apply in_map_iff in H as ([|] & <- & _); auto. }
  split.
  - intros i at_ H. destruct (Hn i at_ H) as [->| ->]; exact I.
  - rewrite Hc by (now intros []). reflexivity.
  - intros _. rewrite !Hc by (now intros []). auto.
  - discriminate.
  - intros i d H. destruct (Hn i _ H); discriminate.
  - intros x [].
  - discriminate.
  - discriminate.
Qed.

(** The state after caller [i] has run the code at [code]. *)
Definition after (s : State) (i : nat) (code : pc) : State :=
  match segment (entries s) (fresh s) code with
  | (e, done, fresh_, next) =>
      {| entries := e; resolved := resolved s ++ done; fresh := fresh_;
         callers := set_nth i next (callers s) |}
  end.

Lemma count_or_readers (s : State) (d : Z) :
  lock_invariant s ->
  (count reads (callers s) = 0%nat -> count_or (readerCount (entries s)) d = d)
  /\ ((0 < count reads (callers s))%nat ->
      count_or (readerCount (entries s)) d = Z.of_nat (count reads (callers s))).
Proof.
  intros Hinv. rewrite (inv_readers Hinv). split.
  - intros ->. reflexivity.
  - intros Hpos. destruct (Nat.eqb_spec (count reads (callers s)) 0); [lia|].
    cbn. destruct (Z.eqb_spec (Z.of_nat (count reads (callers s))) 0); [lia|reflexivity].
Qed.

Ltac counts Hn next :=
  pose proof (@count_set_nth reads _ _ _ next Hn) as CR;
  pose proof (@count_set_nth writes _ _ _ next Hn) as CW;
  pose proof (@count_set_nth drains _ _ _ next Hn) as CD.

(** A caller that waits for a writer to release comes back to the head
    of its loop: nothing changes but its place. *)
Lemma waits_invariant s i old p next :
  lock_invariant s -> nth_error (callers s) i = Some old ->
  reads old = false -> writes old = false -> drains old = false ->
  next = ReadLoop \/ next = WriteLoop ->
  lock_invariant {| entries := entries s; resolved := resolved s ++ [];
                    fresh := fresh s;
                    callers := set_nth i (Awaiting p next) (callers s) |}.
Proof.
  intros Hinv Hn Hr Hw Hd Hnext. counts Hn (Awaiting p next).
  assert (Hd' : drains (Awaiting p next) = false) by (now destruct Hnext as [-> | ->]).
  rewrite Hr, Hw, Hd, Hd' in *. cbn in *.
  destruct Hinv as [H1 H2 H3 H4 H5 H6 H7 H8].
  split; cbn [entries resolved fresh callers]; rewrite ?app_nil_r.
  - intros j y Hj. apply nth_error_set_nth in Hj as [[_ ->]|[_ Hj]];
      [cbn; tauto | eapply H1; exact Hj].
  - replace (count reads (set_nth i (Awaiting p next) (callers s)))
      with (count reads (callers s)) by lia. exact H2.
  - intros Hf. destruct (H3 Hf) as (Ha & Hb & Hc). repeat split; [lia|lia|exact Hc].
  - intros q Hq. destruct (H4 q Hq) as (Ha & Hb & Hc).
    split; [exact Ha|]. split; [lia|]. intros Hw1. destruct Hc as [Hc1 Hc2]; [lia|].
    split; [lia | exact Hc2].
  - intros j d Hj. apply nth_error_set_nth in Hj as [[_ Hy]|[_ Hj]].
    + destruct Hnext as [-> | ->]; discriminate Hy.
    + destruct (H5 j d Hj) as [(Ha & Hb & Hc)|(Ha & Hb & Hc)];
        [left | right]; repeat split; try assumption; lia.
  - exact H6.
  - exact H7.
  - exact H8.
Qed.

Ltac at_turn Hj := apply nth_error_set_nth in Hj as [[_ Hj]|[_ Hj]].

(** [readLock] from the head of its loop. *)
Lemma read_loop_invariant s i old :
  lock_invariant s -> nth_error (callers s) i = Some old ->
  reads old = false -> writes old = false -> drains old = false ->
  lock_invariant (after s i ReadLoop).
Proof.
  intros Hinv Hn Hr Hw Hd. unfold after; cbn [segment].
  destruct (writerPromise (entries s)) as [p|] eqn:Hwp.
  { eapply waits_invariant; eauto. }
  destruct (count_or_readers 0 Hinv) as [C0 C1].
  counts Hn HoldsRead. rewrite Hr, Hw, Hd in *. cbn in CR, CW, CD.
  destruct Hinv as [H1 H2 H3 H4 H5 H6 H7 H8].
  destruct (H3 Hwp) as (W0 & D0 & RD).
  split; cbn [entries resolved fresh callers writerPromise writerResolve
              readerCount readerDrain]; rewrite ?app_nil_r.
  - intros j y Hj. at_turn Hj; [subst y; exact I | eapply H1; exact Hj].
  - destruct (Nat.eqb_spec (count reads (set_nth i HoldsRead (callers s))) 0); [lia|].
    f_equal. destruct (Nat.eq_dec (count reads (callers s)) 0) as [E|E].
    + rewrite C0 by exact E. lia.
    + rewrite C1 by lia. lia.
  - intros _. repeat split; [lia | lia | exact RD].
  - intros p Hp. congruence.
  - intros j d Hj. at_turn Hj; [discriminate|].
    pose proof (@count_pos drains _ _ _ Hj eq_refl). lia.
  - exact H6.
  - exact H7.
  - exact H8.
Qed.

(** [writeLock] from the head of its loop. *)
Lemma write_loop_invariant s i old :
  lock_invariant s -> nth_error (callers s) i = Some old ->
  reads old = false -> writes old = false -> drains old = false ->
  lock_invariant (after s i WriteLoop).
Proof.
  intros Hinv Hn Hr Hw Hd. unfold after; cbn [segment].
  destruct (writerPromise (entries s)) as [p|] eqn:Hwp.
  { eapply waits_invariant; eauto. }
  destruct (count_or_readers 0 Hinv) as [C0 C1].
  pose proof Hinv as [H1 H2 H3 H4 H5 H6 H7 H8].
  destruct (H3 Hwp) as (W0 & D0 & RD).
  destruct (Z.ltb_spec 0 (count_or (readerCount (entries s)) 0)) as [Hpos|Hnone].
  - (* readers hold the lock: the writer announces itself and waits *)
    assert (R1 : (0 < count reads (callers s))%nat).
    { destruct (Nat.eq_dec (count reads (callers s)) 0) as [E|E]; [|lia].
      rewrite C0 in Hpos by exact E. lia. }
    counts Hn (Awaiting (S (fresh s)) WriteDrained).
    rewrite Hr, Hw, Hd in *. cbn in CR, CW, CD.
    split; cbn [entries resolved fresh callers writerPromise writerResolve
                readerCount readerDrain]; rewrite ?app_nil_r.
    + intros j y Hj. at_turn Hj; [subst y; cbn; tauto | eapply H1; exact Hj].
    + replace (count reads (set_nth i (Awaiting (S (fresh s)) WriteDrained) (callers s)))
        with (count reads (callers s)) by lia. exact H2.
    + discriminate.
    + intros p [= <-]. split; [reflexivity|]. split; [lia|]. intros; lia.
    + intros j d Hj. at_turn Hj.
      * injection Hj as ->. left. split; [reflexivity|]. split; [|lia].
        intros Hin. apply H6 in Hin. lia.
      * pose proof (@count_pos drains _ _ _ Hj eq_refl). lia.
    + intros x Hx. apply H6 in Hx. lia.
    + intros d [= <-]. lia.
    + intros p [= <-]. lia.
  - (* no reader: the writer holds the lock at once *)
    assert (R0 : count reads (callers s) = 0%nat).
    { destruct (Nat.eq_dec (count reads (callers s)) 0) as [E|E]; [exact E|].
      rewrite C1 in Hnone by lia. lia. }
    counts Hn HoldsWrite. rewrite Hr, Hw, Hd in *. cbn in CR, CW, CD.
    split; cbn [entries resolved fresh callers writerPromise writerResolve
                readerCount readerDrain]; rewrite ?app_nil_r.
    + intros j y Hj. at_turn Hj; [subst y; exact I | eapply H1; exact Hj].
    + replace (count reads (set_nth i HoldsWrite (callers s)))
        with (count reads (callers s)) by lia. exact H2.
    + discriminate.
    + intros p [= <-]. split; [reflexivity|]. split; [lia|]. intros _.
      split; [lia | exact RD].
    + intros j d Hj. at_turn Hj; [discriminate|].
      pose proof (@count_pos drains _ _ _ Hj eq_refl). lia.
    + intros x Hx. apply H6 in Hx. lia.
    + intros d Hd'. apply H7 in Hd'. lia.
    + intros p [= <-]. lia.
Qed.

(** [writeLock] after [await drainPromise]. *)
Lemma drained_invariant s i d :
  lock_invariant s -> nth_error (callers s) i = Some (Awaiting d WriteDrained) ->
  In d (resolved s) ->
  lock_invariant (after s i WriteDrained).
Proof.
  intros Hinv Hn Hin. unfold after; cbn [segment].
  counts Hn HoldsWrite. cbn in CR, CW, CD.
  pose proof (@count_pos drains _ _ _ Hn eq_refl) as D1.
  destruct Hinv as [H1 H2 H3 H4 H5 H6 H7 H8].
  destruct (H5 i d Hn) as [(_ & Hout & _)|(RD & _ & R0)]; [contradiction|].
  destruct (writerPromise (entries s)) as [p|] eqn:Hwp;
    [|destruct (H3 eq_refl) as (_ & D0 & _); lia].
  destruct (H4 p eq_refl) as (Hres & Hone & _).
  split; cbn [entries resolved fresh callers]; rewrite ?app_nil_r.
  - intros j y Hj. at_turn Hj; [subst y; exact I | eapply H1; exact Hj].
  - replace (count reads (set_nth i HoldsWrite (callers s)))
      with (count reads (callers s)) by lia. exact H2.
  - rewrite Hwp. discriminate.
  - rewrite Hwp. intros q [= <-]. split; [exact Hres|]. split; [lia|]. intros _.
    split; [lia | exact RD].
  - intros j d' Hj. pose proof (@count_pos drains _ _ _ Hj eq_refl). lia.
  - exact H6.
  - exact H7.
  - exact H8.
Qed.

(** [readUnlock] by a caller that holds the lock for reading. *)
Lemma read_unlock_invariant s i :
  lock_invariant s -> nth_error (callers s) i = Some HoldsRead ->
  lock_invariant (after s i HoldsRead).
Proof.
  intros Hinv Hn. unfold after; cbn [segment].
  destruct (count_or_readers 1 Hinv) as [_ C1].
  pose proof (@count_pos reads _ _ _ Hn eq_refl) as R1.
  rewrite C1 by lia.
  counts Hn Released. cbn in CR, CW, CD.
  destruct Hinv as [H1 H2 H3 H4 H5 H6 H7 H8].
  destruct (Z.leb_spec (Z.of_nat (count reads (callers s)) - 1) 0) as [Hlast|Hmore].
  - (* the last reader leaves *)
    split; cbn [entries resolved fresh callers writerPromise writerResolve
                readerCount readerDrain].
    + intros j y Hj. at_turn Hj; [subst y; exact I | eapply H1; exact Hj].
    + replace (count reads (set_nth i Released (callers s))) with 0%nat by lia.
      reflexivity.
    + intros Hf. destruct (H3 Hf) as (W0 & D0 & _). repeat split; lia.
    + intros p Hp. destruct (H4 p Hp) as (Hres & Hone & _).
      split; [exact Hres|]. split; [lia|]. intros _. split; [lia | reflexivity].
    + intros j d Hj. at_turn Hj; [discriminate|].
      destruct (H5 j d Hj) as [(RD & _ & _)|(_ & _ & R0)]; [|lia].
      right. split; [reflexivity|]. split; [|lia].
      rewrite RD. apply in_or_app. right. now left.
    + intros x Hx. apply in_app_or in Hx as [Hx|Hx]; [now apply H6|].
      destruct (readerDrain (entries s)) as [d|] eqn:RD; [|destruct Hx].
      destruct Hx as [<-|[]]. now apply H7.
    + discriminate.
    + exact H8.
  - (* other readers stay *)
    split; cbn [entries resolved fresh callers writerPromise writerResolve
                readerCount readerDrain]; rewrite ?app_nil_r.
    + intros j y Hj. at_turn Hj; [subst y; exact I | eapply H1; exact Hj].
    + destruct (Nat.eqb_spec (count reads (set_nth i Released (callers s))) 0); [lia|].
      f_equal. lia.
    + intros Hf. destruct (H3 Hf) as (W0 & D0 & RD). repeat split; [lia|lia|exact RD].
    + intros p Hp. destruct (H4 p Hp) as (Hres & Hone & Hexcl).
      split; [exact Hres|]. split; [lia|]. intros Hw1.
      destruct Hexcl as [R0 _]; lia.
    + intros j d Hj. at_turn Hj; [discriminate|].
      destruct (H5 j d Hj) as [(RD & Hout & _)|(_ & _ & R0)]; [|lia].
      left. split; [exact RD|]. split; [exact Hout | lia].
    + exact H6.
    + exact H7.
    + exact H8.
Qed.

(** [writeUnlock] by the caller that holds the lock for writing. *)
Lemma write_unlock_invariant s i :
  lock_invariant s -> nth_error (callers s) i = Some HoldsWrite ->
  lock_invariant (after s i HoldsWrite).
Proof.
  intros Hinv Hn. unfold after; cbn [segment].
  pose proof (@count_pos writes _ _ _ Hn eq_refl) as W1.
  counts Hn Released. cbn in CR, CW, CD.
  destruct Hinv as [H1 H2 H3 H4 H5 H6 H7 H8].
  destruct (writerPromise (entries s)) as [p|] eqn:Hwp;
    [|destruct (H3 eq_refl) as (W0 & _ & _); lia].
  destruct (H4 p eq_refl) as (Hres & Hone & Hexcl).
  destruct Hexcl as [R0 RD]; [lia|].
  split; cbn [entries resolved fresh callers writerPromise writerResolve
              readerCount readerDrain].
  - intros j y Hj. at_turn Hj; [subst y; exact I | eapply H1; exact Hj].
  - replace (count reads (set_nth i Released (callers s))) with
      (count reads (callers s)) by lia. exact H2.
  - intros _. repeat split; [lia | lia | exact RD].
  - discriminate.
  - intros j d Hj. pose proof (@count_pos drains _ _ _ Hj eq_refl). lia.
  - intros x Hx. apply in_app_or in Hx as [Hx|Hx]; [now apply H6|].
    rewrite Hres in Hx. destruct Hx as [<-|[]]. now apply H8.
  - exact H7.
  - discriminate.
Qed.

Lemma resolved_spec (l : list nat) (p : nat) :
  existsb (Nat.eqb p) l = true -> In p l.
Proof.
  intros H. apply existsb_exists in H as (x & Hx & E).
  apply Nat.eqb_eq in E. now subst.
Qed.

Lemma step_after s i old code :
  nth_error (callers s) i = Some old -> resume (resolved s) old = Some code ->
  step s i = after s i code.
Proof. intros Hn Hr. unfold step, after. now rewrite Hn, Hr. Qed.

Lemma lock_step_invariant s i : lock_invariant s -> lock_invariant (step s i).
Proof.
  intros Hinv.
  destruct (nth_error (callers s) i) as [old|] eqn:Hn;
    [|unfold step; now rewrite Hn].
  destruct (resume (resolved s) old) as [code|] eqn:Hr;
    [|unfold step; now rewrite Hn, Hr].
  rewrite (@step_after s i old code Hn Hr).
  pose proof (inv_placed Hinv _ Hn) as Hp.
  destruct old as [| | |p next| | |]; cbn in Hr, Hp.
  - injection Hr as <-. now apply read_loop_invariant with (old := ReadLoop).
  - injection Hr as <-. now apply write_loop_invariant with (old := WriteLoop).
  - destruct Hp.
  - destruct (existsb (Nat.eqb p) (resolved s)) eqn:Hdone; [|discriminate].
    injection Hr as <-. apply resolved_spec in Hdone.
    destruct Hp as [->|[->| ->]].
    + now apply read_loop_invariant with (old := Awaiting p ReadLoop).
    + now apply write_loop_invariant with (old := Awaiting p WriteLoop).
    + now apply drained_invariant with (d := p).
  - injection Hr as <-. now apply read_unlock_invariant.
  - injection Hr as <-. now apply write_unlock_invariant.
  - discriminate.
Qed.

Lemma lock_run_invariant roles schedule : lock_invariant (run roles schedule).
Proof.
  unfold run. generalize (lock_start_invariant roles). generalize (start roles).
  induction schedule as [|i schedule IH]; intros s Hs; cbn; [exact Hs|].
  apply IH. now apply lock_step_invariant.
Qed.

(** Readers and writers exclude each other.  Whatever the callers and
    the order of their turns, as long as [readUnlock] and [writeUnlock]
    are called by a caller that holds the lock: at most one caller holds
    the lock for writing; while one does, none holds it for reading; the
    count kept for the tag is the number of callers that hold it for
    reading; and a writer that waits for the readers to leave has been
    woken up once none is left. *)
Theorem lock_exclusive (roles : list role) (schedule : list nat) :
  let s := run roles schedule in
  (count writes (callers s) <= 1)%nat
  /\ (count writes (callers s) = 1%nat -> count reads (callers s) = 0%nat)
  /\ count_or (readerCount (entries s)) 0 = Z.of_nat (count reads (callers s))
  /\ (forall i d, nth_error (callers s) i = Some (Awaiting d WriteDrained) ->
      count reads (callers s) = 0%nat -> In d (resolved s)).
Proof.
  intros s. pose proof (lock_run_invariant roles schedule) as Hinv. fold s in Hinv.
  destruct (count_or_readers 0 Hinv) as [C0 C1].
  assert (Hw : (count writes (callers s) <= 1)%nat
               /\ (count writes (callers s) = 1%nat ->
                   count reads (callers s) = 0%nat)).
  { destruct (writerPromise (entries s)) as [p|] eqn:Hwp.
    - destruct (inv_taken Hinv Hwp) as (_ & Hone & Hexcl).
      split; [lia|]. intros Hw1. now destruct (Hexcl Hw1).
    - destruct (inv_free Hinv Hwp) as (W0 & _ & _). split; lia. }
  destruct Hw as [Hw1 Hw2]. repeat split; try assumption.
  - destruct (Nat.eq_dec (count reads (callers s)) 0) as [E|E].
    + rewrite C0 by exact E. lia.
    + apply C1. lia.
  - intros i d Hn R0.
    destruct (inv_drain Hinv _ Hn) as [(_ & _ & R1)|(_ & Hin & _)]; [lia | exact Hin].
Qed.

(** A reader, a writer and a second reader: the writer waits for the
    first reader to leave and keeps the second one out until it has
    released the lock. *)
Example lock_run :
  let roles := [Reader; Writer; Reader] in
  callers (run roles [0; 1; 2]%nat)
  = [HoldsRead; Awaiting 1 WriteDrained; Awaiting 0 ReadLoop]
  /\ callers (run roles [0; 1; 2; 1; 2]%nat)
     = [HoldsRead; Awaiting 1 WriteDrained; Awaiting 0 ReadLoop]
  /\ callers (run roles [0; 1; 2; 0; 1; 2]%nat)
     = [Released; HoldsWrite; Awaiting 0 ReadLoop]
  /\ callers (run roles [0; 1; 2; 0; 1; 2; 1; 2]%nat)
     = [Released; Released; HoldsRead].
Proof. repeat split. Qed.

End LockFacts.
